(** * Voice agent orchestration core: a shallow embedding and its properties

  The development follows the TypeScript sources of the adaptive agent:
  - [State]   : state/state.ts (the shared state store),
  - [Tools]   : config/tools.ts (tool declarations and [handleToolCall]),
  - [Gemini]  : gemini/geminiClient.ts (the model session client),
  - [Stt]     : services/speechToTextService.ts (speech capture),
  - [Tts]     : services/textToSpeechService.ts (speech output),
  - [Agent]   : agent.ts (the orchestrator).

  JavaScript objects used as records of named slots are finite maps from
  property names to values; promises are represented by the way they
  settle; event emitters by the list of events they emit, in order. *)

From Stdlib Require Import String Ascii List ZArith Lia Permutation.
From stdpp Require Import base option gmap strings list pretty.

Open Scope string_scope.
Open Scope list_scope.

(** ** Values that cross component boundaries *)

Module Js.

(** What a [throw] or a promise rejection carries.  [ErrorObject] is an
    instance of [Error] (with its [name] and [message]); any other value is
    kept through its [String(v)] conversion: [NonError] when the value is
    truthy, [Falsy] when it is one of [undefined], [null], [false], [0],
    [NaN] and the empty string. *)
Inductive Thrown :=
| ErrorObject (name message : string)
| NonError (stringified : string)
| Falsy (stringified : string).

(** A thrown string. *)
Definition thrown_string (s : string) : Thrown :=
  if decide (s = "") then Falsy "" else NonError s.

(** [!!error] *)
Definition truthy_thrown (e : Thrown) : bool :=
  match e with
  | ErrorObject _ _ | NonError _ => true
  | Falsy _ => false
  end.

(** [error instanceof Error ? error.message : String(error)] *)
Definition message_of (e : Thrown) : string :=
  match e with
  | ErrorObject _ m => m
  | NonError s | Falsy s => s
  end.

(** [String(error)], also what a template literal does. For an [Error]
    this is [Error.prototype.toString]. *)
Definition to_String (e : Thrown) : string :=
  match e with
  | ErrorObject n m =>
      if decide (n = "") then m
      else if decide (m = "") then n
      else n +:+ ": " +:+ m
  | NonError s | Falsy s => s
  end.

(** How a promise settles. *)
Inductive Settled (A : Type) :=
| Resolved (v : A)
| Rejected (reason : Thrown).
Arguments Resolved {A} v.
Arguments Rejected {A} reason.

(** Completion of a function: normally, or by a [throw]. *)
Inductive Completion :=
| Normal
| Throw (e : Thrown).

(** JSON-like data: tool arguments and tool results. Objects keep their
    properties in insertion order. *)
#[warnings="-register-all"]
Inductive JsValue :=
| JUndefined
| JNull
| JBool (b : bool)
| JNum (n : Z)
| JStr (s : string)
| JArr (items : list JsValue)
| JObj (props : list (string * JsValue)).

(** A plain object: neither a primitive, nor [null], nor an array. *)
Definition is_object (v : JsValue) : bool :=
  match v with
  | JObj _ => true
  | _ => false
  end.

End Js.

(** ** state/state.ts *)

Module State.

(** The values held by the slots of [State]: booleans, [null], strings and
    references to objects (the client, the two buttons); [undefined] is
    what reading a missing property gives. *)
Inductive Value :=
| undefined
| null
| boolean (b : bool)
| str (s : string)
| ref (address : positive).

#[global] Instance Value_eq_dec : EqDecision Value.
Proof. solve_decision. Defined.

(** [a !== b]: by value on primitives, by identity on objects. *)
Definition strict_neq (a b : Value) : bool := negb (bool_decide (a = b)).

(** An object as a finite map of its own enumerable properties. *)
Abbreviation Obj := (gmap string Value).

(** [o[key]] *)
Definition prop (o : Obj) (key : string) : Value := default undefined (o !! key).

(** [{...a, ...b}] *)
Definition spread (a b : Obj) : Obj := b ∪ a.

(** [for (const key in o) if (hasOwnProperty(o, key))] visits these. *)
Definition own_keys (o : Obj) : list string := (map_to_list o).*1.

Definition _defaultState : Obj :=
  list_to_map
    [ ("isSupported", boolean false);
      ("isAgentEnabled", boolean false);
      ("isMicOpen", boolean false);
      ("isAgentSpeaking", boolean false);
      ("isAgentThinking", boolean false);
      ("geminiClient", null);
      ("agentButtonElement", null);
      ("micButtonElement", null);
      ("lastError", null) ].

(** A registered [StateChangeListener], by identity. *)
Definition Listener := nat.

(** The module-level variables [_state] and [stateEmitter]. *)
Record Store := mkStore {
  _state : Obj;
  stateEmitter : list Listener
}.

(** [let _state = { ..._defaultState }; const stateEmitter = new EventEmitter()] *)
Definition initial : Store :=
  {| _state := spread ∅ _defaultState; stateEmitter := [] |}.

Definition getState (s : Store) : Obj := spread ∅ (_state s).

(** The loop that computes [hasChanged]; the [break] only saves work. *)
Definition hasChanged (keys : list string) (previousState current : Obj) : bool :=
  existsb (fun key => strict_neq (prop previousState key) (prop current key)) keys.

(** [stateEmitter.emit('stateChanged', payload)]: every listener is called
    with the payload, in registration order. *)
Definition emit (s : Store) (payload : Obj) : list (Listener * Obj) :=
  (fun l => (l, payload)) <$> stateEmitter s.

(** [updateState(updates)]: the new store, and the payload of the
    ['stateChanged'] event when one is emitted. *)
Definition updateState (updates : Obj) (s : Store) : Store * option Obj :=
  let previousState := spread ∅ (_state s) in
  let s' := {| _state := spread (_state s) updates; stateEmitter := stateEmitter s |} in
  if hasChanged (own_keys updates) previousState (_state s')
  then (s', Some (getState s'))
  else (s', None).

Definition resetState (s : Store) : Store * option Obj :=
  let previousState := spread ∅ (_state s) in
  let s' := {| _state := spread ∅ _defaultState; stateEmitter := stateEmitter s |} in
  if hasChanged (own_keys (_state s')) previousState (_state s')
  then (s', Some (getState s'))
  else (s', None).

(** [onStateChange(listener)] *)
Definition onStateChange (listener : Listener) (s : Store) : Store :=
  {| _state := _state s; stateEmitter := stateEmitter s ++ [listener] |}.

(** The function [onStateChange] returns: [stateEmitter.off] drops every
    registration of the listener. *)
Definition unsubscribe (listener : Listener) (s : Store) : Store :=
  {| _state := _state s;
     stateEmitter := filter (fun l => l <> listener) (stateEmitter s) |}.

(** A sequence of [updateState] calls, first call first. *)
Definition updateAll (partials : list Obj) (s : Store) : Store :=
  foldl (fun acc updates => (updateState updates acc).1) s partials.

(** The deliveries of one [updateState] call. *)
Definition notifications (updates : Obj) (s : Store) : list (Listener * Obj) :=
  match (updateState updates s).2 with
  | Some payload => emit (updateState updates s).1 payload
  | None => []
  end.

(** *** The merge as the specification words it

    "Last write wins": a slot holds the value given by the last partial
    that mentions it, and its default when none does. *)
Fixpoint last_write (key : string) (partials : list Obj) : option Value :=
  match partials with
  | [] => None
  | p :: later =>
      match last_write key later with
      | Some v => Some v
      | None => p !! key
      end
  end.

Definition merged (defaults : Obj) (partials : list Obj) (key : string) : option Value :=
  match last_write key partials with
  | Some v => Some v
  | None => defaults !! key
  end.

End State.

(** ** config/tools.ts: declarations and the dispatcher *)

Module Tools.
Import Js.

(** A [FunctionDeclaration], with the part of its schema that names the
    parameters the model must provide. *)
Record FunctionDeclaration := {
  name : string;
  required : list string
}.

Definition searchRecipesDeclaration := {| name := "search_recipes"; required := ["query"] |}.
Definition viewRecipeDeclaration := {| name := "view_recipe"; required := ["recipe_id"] |}.
Definition listRecipesDeclaration := {| name := "list_recipes"; required := [] |}.
Definition listFavoritesDeclaration := {| name := "list_favorites"; required := [] |}.
Definition getRecipeDetailsDeclaration :=
  {| name := "get_recipe_details"; required := ["recipe_id"] |}.
Definition markAsFavoriteDeclaration :=
  {| name := "mark_as_favorite"; required := ["recipe_id"; "is_favorite"] |}.
Definition setDarkModeDeclaration := {| name := "set_dark_mode"; required := ["enabled"] |}.
Definition setFontSizeDeclaration := {| name := "set_font_size"; required := ["factor"] |}.
Definition goBackToListDeclaration := {| name := "go_back_to_list"; required := [] |}.

Definition functionDeclarations : list FunctionDeclaration :=
  [ searchRecipesDeclaration;
    viewRecipeDeclaration;
    listRecipesDeclaration;
    listFavoritesDeclaration;
    getRecipeDetailsDeclaration;
    markAsFavoriteDeclaration;
    setDarkModeDeclaration;
    setFontSizeDeclaration;
    goBackToListDeclaration ].

(** An asynchronous tool: from its arguments and the application (recipe
    list on screen, favourites, theme, font size, DOM) to the way its
    promise settles and the application it leaves. *)
Definition Tool (App : Type) : Type := JsValue -> App -> Settled JsValue * App.

(** The nine tool implementations. They live in the host application
    (api.js, ui/render.js, state/index.js, the DOM) and are taken as
    given here. *)
Record Implementations (App : Type) := {
  search_recipes : Tool App;
  view_recipe : Tool App;
  list_recipes : Tool App;
  list_favorites : Tool App;
  get_recipe_details : Tool App;
  mark_as_favorite : Tool App;
  set_dark_mode : Tool App;
  set_font_size : Tool App;
  go_back_to_list : Tool App
}.
Arguments search_recipes {App}.
Arguments view_recipe {App}.
Arguments list_recipes {App}.
Arguments list_favorites {App}.
Arguments get_recipe_details {App}.
Arguments mark_as_favorite {App}.
Arguments set_dark_mode {App}.
Arguments set_font_size {App}.
Arguments go_back_to_list {App}.

(** [handleToolCall(functionName, args)]: the [switch] compares with
    [===], first matching case first; [return await f(args)] settles as
    [f(args)] does. *)
Definition handleToolCall {App : Type} (tools : Implementations App)
    (functionName : string) (args : JsValue) (app : App) : Settled JsValue * App :=
  if decide (functionName = "search_recipes") then search_recipes tools args app
  else if decide (functionName = "view_recipe") then view_recipe tools args app
  else if decide (functionName = "list_recipes") then list_recipes tools args app
  else if decide (functionName = "list_favorites") then list_favorites tools args app
  else if decide (functionName = "get_recipe_details") then get_recipe_details tools args app
  else if decide (functionName = "mark_as_favorite") then mark_as_favorite tools args app
  else if decide (functionName = "set_dark_mode") then set_dark_mode tools args app
  else if decide (functionName = "set_font_size") then set_font_size tools args app
  else if decide (functionName = "go_back_to_list") then go_back_to_list tools args app
  else (Resolved (JStr ("Error: Tool " +:+ functionName +:+ " is not available.")), app).

End Tools.


(** ** gemini/geminiClient.ts: the model session client *)

Module Gemini.
Import Js.

(** A [FunctionCall] requested by the model. *)
Record FunctionCall := {
  name : string;
  args : JsValue
}.

(** A [Part] of the form [{functionResponse: {name, response}}]. *)
Record FunctionResponse := {
  fr_name : string;
  response : JsValue
}.

(** What [chat.sendMessage] is given: the user's text, or the parts that
    answer a batch of function calls. *)
Inductive Request :=
| UserText (userInput : string)
| FunctionResponses (parts : list FunctionResponse).

(** An [EnhancedGenerateContentResponse], through its two accessors. *)
Record Response := {
  functionCalls : option (list FunctionCall);
  text : string
}.

(** A [GenerateContentResult]; [result.response] may be missing. *)
Record GenerateContentResult := {
  result_response : option Response
}.

(** How the promise of one [chat.sendMessage] call settles. *)
Inductive ApiReply :=
| Replies (result : option GenerateContentResult)
| Fails (reason : Thrown).

(** The remote model, seen from one turn: the replies it gives to the
    successive requests, in order. A request made when no reply is left is
    not answered: its promise does not settle, and whatever awaits it
    waits. *)
Definition Endpoint := list ApiReply.

(** How a call of an [async] function stands: it has completed, normally
    or by a [throw], or it still awaits a promise that has not settled. *)
Inductive Progress :=
| Completed (how : Completion)
| Awaiting.

(** [GeminiClientEvent] with the payload each event is emitted with. *)
Inductive Event :=
| chatInitialized
| thinking
| responseChunk
| responseComplete (text : option string) (error : option Thrown)
| functionCallRequested (calls : list FunctionCall)
| functionCallCompleted (name : string) (args result : JsValue)
| error (message : string) (details : option Thrown).

(** A [ChatSession], by the requests made on it so far. *)
Record ChatSession := {
  sent : list Request
}.

Section Client.
Context {W : Type}.

(** [config.toolsConfig]. [W] is whatever the dispatcher acts on. *)
Record ToolsConfig := {
  functionDeclarations : list string;
  handleToolCall : option (string -> JsValue -> W -> Settled JsValue * W)
}.

Record GeminiClientConfig := {
  toolsConfig : option ToolsConfig;
  apiKey : string;
  modelName : option string
}.

(** The client object ([chat], and the events it has emitted, oldest
    first) together with the world the dispatcher acts on. *)
Record Client := {
  chat : option ChatSession;
  emitted : list Event;
  world : W
}.

Definition emit (e : Event) (c : Client) : Client :=
  {| chat := chat c; emitted := emitted c ++ [e]; world := world c |}.

Definition emit_all (es : list Event) (c : Client) : Client :=
  {| chat := chat c; emitted := emitted c ++ es; world := world c |}.

Definition set_chat (ch : option ChatSession) (c : Client) : Client :=
  {| chat := ch; emitted := emitted c; world := world c |}.

Definition set_world (w : W) (c : Client) : Client :=
  {| chat := chat c; emitted := emitted c; world := w |}.

(** The request is recorded on the session. *)
Definition record_request (r : Request) (session : ChatSession) : ChatSession :=
  {| sent := sent session ++ [r] |}.

(** The state right after construction. *)
Definition constructor (w : W) : Client :=
  {| chat := None; emitted := []; world := w |}.

(** [initializeChat(history)]; [startChat] tells whether
    [this.model.startChat] throws. *)
Definition initializeChat (startChat : option Thrown) (c : Client) : Client :=
  match startChat with
  | None => emit chatInitialized (set_chat (Some {| sent := [] |}) c)
  | Some e => emit (error "Failed to initialize chat session." (Some e)) c
  end.

(** [destroy()]: the listeners are removed by the caller's side of the
    emitter; here the session is dropped. *)
Definition destroy (c : Client) : Client := set_chat None c.

(** A dispatched call together with the way its promise settled. *)
Definition Settlement : Type := FunctionCall * Settled JsValue.

(** [functionCalls.map(async (fc) => ...)] starts the callbacks in call
    order; each runs up to its [await], that is, invokes the dispatcher. *)
Fixpoint dispatchAll (dispatch : string -> JsValue -> W -> Settled JsValue * W)
    (calls : list FunctionCall) (w : W) : list Settlement * W :=
  match calls with
  | [] => ([], w)
  | fc :: rest =>
      let '(outcome, w1) := dispatch (name fc) (args fc) w in
      let '(settled, w2) := dispatchAll dispatch rest w1 in
      ((fc, outcome) :: settled, w2)
  end.

(** The rest of a callback, after its [await]: the event it emits and the
    part it pushes. *)
Definition respond (s : Settlement) : Event * FunctionResponse :=
  let functionName := name s.1 in
  match s.2 with
  | Resolved toolResult =>
      let functionResponseData := JObj [("result", toolResult)] in
      (functionCallCompleted functionName (args s.1) functionResponseData,
       {| fr_name := functionName; response := functionResponseData |})
  | Rejected e =>
      (error ("Error executing tool " +:+ functionName) (Some e),
       {| fr_name := functionName;
          response := JObj [("error", JStr ("Failed to execute tool: " +:+ message_of e))] |})
  end.

Variable config : GeminiClientConfig.

(** The order in which the awaited dispatches of a batch resume; the
    scheduler decides. *)
Variable completion : list Settlement -> list Settlement.

(** [handleFunctionCalls(functionCalls)]. [reply] is how the endpoint
    answers the function responses, if it does, [processNext] the
    recursive call to [processApiResponse]. The dispatched calls are taken
    to settle, each as the dispatcher says. *)
Definition handleFunctionCalls (reply : option ApiReply)
    (processNext : option GenerateContentResult -> Client -> Client * Progress)
    (functionCalls : list FunctionCall) (c : Client) : Client * Progress :=
  match chat c with
  | None =>
      (c, Completed
            (Throw (ErrorObject "Error" "Chat not initialized during function call handling.")))
  | Some session =>
      match toolsConfig config ≫= handleToolCall with
      | None =>
          (c, Completed (Throw (ErrorObject "Error" "handleToolCall function is not configured.")))
      | Some dispatch =>
          let c1 := emit (functionCallRequested functionCalls) c in
          let '(settled, w) := dispatchAll dispatch functionCalls (world c1) in
          let responded := respond <$> completion settled in
          let c2 := emit_all responded.*1 (set_world w c1) in
          let functionResponseParts := responded.*2 in
          let c3 := set_chat (Some (record_request (FunctionResponses functionResponseParts) session)) c2 in
          match reply with
          | None => (c3, Awaiting)
          | Some (Fails e) => (c3, Completed (Throw e))
          | Some (Replies nextResult) => processNext nextResult c3
          end
      end
  end.

(** [processApiResponse(result)]. [pending] are the replies the endpoint
    has yet to give. *)
Fixpoint processApiResponse (pending : Endpoint) (result : option GenerateContentResult)
    (c : Client) : Client * Progress :=
  match result ≫= result_response with
  | None => (c, Completed (Throw (ErrorObject "Error" "Received invalid response from API")))
  | Some response =>
      match functionCalls response with
      | Some (fc :: more) =>
          match pending with
          | [] => handleFunctionCalls None (fun _ c' => (c', Awaiting)) (fc :: more) c
          | reply :: rest =>
              handleFunctionCalls (Some reply) (processApiResponse rest) (fc :: more) c
          end
      | _ => (emit (responseComplete (Some (text response)) None) c, Completed Normal)
      end
  end.

(** [sendMessage(userInput)], as far as the replies of the endpoint take
    it: while what it awaits has not settled, nothing more is emitted. *)
Definition sendMessage (pending : Endpoint) (userInput : string) (c : Client) : Client :=
  match chat c with
  | None => emit (error "Chat not initialized. Call initializeChat() first." None) c
  | Some session =>
      let c1 := emit thinking c in
      let c2 := set_chat (Some (record_request (UserText userInput) session)) c1 in
      let '(c3, progress) :=
        match pending with
        | [] => (c2, Awaiting)
        | Fails e :: _ => (c2, Completed (Throw e))
        | Replies result :: rest => processApiResponse rest result c2
        end in
      match progress with
      | Completed Normal | Awaiting => c3
      | Completed (Throw e) =>
          emit (responseComplete None (Some e))
            (emit (error "Failed to get response from Gemini." (Some e)) c3)
      end
  end.

(** The requests made on the client's session so far. *)
Definition requests (c : Client) : list Request :=
  match chat c with
  | Some session => sent session
  | None => []
  end.

End Client.

Arguments ToolsConfig W : clear implicits.
Arguments GeminiClientConfig W : clear implicits.
Arguments Client W : clear implicits.

Definition is_functionCallRequested (e : Event) : bool :=
  match e with functionCallRequested _ => true | _ => false end.

Definition is_responseComplete (e : Event) : bool :=
  match e with responseComplete _ _ => true | _ => false end.

Definition is_thinking (e : Event) : bool :=
  match e with thinking => true | _ => false end.

(** The two envelopes: [{result: v}] with any [v], and [{error: "..."}]
    with a string. *)
Definition is_envelope (v : JsValue) : bool :=
  match v with
  | JObj [(key, payload)] =>
      if decide (key = "result") then true
      else if decide (key = "error") then
        match payload with JStr _ => true | _ => false end
      else false
  | _ => false
  end.

(** A request is well-formed for the protocol when every function response
    it carries is a plain object, and one of the two envelopes. *)
Definition enveloped (r : Request) : Prop :=
  match r with
  | UserText _ => True
  | FunctionResponses parts =>
      Forall (fun part => is_object (response part) = true
                          /\ is_envelope (response part) = true) parts
  end.

(** The result slot of a call: the part named after it, holding what the
    call resolved with, or a description of why it was rejected. *)
Definition slot_of (s : Settlement) (part : FunctionResponse) : Prop :=
  fr_name part = name s.1 /\
  match s.2 with
  | Resolved toolResult => response part = JObj [("result", toolResult)]
  | Rejected e =>
      response part = JObj [("error", JStr ("Failed to execute tool: " +:+ message_of e))]
  end.

(** What the dispatcher itself says of a batch, call by call. The world
    in which a call is dispatched is the one the calls before it have
    left. *)
Definition ran {W : Type} (dispatch : string -> JsValue -> W -> Settled JsValue * W)
    (calls : list FunctionCall) (w : W) : W :=
  foldl (fun w' fc => (dispatch (name fc) (args fc) w').2) w calls.

Definition outcomes {W : Type} (dispatch : string -> JsValue -> W -> Settled JsValue * W)
    (batch : list FunctionCall) (w : W) : list Settlement :=
  imap (fun i fc => (fc, (dispatch (name fc) (args fc) (ran dispatch (take i batch) w)).1))
    batch.

(** The calls a reply asks for; none for a final text, an invalid result
    or a failure. *)
Definition requested (reply : ApiReply) : option (list FunctionCall) :=
  match reply with
  | Replies result =>
      match result ≫= result_response with
      | Some response =>
          match functionCalls response with
          | Some (fc :: more) => Some (fc :: more)
          | _ => None
          end
      | None => None
      end
  | Fails _ => None
  end.

(** The batches a turn is asked to run: those of the replies up to the
    first that asks for none. *)
Fixpoint batches (pending : Endpoint) : list (list FunctionCall) :=
  match pending with
  | [] => []
  | reply :: rest =>
      match requested reply with
      | Some batch => batch :: batches rest
      | None => []
      end
  end.

(** What the dispatcher says of successive batches: each starts in the
    world the one before has left. *)
Fixpoint rounds {W : Type} (dispatch : string -> JsValue -> W -> Settled JsValue * W)
    (todo : list (list FunctionCall)) (w : W) : list (list Settlement) :=
  match todo with
  | [] => []
  | batch :: more => outcomes dispatch batch w :: rounds dispatch more (ran dispatch batch w)
  end.

(** A turn comes to an end when the endpoint at some point answers with
    something else than a request for tools. *)
Definition concludes (pending : Endpoint) : Prop :=
  Exists (fun reply => requested reply = None) pending.

(** Events that neither open nor close a turn. *)
Definition quiet (e : Event) : Prop :=
  is_responseComplete e = false /\ is_thinking e = false.

(** How the events of a client grow over the processing of a reply: when
    the processing returns, they end with the one [responseComplete] that
    carries the model's text; when it throws, or while it waits, no
    [responseComplete] has been emitted. An open session stays open. *)
Definition processed {W : Type} (before : Client W) (outcome : Client W * Progress) : Prop :=
  exists mid,
    emitted outcome.1 = emitted before ++ mid
    /\ match outcome.2 with
       | Completed Normal => exists mid' t,
           mid = mid' ++ [responseComplete (Some t) None] /\ Forall quiet mid'
       | Completed (Throw _) | Awaiting => Forall quiet mid
       end
    /\ (is_Some (chat before) -> is_Some (chat outcome.1)).

(** One part per call: the parts of an answer are named after the calls of
    the batch, each call once. *)
Definition answers_batch (batch : list FunctionCall) (parts : list FunctionResponse) : Prop :=
  Permutation (fr_name <$> parts) (name <$> batch).

(** How events and requests grow together over the processing of a reply:
    the batches announced by [functionCallRequested], in order, are
    answered one by one by the function responses sent to the model. *)
Definition answered {W : Type} (before after : Client W) : Prop :=
  exists events batches answers,
    emitted after = emitted before ++ events
    /\ filter (fun e => is_functionCallRequested e = true) events
       = functionCallRequested <$> batches
    /\ requests after = requests before ++ (FunctionResponses <$> answers)
    /\ Forall2 answers_batch batches answers.

End Gemini.

(** ** services/speechToTextService.ts: speech capture *)

Module Stt.
Import Js.

(** [String.prototype.trim] on strings of 8-bit code units: tab, line
    feed, vertical tab, form feed, carriage return, space and no-break
    space are white space. *)
Definition is_white_space (c : ascii) : bool :=
  let n := nat_of_ascii c in
  (Nat.leb 9 n && Nat.leb n 13) || Nat.eqb n 32 || Nat.eqb n 160.

Fixpoint trimStart (s : list ascii) : list ascii :=
  match s with
  | c :: s' => if is_white_space c then trimStart s' else s
  | [] => []
  end.

Definition trim (s : string) : string :=
  string_of_list_ascii
    (rev (trimStart (rev (trimStart (list_ascii_of_string s))))).

(** One entry of [event.results]: its [isFinal] flag and the transcript of
    its first alternative, [results[i][0].transcript]. *)
Record SpeechRecognitionResult := {
  isFinal : bool;
  transcript : string
}.

Record SpeechRecognitionEvent := {
  resultIndex : nat;
  results : list SpeechRecognitionResult
}.

(** The browser's recognizer as the service drives it: its configuration
    and the calls made on it. *)
Inductive Command := cmd_start | cmd_stop | cmd_abort.

Record SpeechRecognition := {
  continuous : bool;
  interimResults : bool;
  lang : string;
  commands : list Command
}.

(** A promise returned by [stop()], by identity. *)
Definition PromiseId := nat.

(** An event emitter, by the events emitted on it. *)
Definition EventEmitter := list (string * string).

(** The fields of the service. [events] is the property that [_onResult]
    and [_onError] read with [this.events]: the class declares no such
    field and no method assigns it. [promises] counts the promises created
    by [stop()], [settlements] records how pending ones were settled. *)
Record SpeechToTextService := {
  recognition : option SpeechRecognition;
  isListening : bool;
  finalTranscript : string;
  stopPromiseResolver : option PromiseId;
  stopPromiseRejecter : option PromiseId;
  events : option EventEmitter;
  promises : nat;
  settlements : list (PromiseId * Settled string)
}.

Definition set_recognition r (s : SpeechToTextService) :=
  {| recognition := r; isListening := isListening s;
     finalTranscript := finalTranscript s;
     stopPromiseResolver := stopPromiseResolver s;
     stopPromiseRejecter := stopPromiseRejecter s;
     events := events s; promises := promises s; settlements := settlements s |}.

Definition set_isListening b (s : SpeechToTextService) :=
  {| recognition := recognition s; isListening := b;
     finalTranscript := finalTranscript s;
     stopPromiseResolver := stopPromiseResolver s;
     stopPromiseRejecter := stopPromiseRejecter s;
     events := events s; promises := promises s; settlements := settlements s |}.

Definition set_finalTranscript t (s : SpeechToTextService) :=
  {| recognition := recognition s; isListening := isListening s;
     finalTranscript := t;
     stopPromiseResolver := stopPromiseResolver s;
     stopPromiseRejecter := stopPromiseRejecter s;
     events := events s; promises := promises s; settlements := settlements s |}.

Definition set_events e (s : SpeechToTextService) :=
  {| recognition := recognition s; isListening := isListening s;
     finalTranscript := finalTranscript s;
     stopPromiseResolver := stopPromiseResolver s;
     stopPromiseRejecter := stopPromiseRejecter s;
     events := e; promises := promises s; settlements := settlements s |}.

(** Both handlers of the pending promise are set, or cleared, together. *)
Definition set_stopPromise (p : option PromiseId) (s : SpeechToTextService) :=
  {| recognition := recognition s; isListening := isListening s;
     finalTranscript := finalTranscript s;
     stopPromiseResolver := p;
     stopPromiseRejecter := p;
     events := events s; promises := promises s; settlements := settlements s |}.

(** Calling a stored resolver or rejecter settles its promise. *)
Definition settle (p : PromiseId) (how : Settled string) (s : SpeechToTextService) :=
  {| recognition := recognition s; isListening := isListening s;
     finalTranscript := finalTranscript s;
     stopPromiseResolver := stopPromiseResolver s;
     stopPromiseRejecter := stopPromiseRejecter s;
     events := events s; promises := promises s;
     settlements := settlements s ++ [(p, how)] |}.

(** [new Promise(...)] inside [stop()]. *)
Definition new_promise (s : SpeechToTextService) : PromiseId * SpeechToTextService :=
  (promises s,
   {| recognition := recognition s; isListening := isListening s;
      finalTranscript := finalTranscript s;
      stopPromiseResolver := stopPromiseResolver s;
      stopPromiseRejecter := stopPromiseRejecter s;
      events := events s; promises := S (promises s); settlements := settlements s |}).

Definition command (cmd : Command) (s : SpeechToTextService) :=
  match recognition s with
  | Some r =>
      set_recognition
        (Some {| continuous := continuous r; interimResults := interimResults r;
                 lang := lang r; commands := commands r ++ [cmd] |}) s
  | None => s
  end.

(** [this.events.emit(name, payload)]: reading [emit] off [undefined]
    throws a [TypeError]. *)
Definition events_emit (name payload : string) (s : SpeechToTextService)
    : SpeechToTextService * Completion :=
  match events s with
  | Some emitter => (set_events (Some (emitter ++ [(name, payload)])) s, Normal)
  | None =>
      (s, Throw (ErrorObject "TypeError"
                   "Cannot read properties of undefined (reading 'emit')"))
  end.

(** [new SpeechToTextService(lang)]. [available] tells whether the browser
    has a [SpeechRecognition] constructor, [construction] whether calling
    it throws. *)
Definition constructor (available : bool) (construction : Completion) (language : string)
    : SpeechToTextService :=
  {| recognition :=
       if available then
         match construction with
         | Normal => Some {| continuous := true; interimResults := true;
                             lang := language; commands := [] |}
         | Throw _ => None
         end
       else None;
     isListening := false;
     finalTranscript := "";
     stopPromiseResolver := None;
     stopPromiseRejecter := None;
     events := None;
     promises := 0;
     settlements := [] |}.

Definition isSupported (s : SpeechToTextService) : bool :=
  match recognition s with Some _ => true | None => false end.

Definition getIsListening (s : SpeechToTextService) : bool := isListening s.

Definition _rejectPendingStopPromise (reason : Thrown) (s : SpeechToTextService) :=
  match stopPromiseRejecter s with
  | Some p => set_stopPromise None (settle p (Rejected reason) s)
  | None => s
  end.

Definition _onStart (s : SpeechToTextService) : SpeechToTextService :=
  set_isListening true s.

(** The loop of [_onResult]: the accumulated transcript and the interim
    text after the fragments from [resultIndex] on. *)
Definition accumulate (acc : string * string) (r : SpeechRecognitionResult) : string * string :=
  if isFinal r then
    let finalChunk := trim (transcript r) in
    (acc.1 +:+ (finalChunk +:+ " "), acc.2)
  else (acc.1, acc.2 +:+ transcript r).

Definition _onResult (event : SpeechRecognitionEvent) (s : SpeechToTextService)
    : SpeechToTextService * Completion :=
  let '(final, interim) :=
    foldl accumulate (finalTranscript s, "") (drop (resultIndex event) (results event)) in
  events_emit "interimResult" interim (set_finalTranscript final s).

Definition _onError (error : string) (s : SpeechToTextService)
    : SpeechToTextService * Completion :=
  events_emit "error" error
    (_rejectPendingStopPromise (thrown_string error) (set_isListening false s)).

Definition _onEnd (s : SpeechToTextService) : SpeechToTextService :=
  let s1 := set_isListening false s in
  let s2 :=
    match stopPromiseResolver s1, stopPromiseRejecter s1 with
    | Some p, _ => settle p (Resolved (trim (finalTranscript s1))) s1
    | None, Some p =>
        settle p (Rejected (NonError "Recognition ended unexpectedly after stop() call.")) s1
    | None, None => s1
    end in
  set_stopPromise None s2.

(** [start()]. [started] tells whether [this.recognition.start()] throws. *)
Definition start (started : Completion) (s : SpeechToTextService)
    : SpeechToTextService * Completion :=
  match recognition s with
  | None => (s, Normal)
  | Some _ =>
      if isListening s then (s, Normal)
      else
        let s1 := set_finalTranscript "" s in
        let s2 := _rejectPendingStopPromise
                    (NonError "New recognition started before previous stop completed.") s1 in
        match started with
        | Normal => (command cmd_start s2, Normal)
        | Throw _ => _onError "start-failed" s2
        end
  end.

(** What [stop()] returns: a promise that is already settled, or the
    pending promise it has just created. *)
Inductive Returned :=
| Immediately (how : Settled string)
| Pending (p : PromiseId).

(** [stop()]. [stopped] tells whether [this.recognition.stop()] throws. *)
Definition stop (stopped : Completion) (s : SpeechToTextService)
    : SpeechToTextService * Returned :=
  match recognition s with
  | None => (s, Immediately (Rejected (NonError "SpeechRecognition not supported.")))
  | Some _ =>
      if isListening s then
        let '(p, s1) := new_promise s in
        let s2 := set_stopPromise (Some p) s1 in
        match stopped with
        | Normal => (command cmd_stop s2, Pending p)
        | Throw e => (_rejectPendingStopPromise e s2, Pending p)
        end
      else (s, Immediately (Resolved (finalTranscript s)))
  end.

(** [abort()]. [aborted] tells whether [this.recognition.abort()] throws. *)
Definition abort (aborted : Completion) (s : SpeechToTextService) : SpeechToTextService :=
  match recognition s with
  | None => s
  | Some _ =>
      if isListening s then
        match aborted with
        | Normal =>
            _rejectPendingStopPromise (NonError "Recognition aborted by user.")
              (command cmd_abort s)
        | Throw e => _rejectPendingStopPromise e s
        end
      else s
  end.

Definition destroy (s : SpeechToTextService) : SpeechToTextService :=
  let s1 :=
    match recognition s with
    | Some _ =>
        set_recognition None (if isListening s then command cmd_abort s else s)
    | None => s
    end in
  _rejectPendingStopPromise (NonError "Service destroyed") s1.

(** How the promise [p] was settled, if it was. *)
Definition settlement (p : PromiseId) (s : SpeechToTextService) : option (Settled string) :=
  (fun found : nat * (PromiseId * Settled string) => found.2.2)
    <$> list_find (fun entry => entry.1 = p) (settlements s).

(** *** Two runs used below *)

(** A complete listening session in which the recognizer delivers one final
    fragment: [start()], the recognizer's [start] event, one result event,
    [stop()], the recognizer's [end] event. *)
Definition hello_event : SpeechRecognitionEvent :=
  {| resultIndex := 0; results := [ {| isFinal := true; transcript := " hello" |} ] |}.


(** A service that is listening. *)
Definition listening : SpeechToTextService :=
  _onStart (start Normal (constructor true Normal "en-US")).1.

(** *** The service as a state machine

    What can happen to a service: the calls of its user, and the events of
    the recognizer. The handlers are attached to the recognizer, so that
    its events reach the service only while [recognition] is set. *)
Inductive Action :=
| call_start (started : Completion)
| call_stop (stopped : Completion)
| call_abort (aborted : Completion)
| call_destroy
| fire_start
| fire_result (event : SpeechRecognitionEvent)
| fire_error (error : string)
| fire_end.

Definition step (s : SpeechToTextService) (a : Action) : SpeechToTextService :=
  match a with
  | call_start started => (start started s).1
  | call_stop stopped => (stop stopped s).1
  | call_abort aborted => abort aborted s
  | call_destroy => destroy s
  | fire_start => if isSupported s then _onStart s else s
  | fire_result event => if isSupported s then (_onResult event s).1 else s
  | fire_error error => if isSupported s then (_onError error s).1 else s
  | fire_end => if isSupported s then _onEnd s else s
  end.

Definition run (actions : list Action) (s : SpeechToTextService) : SpeechToTextService :=
  foldl step s actions.

(** The transcript after a series of result events, from the transcript
    before them. *)
Definition heard (events : list SpeechRecognitionEvent) (before : string) : string :=
  foldl (fun t event =>
           (foldl accumulate (t, "") (drop (resultIndex event) (results event))).1)
    before events.

(** The promises settled so far. *)
Definition settled (s : SpeechToTextService) : list PromiseId := (settlements s).*1.

(** The bookkeeping of the promises: the two stored handlers belong to the
    same promise, the pending promise has not been settled, no promise is
    settled twice, and [this.events] is never assigned. *)
Record tidy (s : SpeechToTextService) : Prop := {
  same_promise : stopPromiseResolver s = stopPromiseRejecter s;
  pending_not_settled :
    forall p, stopPromiseRejecter s = Some p -> (p ∉ settled s) /\ p < promises s;
  settled_once : NoDup (settled s);
  settled_were_created : forall p, p ∈ settled s -> p < promises s;
  no_emitter : events s = None
}.

(** What holds of the fields at all times: the bookkeeping is tidy, and a
    promise is pending only while the service is listening. *)
Definition consistent (s : SpeechToTextService) : Prop :=
  tidy s /\ (forall p, stopPromiseRejecter s = Some p -> isListening s = true).

(** A promise that was created, has not been settled, and whose handlers
    the service no longer holds. *)
Definition abandoned (p : PromiseId) (s : SpeechToTextService) : Prop :=
  p < promises s
  /\ (p ∉ settled s)
  /\ stopPromiseResolver s <> Some p
  /\ stopPromiseRejecter s <> Some p.

End Stt.

(** ** services/textToSpeechService.ts: speech output *)

Module Tts.
Import Js.

(** *** Regular expressions, as the backtracking matcher runs them

    Text is a list of code units. A pattern is matched against the front of
    the text; [ends p s] lists what is left of [s] after each way of
    matching [p], in the order in which the matcher tries them, so that its
    head is the match the engine reports. *)
Inductive Pattern :=
| Class (accepts : ascii -> bool)
| Then (p q : Pattern)
| Or (p q : Pattern)
| Repeat (p : Pattern) (min : nat) (max : option nat).

(** Greedy repetition [p{min,max}] ([max = None] for no bound): one more
    iteration is tried before stopping. Every iteration of the patterns
    used here consumes at least one code unit, so [length s] iterations are
    all there can be. *)
Fixpoint repeat_ends (step : list ascii -> list (list ascii)) (fuel min : nat)
    (max : option nat) (s : list ascii) : list (list ascii) :=
  let stop := match min with 0 => [s] | S _ => [] end in
  match max, fuel with
  | Some 0, _ => stop
  | _, 0 => stop
  | _, S fuel' =>
      flat_map
        (fun s' =>
           if bool_decide (length s' < length s)
           then repeat_ends step fuel' (pred min) (pred <$> max) s'
           else [])
        (step s)
      ++ stop
  end.

Fixpoint ends (p : Pattern) (s : list ascii) : list (list ascii) :=
  match p with
  | Class accepts =>
      match s with
      | c :: s' => if accepts c then [s'] else []
      | [] => []
      end
  | Then p q => flat_map (ends q) (ends p s)
  | Or p q => ends p s ++ ends q s
  | Repeat p min max => repeat_ends (ends p) (length s) min max s
  end.

(** [[...]] and [[^...]] *)
Definition one_of (set : list ascii) (c : ascii) : bool :=
  existsb (Ascii.eqb c) set.
Definition none_of (set : list ascii) (c : ascii) : bool :=
  negb (one_of set c).

(** [.] matches anything but a line terminator. *)
Definition dot (c : ascii) : bool := none_of ["010"; "013"]%char c.

Definition star p := Repeat p 0 None.
Definition plus p := Repeat p 1 None.
Definition optional p := Repeat p 0 (Some 1).

(** The letter [d]: the pattern is built from a string literal in which
    [d] stands unescaped. *)
Definition d : Pattern := Class (Ascii.eqb "d").

(** [d{1,3}(?:,d{3})*(?:.d+)?] *)
Definition group3 : Pattern :=
  Then (Repeat d 1 (Some 3))
    (Then (star (Then (Class (Ascii.eqb ",")) (Repeat d 3 (Some 3))))
       (optional (Then (Class dot) (plus d)))).

(** The alternation under the outer [+]: one of [. ! ? ; , *] or a double
    quote (code unit 34); or a run of [. ! ? : ; ,]; or [group3]. *)
Definition group2 : Pattern :=
  Or (Class (one_of ["."; "!"; "?"; ";"; ","; "034"; "*"]%char))
    (Or (plus (Class (one_of ["."; "!"; "?"; ":"; ";"; ","]%char)))
       group3).

(** The pattern that [regexString] denotes: any run of code units other
    than [. ! ? ;], then [group2] once or more. *)
Definition regex : Pattern :=
  Then (star (Class (none_of ["."; "!"; "?"; ";"]%char))) (plus group2).

(** One step of matching with the [g] flag: the first position from the
    front of [s] at which the pattern matches, with the text matched there
    and the text after it. *)
Fixpoint exec (s : list ascii) : option (list ascii * list ascii) :=
  match head (ends regex s) with
  | Some rest => Some (take (length s - length rest) s, rest)
  | None =>
      match s with
      | [] => None
      | _ :: s' => exec s'
      end
  end.

(** All the matches, front to back. The pattern matches no empty text, so
    each step moves on; [fuel] bounds the number of steps. *)
Fixpoint matches (fuel : nat) (s : list ascii) : list (list ascii) :=
  match fuel with
  | 0 => []
  | S fuel' =>
      match exec s with
      | Some (matched, rest) => matched :: matches fuel' rest
      | None => []
      end
  end.

(** [text.match(regex)]: the matches, or [null] when there is none. *)
Definition String_match (text : list ascii) : option (list (list ascii)) :=
  match matches (S (length text)) text with
  | [] => None
  | ms => Some ms
  end.

Fixpoint startsWith (search s : list ascii) : bool :=
  match search, s with
  | [], _ => true
  | a :: search', b :: s' => Ascii.eqb a b && startsWith search' s'
  | _ :: _, [] => false
  end.

(** [text.replace(search, '')] with a string to search for: its first
    occurrence is removed. *)
Fixpoint String_replace (search s : list ascii) : list ascii :=
  if startsWith search s then drop (length search) s
  else
    match s with
    | [] => []
    | c :: s' => c :: String_replace search s'
    end.

(** [splitByPunctuation(text)] *)
Definition splitByPunctuation (text : string) : list string * string :=
  let chunks := String_match (list_ascii_of_string text) in
  let matches := match chunks with Some found => found | None => [] end in
  let matchedString := concat matches in
  let unmatched := String_replace matchedString (list_ascii_of_string text) in
  (string_of_list_ascii <$> matches, string_of_list_ascii unmatched).

(** [chunks.join('')] on strings. *)
Definition join (chunks : list string) : string := foldr String.append "" chunks.

(** *** The service *)

(** How the utterance handed to [synth.speak] goes: to its [end] event, to
    an [error] event, cut short by [stop()], or not at all because
    [synth.speak] throws. *)
Inductive Outcome :=
| Ended
| Errored (error : string)
| Stopped
| Refused (e : Thrown).

(** The engine and the rest of the world, for one call to [speak]:
    whether the voices get loaded, [synth.speaking] and [synth.pending]
    when the call starts, and how the n-th utterance goes. *)
Record Environment := {
  voicesLoaded : Settled unit;
  speaking : bool;
  pending : bool;
  outcome : nat -> string -> Outcome
}.

(** [synth] is [false] where speech synthesis is missing. [utterances] are
    the texts handed to [synth.speak], oldest first; [cancels] counts the
    calls to [synth.cancel]. *)
Record TextToSpeechService := {
  synth : bool;
  isSpeakingFlag : bool;
  utterances : list string;
  cancels : nat
}.

Definition isSupported (t : TextToSpeechService) : bool := synth t.

Definition isSpeaking (t : TextToSpeechService) : bool := isSpeakingFlag t.

(** [stop()]; [active] is [synth.speaking || synth.pending]. *)
Definition stop (active : bool) (t : TextToSpeechService) : TextToSpeechService :=
  if isSupported t then
    if active || isSpeakingFlag t then
      {| synth := synth t; isSpeakingFlag := false;
         utterances := utterances t; cancels := S (cancels t) |}
    else t
  else t.

(** [_speak(text)] up to the settling of its promise. *)
Definition _speak (env : Environment) (text : string) (t : TextToSpeechService)
    : TextToSpeechService * Settled unit :=
  match outcome env (length (utterances t)) text with
  | Refused e =>
      ({| synth := synth t; isSpeakingFlag := false;
          utterances := utterances t; cancels := cancels t |},
       Rejected (thrown_string (to_String e)))
  | Ended =>
      ({| synth := synth t; isSpeakingFlag := false;
          utterances := utterances t ++ [text]; cancels := cancels t |},
       Resolved ())
  | Errored error =>
      ({| synth := synth t; isSpeakingFlag := false;
          utterances := utterances t ++ [text]; cancels := cancels t |},
       Rejected (thrown_string error))
  | Stopped =>
      ({| synth := synth t; isSpeakingFlag := false;
          utterances := utterances t ++ [text]; cancels := S (cancels t) |},
       Rejected (NonError "Speech interrupted by stop() call."))
  end.

(** [for (const chunk of chunks) await this._speak(chunk)] *)
Fixpoint speak_chunks (env : Environment) (chunks : list string) (t : TextToSpeechService)
    : TextToSpeechService * Settled unit :=
  match chunks with
  | [] => (t, Resolved ())
  | chunk :: rest =>
      match _speak env chunk t with
      | (t', Resolved _) => speak_chunks env rest t'
      | (t', Rejected reason) => (t', Rejected reason)
      end
  end.

(** [speak(text)] *)
Definition speak (env : Environment) (text : string) (t : TextToSpeechService)
    : TextToSpeechService * Settled unit :=
  if isSupported t then
    match voicesLoaded env with
    | Rejected error =>
        (t, Rejected (NonError ("Failed to load voices: " +:+ to_String error)))
    | Resolved _ =>
        let t1 :=
          if isSpeakingFlag t || pending env
          then stop (speaking env || pending env) t
          else t in
        let '(chunks, unmatched) := splitByPunctuation text in
        match speak_chunks env chunks t1 with
        | (t2, Resolved _) =>
            if Nat.ltb 0 (String.length unmatched) then _speak env unmatched t2
            else (t2, Resolved ())
        | (t2, Rejected reason) => (t2, Rejected reason)
        end
    end
  else (t, Rejected (NonError "Speech Synthesis not supported.")).

(** What [speak(text)] sets out to utter: the chunks, then the remainder
    when there is one. *)
Definition planned (text : string) : list string :=
  (splitByPunctuation text).1
  ++ (if Nat.ltb 0 (String.length (splitByPunctuation text).2)
      then [(splitByPunctuation text).2] else []).

(** The reason [_speak] rejects with, by the way the utterance goes. *)
Definition rejection (o : Outcome) : Thrown :=
  match o with
  | Ended => NonError ""
  | Errored error => thrown_string error
  | Stopped => NonError "Speech interrupted by stop() call."
  | Refused e => thrown_string (to_String e)
  end.

(** The code units one of which a text needs for the pattern to match
    anywhere: the marks of the two classes, and the letter d. *)
Definition is_mark (c : ascii) : bool :=
  one_of ["."; "!"; "?"; ";"; ","; "034"; "*"; ":"; "d"]%char c.

(** *** Voices *)

Record SpeechSynthesisVoice := {
  name : string;
  lang : string
}.

Definition targetVoiceNameUK : string := "Google UK English Female".
Definition targetLangFallback : string := "en-US".
Definition targetLangPrefix : string := "en-".

(** [s.startsWith(prefix)] *)
Definition String_startsWith (s prefix : string) : bool :=
  startsWith (list_ascii_of_string prefix) (list_ascii_of_string s).

(** [_selectDefaultVoice()]: the voice it puts in [selectedVoice], from the
    voices loaded. *)
Definition _selectDefaultVoice (voices : list SpeechSynthesisVoice)
    : option SpeechSynthesisVoice :=
  let foundVoice := find (fun voice => String.eqb (name voice) targetVoiceNameUK) voices in
  let foundVoice :=
    match foundVoice with
    | Some v => Some v
    | None => find (fun voice => String.eqb (lang voice) targetLangFallback) voices
    end in
  let foundVoice :=
    match foundVoice with
    | Some v => Some v
    | None => find (fun voice => String_startsWith (lang voice) targetLangPrefix) voices
    end in
  match foundVoice with
  | Some v => Some v
  | None => head voices
  end.

End Tts.

(** ** agent.ts: the orchestrator *)

Module Agent.
Import Js.
Import State.

(** The calls the orchestrator makes on the caption, earcon, speech output
    and speech capture services, and the deliveries of state changes to the
    subscribers of the store. *)
Inductive Effect :=
| showCaption (caption : string) (milliseconds : option N)
| removeCaption
| playEnableEarcon
| playDisableEarcon
| playErrorEarcon
| playReadyEarcon
| startThinkingLoop
| stopThinkingLoop
| stopAllSounds
| ttsService_speak (text : string)
| ttsService_stop
| sttService_abort
| stateChanged (listener : Listener) (newState : Obj).

(** The functions subscribed to the events of a client. *)
Inductive Handler :=
| on_thinking
| on_responseComplete
| on_error.

Definition GREETING_MESSAGE : string := "Hello! Ready to help.".

(** [!!v] *)
Definition truthy (v : Value) : bool :=
  match v with
  | undefined | null => false
  | boolean b => b
  | str s => negb (bool_decide (s = ""))
  | ref _ => true
  end.

Section Orchestrator.
Context {App : Type}.
Variable tools : Tools.Implementations App.

(** A [GeminiClient] object on the heap: its configuration, its state and
    the handlers subscribed to it. Addresses 1 and 2 are those of the two
    buttons; the clients come after. *)
Record ClientObject := {
  config : Gemini.GeminiClientConfig App;
  client : Gemini.Client App;
  listeners : list Handler
}.

(** The module-level variables of agent.ts, the store they share with the
    rest of the agent, the client objects created so far, by address, the
    host application, and the effects so far, oldest first. *)
Record Agent := {
  store : Store;
  agentApiKey : option string;
  agentModelName : option string;
  clients : gmap positive ClientObject;
  application : App;
  effects : list Effect
}.

Definition perform (es : list Effect) (a : Agent) : Agent :=
  {| store := store a; agentApiKey := agentApiKey a; agentModelName := agentModelName a;
     clients := clients a; application := application a; effects := effects a ++ es |}.

Definition set_store (s : Store) (a : Agent) : Agent :=
  {| store := s; agentApiKey := agentApiKey a; agentModelName := agentModelName a;
     clients := clients a; application := application a; effects := effects a |}.

Definition set_clients (cs : gmap positive ClientObject) (a : Agent) : Agent :=
  {| store := store a; agentApiKey := agentApiKey a; agentModelName := agentModelName a;
     clients := cs; application := application a; effects := effects a |}.

(** [updateState(updates)] as the orchestrator sees it: the store changes
    and the subscribers are called. *)
Definition update (updates : list (string * Value)) (a : Agent) : Agent :=
  let deliveries := notifications (list_to_map updates) (store a) in
  perform ((fun d => stateChanged d.1 d.2) <$> deliveries)
    (set_store (updateState (list_to_map updates) (store a)).1 a).

(** [getGeminiClientConfig(apiKey, {}, modelName)] *)
Definition getGeminiClientConfig (key : string) (model : option string)
    : Gemini.GeminiClientConfig App :=
  {| Gemini.toolsConfig :=
       Some {| Gemini.functionDeclarations := Tools.name <$> Tools.functionDeclarations;
               Gemini.handleToolCall := Some (Tools.handleToolCall tools) |};
     Gemini.apiKey := key;
     Gemini.modelName := model |}.

Definition _handleGeminiThinking (a : Agent) : Agent :=
  perform [startThinkingLoop] (update [("isAgentThinking", boolean true)] a).

Definition _handleGeminiError (message : string) (a : Agent) : Agent :=
  perform [playErrorEarcon; showCaption ("Error: " +:+ message) (Some 6000%N)]
    (update [("isAgentThinking", boolean false); ("lastError", str message)]
       (perform [stopThinkingLoop] a)).

(** [_handleGeminiResponse(payload)]; [spoken] is how the promise of
    [ttsService.speak] settles. A text is truthy when it is not empty; an
    error that was not given reads [undefined]. *)
Definition _handleGeminiResponse (spoken : string -> Settled unit)
    (text : option string) (error : option Thrown) (a : Agent) : Agent :=
  let a1 := update [("isAgentThinking", boolean false)] (perform [stopThinkingLoop] a) in
  match text with
  | Some (String c rest) =>
      let payload_text := String c rest in
      let a2 := perform [showCaption ("Agent: " +:+ payload_text) None;
                         ttsService_speak payload_text] a1 in
      match spoken payload_text with
      | Resolved _ => a2
      | Rejected err => update [("lastError", str ("TTS failed: " +:+ to_String err))] a2
      end
  | _ =>
      match error with
      | Some e =>
          if truthy_thrown e
          then _handleGeminiError ("Gemini response error: " +:+ to_String e) a1
          else perform [removeCaption; playReadyEarcon] a1
      | None => perform [removeCaption; playReadyEarcon] a1
      end
  end.

(** What the emitter of a client does with one event: the subscribed
    handlers run, in subscription order. *)
Definition handle (spoken : string -> Settled unit) (e : Gemini.Event)
    (h : Handler) (a : Agent) : Agent :=
  match h, e with
  | on_thinking, Gemini.thinking => _handleGeminiThinking a
  | on_responseComplete, Gemini.responseComplete text error =>
      _handleGeminiResponse spoken text error a
  | on_error, Gemini.error message _ => _handleGeminiError message a
  | _, _ => a
  end.

Definition deliver (spoken : string -> Settled unit) (hs : list Handler)
    (events : list Gemini.Event) (a : Agent) : Agent :=
  foldl (fun acc e => foldl (fun acc' h => handle spoken e h acc') acc hs) a events.

(** What the browser and the network decide during one toggle: whether
    [new GeminiClient(config)] completes, whether [model.startChat] throws,
    how the promises of [ttsService.speak] settle, and what
    [sttService.getIsListening()] answers. *)
Record Environment := {
  construction : Completion;
  startChat : option Thrown;
  spoken : string -> Settled unit;
  listening : bool
}.

(** The [catch] block of the enabling branch. *)
Definition enable_failed (error : Thrown) (a : Agent) : Agent :=
  let a1 := update [("lastError", str ("Gemini init failed: " +:+ to_String error))] a in
  let a2 := perform [showCaption ("Error: " +:+ to_String error) (Some 5000%N);
                     playErrorEarcon] a1 in
  update [("isAgentEnabled", boolean false); ("geminiClient", null)] a2.

(** [_handleAgentToggleClick()] *)
Definition _handleAgentToggleClick (env : Environment) (a : Agent) : Agent :=
  let state := getState (store a) in
  if negb (truthy (prop state "isAgentEnabled")) then
    let a1 := perform [showCaption "Initializing Agent..." (Some 2000%N); playEnableEarcon;
                       showCaption "Initializing Agent..." (Some 2000%N); playEnableEarcon] a in
    match agentApiKey a1 with
    | Some (String c rest) =>
        let apiKey := String c rest in
        match construction env with
        | Throw error => enable_failed error a1
        | Normal =>
            let cfg := getGeminiClientConfig apiKey (agentModelName a1) in
            let address := Pos.of_nat (3 + size (clients a1)) in
            let handlers := [on_thinking; on_responseComplete; on_error] in
            let initialized :=
              Gemini.initializeChat (startChat env) (Gemini.constructor (application a1)) in
            let a2 :=
              set_clients
                (<[address := {| config := cfg; client := initialized;
                                 listeners := handlers |}]> (clients a1)) a1 in
            let a3 := deliver (spoken env) handlers (Gemini.emitted initialized) a2 in
            let a4 := update [("isAgentEnabled", boolean true);
                              ("geminiClient", ref address);
                              ("lastError", null)] a3 in
            let a5 := perform [ttsService_speak GREETING_MESSAGE] a4 in
            match spoken env GREETING_MESSAGE with
            | Resolved _ => a5
            | Rejected error => enable_failed error a5
            end
        end
    | _ =>
        perform [showCaption "Error: API Key missing" (Some 3000%N); playErrorEarcon]
          (update [("lastError", str "API Key missing.")] a1)
    end
  else
    let a1 := perform ([playDisableEarcon; ttsService_stop]
                       ++ (if listening env then [sttService_abort] else [])
                       ++ [stopAllSounds]) a in
    let a2 :=
      match prop state "geminiClient" with
      | ref address =>
          match clients a1 !! address with
          | Some object =>
              set_clients
                (<[address := {| config := config object;
                                 client := Gemini.destroy (client object);
                                 listeners := [] |}]> (clients a1)) a1
          | None => a1
          end
      | _ => a1
      end in
    perform [removeCaption]
      (update [("isAgentEnabled", boolean false);
               ("geminiClient", null);
               ("isMicOpen", boolean false);
               ("isAgentSpeaking", boolean false);
               ("isAgentThinking", boolean false);
               ("lastError", null)] a2).

(** The agent as a successful [initializeAgent(options)] leaves it: the
    buttons are created (at addresses 1 and 2 here) and recorded in the
    state together with [isSupported], [_handleStateChange] (listener 0) is
    subscribed to the store, and the API key and model name are kept. *)
Definition initialized (apiKey : string) (modelName : option string) (app : App) : Agent :=
  let s1 := (updateState
               (list_to_map [("isSupported", boolean true);
                             ("agentButtonElement", ref 1);
                             ("micButtonElement", ref 2);
                             ("lastError", null)]) initial).1 in
  {| store := onStateChange 0 s1;
     agentApiKey := Some apiKey;
     agentModelName := modelName;
     clients := ∅;
     application := app;
     effects := [] |}.

(** The slots of the shared state the claim speaks of. *)
Definition isAgentEnabled (a : Agent) : Value := prop (getState (store a)) "isAgentEnabled".
Definition geminiClient (a : Agent) : Value := prop (getState (store a)) "geminiClient".
Definition lastError (a : Agent) : Value := prop (getState (store a)) "lastError".

(** An enable attempt in which the client is built, [model.startChat]
    throws, and the greeting is spoken to its end. *)
Definition session_open_fails : Environment :=
  {| construction := Normal;
     startChat := Some (ErrorObject "Error" "startChat failed");
     spoken := fun _ => Resolved ();
     listening := false |}.

End Orchestrator.

Arguments Agent App : clear implicits.
Arguments ClientObject App : clear implicits.

(** The state and the heap agree: the agent is enabled exactly when the
    state holds a client, and that client is on the heap with the three
    handlers subscribed; and [isMicOpen] holds a boolean. *)
Definition coherent {App : Type} (a : Agent App) : Prop :=
  ((isAgentEnabled a = boolean false /\ geminiClient a = null)
   \/ (isAgentEnabled a = boolean true
       /\ exists address object,
            geminiClient a = ref address
            /\ clients a !! address = Some object
            /\ listeners object = [on_thinking; on_responseComplete; on_error]))
  /\ exists open, prop (getState (store a)) "isMicOpen" = boolean open.

(** The calls that start or stop the thinking sound. *)
Definition concerns_thinking_loop (e : Effect) : bool :=
  match e with
  | startThinkingLoop | stopThinkingLoop | stopAllSounds => true
  | _ => false
  end.

Definition thinking_loop_calls (es : list Effect) : list Effect :=
  List.filter concerns_thinking_loop es.

Definition is_stateChanged (e : Effect) : bool :=
  match e with
  | stateChanged _ _ => true
  | _ => false
  end.

(** From [a] to [b] the agent has stopped thinking: the flag is down, and
    the last call made on the thinking sound since [a] stops it. *)
Definition quiet_since {App : Type} (a b : Agent App) : Prop :=
  prop (getState (store b)) "isAgentThinking" = boolean false
  /\ exists es,
       effects b = effects a ++ es
       /\ last (thinking_loop_calls es) = Some stopThinkingLoop.

(** The events of a client since it had emitted [before] events. *)
Definition events_since {W : Type} (before : nat) (c : Gemini.Client W) : list Gemini.Event :=
  drop before (Gemini.emitted c).

End Agent.
(** ** services/earconService.ts: the audio cues *)

Module Earcon.
Import Js.

(** An [OscillatorNode], by identity. *)
Definition Oscillator := nat.

(** What an [async] method of the service still has to do when it resumes
    after [await this._getAudioContext()]: play one tone, play a sequence
    of so many tones, or start the thinking sound. [context] tells whether
    the awaited promise gives a context or [null]. *)
Inductive Kind :=
| tone
| toneSequence (tones : nat)
| thinkingLoop.

Record Continuation := {
  kind : Kind;
  context : bool
}.

(** The [onended] callback of an oscillator: that of [_playTone], or that
    of [_playToneSequence] with the set [sourcesInSequence] it closes on. *)
Inductive Callback :=
| tone_ended
| sequence_ended (sequence : nat).

(** The fields of the service, and what it holds of the audio graph: the
    oscillators that sound (started, and neither stopped nor ended), the
    [onended] callbacks attached, the sets [sourcesInSequence] of the
    sequences played so far, by identity, and the methods that wait for
    the context, oldest first. *)
Record EarconService := {
  audioContext : bool;
  isPlayingFlag : bool;
  currentSources : list Oscillator;
  thinkingOscillator : option Oscillator;
  sounding : list Oscillator;
  onended : list (Oscillator * Callback);
  sourcesInSequence : list (list Oscillator);
  oscillators : nat;
  waiting : list Continuation
}.

Definition constructor : EarconService :=
  {| audioContext := false; isPlayingFlag := false; currentSources := [];
     thinkingOscillator := None; sounding := []; onended := [];
     sourcesInSequence := []; oscillators := 0; waiting := [] |}.

Definition isPlaying (s : EarconService) : bool := isPlayingFlag s.

(** [if (this.currentSources.size === 0 && !this.thinkingOscillator)
    this.isPlayingFlag = false] *)
Definition lower_flag (s : EarconService) : EarconService :=
  {| audioContext := audioContext s;
     isPlayingFlag :=
       match currentSources s, thinkingOscillator s with
       | [], None => false
       | _, _ => isPlayingFlag s
       end;
     currentSources := currentSources s; thinkingOscillator := thinkingOscillator s;
     sounding := sounding s; onended := onended s;
     sourcesInSequence := sourcesInSequence s; oscillators := oscillators s;
     waiting := waiting s |}.

(** [stopThinkingLoop()] *)
Definition stopThinkingLoop (s : EarconService) : EarconService :=
  match thinkingOscillator s with
  | Some osc =>
      {| audioContext := audioContext s;
         isPlayingFlag :=
           match currentSources s with [] => false | _ => isPlayingFlag s end;
         currentSources := currentSources s; thinkingOscillator := None;
         sounding := filter (fun o => o <> osc) (sounding s); onended := onended s;
         sourcesInSequence := sourcesInSequence s; oscillators := oscillators s;
         waiting := waiting s |}
  | None => s
  end.

(** [stopAllSounds()]: every tracked oscillator loses its callback and is
    stopped, the set is cleared, the thinking sound is stopped. *)
Definition stopAllSounds (s : EarconService) : EarconService :=
  let tracked := currentSources s in
  lower_flag
    (stopThinkingLoop
       {| audioContext := audioContext s; isPlayingFlag := isPlayingFlag s;
          currentSources := []; thinkingOscillator := thinkingOscillator s;
          sounding := filter (fun o => o ∉ tracked) (sounding s);
          onended := filter (fun entry => entry.1 ∉ tracked) (onended s);
          sourcesInSequence := sourcesInSequence s; oscillators := oscillators s;
          waiting := waiting s |}).

(** [_getAudioContext()] up to the value its promise gives: the context
    is created when there is none; [constructible] tells whether
    [window.AudioContext] exists and can be constructed. *)
Definition _getAudioContext (constructible : bool) (s : EarconService)
    : EarconService * bool :=
  if audioContext s then (s, true)
  else if constructible then
    ({| audioContext := true; isPlayingFlag := isPlayingFlag s;
        currentSources := currentSources s; thinkingOscillator := thinkingOscillator s;
        sounding := sounding s; onended := onended s;
        sourcesInSequence := sourcesInSequence s; oscillators := oscillators s;
        waiting := waiting s |}, true)
  else (s, false).

Definition await (k : Kind) (constructible : bool) (s : EarconService) : EarconService :=
  let '(s1, given) := _getAudioContext constructible s in
  {| audioContext := audioContext s1; isPlayingFlag := isPlayingFlag s1;
     currentSources := currentSources s1; thinkingOscillator := thinkingOscillator s1;
     sounding := sounding s1; onended := onended s1;
     sourcesInSequence := sourcesInSequence s1; oscillators := oscillators s1;
     waiting := waiting s1 ++ [{| kind := k; context := given |}] |}.

(** [_playTone(...)] and [_playToneSequence(tones, ...)] up to their
    [await]. The six earcons are calls of these: [playEnableEarcon] and
    [playDisableEarcon] play one tone, [playMicOnEarcon],
    [playMicOffEarcon] and [playErrorEarcon] a sequence of two,
    [playReadyEarcon] a sequence of three. *)
Definition _playTone (constructible : bool) (s : EarconService) : EarconService :=
  await tone constructible (stopAllSounds s).

Definition _playToneSequence (tones : nat) (constructible : bool) (s : EarconService)
    : EarconService :=
  await (toneSequence tones) constructible (stopAllSounds s).

Definition playEnableEarcon := _playTone.
Definition playDisableEarcon := _playTone.
Definition playMicOnEarcon := _playToneSequence 2.
Definition playMicOffEarcon := _playToneSequence 2.
Definition playErrorEarcon := _playToneSequence 2.
Definition playReadyEarcon := _playToneSequence 3.

(** [startThinkingLoop()] up to its [await]. *)
Definition startThinkingLoop (constructible : bool) (s : EarconService) : EarconService :=
  match thinkingOscillator s with
  | Some _ => s
  | None => await thinkingLoop constructible (stopAllSounds s)
  end.

(** A new oscillator, connected and started. *)
Definition start (callback : option Callback) (track : bool) (s : EarconService)
    : Oscillator * EarconService :=
  let osc := oscillators s in
  (osc,
   {| audioContext := audioContext s; isPlayingFlag := isPlayingFlag s;
      currentSources := if track then currentSources s ++ [osc] else currentSources s;
      thinkingOscillator := thinkingOscillator s;
      sounding := sounding s ++ [osc];
      onended := match callback with
                 | Some c => onended s ++ [(osc, c)]
                 | None => onended s
                 end;
      sourcesInSequence := sourcesInSequence s; oscillators := S osc;
      waiting := waiting s |}).

Definition set_flag (b : bool) (s : EarconService) : EarconService :=
  {| audioContext := audioContext s; isPlayingFlag := b;
     currentSources := currentSources s; thinkingOscillator := thinkingOscillator s;
     sounding := sounding s; onended := onended s;
     sourcesInSequence := sourcesInSequence s; oscillators := oscillators s;
     waiting := waiting s |}.

(** The loop of [_playToneSequence]: one oscillator per tone, each added
    to [currentSources] and to the set of the sequence. *)
Fixpoint play_tones (sequence : nat) (tones : nat) (s : EarconService) : EarconService :=
  match tones with
  | 0 => s
  | S rest =>
      let '(osc, s1) := start (Some (sequence_ended sequence)) true s in
      play_tones sequence rest
        {| audioContext := audioContext s1; isPlayingFlag := isPlayingFlag s1;
           currentSources := currentSources s1; thinkingOscillator := thinkingOscillator s1;
           sounding := sounding s1; onended := onended s1;
           sourcesInSequence := alter (fun set => set ++ [osc]) sequence (sourcesInSequence s1);
           oscillators := oscillators s1; waiting := waiting s1 |}
  end.

(** The rest of a method, after its [await]. The calls on the audio graph
    are taken to complete normally. *)
Definition resume (c : Continuation) (s : EarconService) : EarconService :=
  if context c then
    match kind c with
    | tone => set_flag true (start (Some tone_ended) true s).2
    | toneSequence tones =>
        let sequence := length (sourcesInSequence s) in
        play_tones sequence tones
          {| audioContext := audioContext s; isPlayingFlag := true;
             currentSources := currentSources s; thinkingOscillator := thinkingOscillator s;
             sounding := sounding s; onended := onended s;
             sourcesInSequence := sourcesInSequence s ++ [[]];
             oscillators := oscillators s; waiting := waiting s |}
    | thinkingLoop =>
        let '(osc, s1) := start None false (set_flag true s) in
        {| audioContext := audioContext s1; isPlayingFlag := isPlayingFlag s1;
           currentSources := currentSources s1; thinkingOscillator := Some osc;
           sounding := sounding s1; onended := onended s1;
           sourcesInSequence := sourcesInSequence s1; oscillators := oscillators s1;
           waiting := waiting s1 |}
    end
  else s.

(** The [onended] callbacks. *)
Definition ended (osc : Oscillator) (callback : Callback) (s : EarconService)
    : EarconService :=
  let untracked :=
    {| audioContext := audioContext s; isPlayingFlag := isPlayingFlag s;
       currentSources := filter (fun o => o <> osc) (currentSources s);
       thinkingOscillator := thinkingOscillator s;
       sounding := sounding s; onended := onended s;
       sourcesInSequence :=
         match callback with
         | tone_ended => sourcesInSequence s
         | sequence_ended sequence =>
             alter (fun set => filter (fun o => o <> osc) set) sequence (sourcesInSequence s)
         end;
       oscillators := oscillators s; waiting := waiting s |} in
  match callback with
  | tone_ended => lower_flag untracked
  | sequence_ended sequence =>
      match sourcesInSequence untracked !! sequence with
      | Some [] => lower_flag untracked
      | _ => untracked
      end
  end.

(** What happens to the service: the calls of its user; the oldest
    waiting method resumes; an oscillator that sounds comes to its end
    (one that was given a stop time: the oscillator of the thinking sound
    has none, and no callback). *)
Inductive Input :=
| call_playTone (constructible : bool)
| call_playToneSequence (tones : nat) (constructible : bool)
| call_startThinkingLoop (constructible : bool)
| call_stopThinkingLoop
| call_stopAllSounds
| resumes
| ends (osc : Oscillator).

Definition step (s : EarconService) (i : Input) : EarconService :=
  match i with
  | call_playTone constructible => _playTone constructible s
  | call_playToneSequence tones constructible => _playToneSequence tones constructible s
  | call_startThinkingLoop constructible => startThinkingLoop constructible s
  | call_stopThinkingLoop => stopThinkingLoop s
  | call_stopAllSounds => stopAllSounds s
  | resumes =>
      match waiting s with
      | c :: rest =>
          resume c
            {| audioContext := audioContext s; isPlayingFlag := isPlayingFlag s;
               currentSources := currentSources s;
               thinkingOscillator := thinkingOscillator s;
               sounding := sounding s; onended := onended s;
               sourcesInSequence := sourcesInSequence s; oscillators := oscillators s;
               waiting := rest |}
      | [] => s
      end
  | ends osc =>
      match list_find (fun entry => entry.1 = osc) (onended s) with
      | Some (_, (_, callback)) =>
          if bool_decide (osc ∈ sounding s) then
            ended osc callback
              {| audioContext := audioContext s; isPlayingFlag := isPlayingFlag s;
                 currentSources := currentSources s;
                 thinkingOscillator := thinkingOscillator s;
                 sounding := filter (fun o => o <> osc) (sounding s);
                 onended := onended s;
                 sourcesInSequence := sourcesInSequence s; oscillators := oscillators s;
                 waiting := waiting s |}
          else s
      | None => s
      end
  end.

Definition run (inputs : list Input) (s : EarconService) : EarconService :=
  foldl step s inputs.

(** The number of oscillators a waiting method starts when it resumes
    with a context. *)
Definition started (k : Kind) : nat :=
  match k with
  | tone => 1
  | toneSequence tones => tones
  | thinkingLoop => 1
  end.

(** Every oscillator that sounds is one the service can still stop. *)
Definition tracked (s : EarconService) : Prop :=
  forall osc, osc ∈ sounding s -> osc ∈ currentSources s \/ thinkingOscillator s = Some osc.

(** The number of oscillators an earcon starts, for the calls that play
    one on a browser that has an audio context to give. *)
Definition earcon (i : Input) : option nat :=
  match i with
  | call_playTone true => Some 1
  | call_playToneSequence tones true => Some tones
  | _ => None
  end.

End Earcon.

(** ** The host application: data/recipes.js, state/index.js, api.js and
    ui/theme.js *)

Module App.
Import Js.

(** [String.prototype.toLowerCase] on 8-bit code units: the letters A to Z
    and the capital letters of the Latin-1 supplement. *)
Definition toLowerCase_unit (c : ascii) : ascii :=
  let n := nat_of_ascii c in
  if (Nat.leb 65 n && Nat.leb n 90)
     || (Nat.leb 192 n && Nat.leb n 214)
     || (Nat.leb 216 n && Nat.leb n 222)
  then ascii_of_nat (n + 32)
  else c.

Definition toLowerCase (s : list ascii) : list ascii := toLowerCase_unit <$> s.

(** [s.includes(search)] *)
Fixpoint includes (s search : list ascii) : bool :=
  Tts.startsWith search s
  || match s with
     | [] => false
     | _ :: s' => includes s' search
     end.

(** An entry of [recipes]. Identifiers are whole numbers. *)
Record Recipe := {
  id : Z;
  title : list ascii;
  description : list ascii;
  ingredients : list (list ascii);
  instructions : list (list ascii);
  food_country : list ascii;
  keywords : list (list ascii)
}.

Section Data.
(** The table of data/recipes.js. *)
Variable recipes : list Recipe.

(** [searchRecipes(query)] of api.js *)
Definition searchRecipes (query : list ascii) : list Recipe :=
  let lowerCaseQuery := toLowerCase query in
  List.filter
    (fun recipe =>
       let inTitle := includes (toLowerCase (title recipe)) lowerCaseQuery in
       let inDescription := includes (toLowerCase (description recipe)) lowerCaseQuery in
       let inIngredients :=
         existsb (fun ing => includes (toLowerCase ing) lowerCaseQuery) (ingredients recipe) in
       let inFoodCountry := includes (toLowerCase (food_country recipe)) lowerCaseQuery in
       let inKeywords :=
         existsb (fun key => includes (toLowerCase key) lowerCaseQuery) (keywords recipe) in
       inTitle || inDescription || inIngredients || inFoodCountry || inKeywords)
    recipes.

(** [getRecipe(recipeId)] of api.js *)
Definition getRecipe (recipeId : Z) : option Recipe :=
  find (fun r => Z.eqb (id r) recipeId) recipes.

(** The tool [list_favorites] of tools.ts, given the favourites: the
    identifier and title of each favourite recipe. *)
Definition list_favorites (favorites : list Z) : list (Z * list ascii) :=
  (fun r => (id r, title r))
    <$> List.filter (fun r => bool_decide (id r ∈ favorites)) recipes.

End Data.

(** [favorites] of state/index.js with the entry of [localStorage] that
    mirrors it ([None] while nothing has been stored). *)
Record Favorites := {
  favorites : list Z;
  recipeFavorites : option (list Z)
}.

Definition addFavorite (recipeId : Z) (f : Favorites) : Favorites :=
  if negb (bool_decide (recipeId ∈ favorites f)) then
    let pushed := favorites f ++ [recipeId] in
    {| favorites := pushed; recipeFavorites := Some pushed |}
  else f.

Definition removeFavorite (recipeId : Z) (f : Favorites) : Favorites :=
  let kept := List.filter (fun i => negb (Z.eqb i recipeId)) (favorites f) in
  {| favorites := kept; recipeFavorites := Some kept |}.

(** [markAsFavorite(recipeId, isFavorite)] of api.js *)
Definition markAsFavorite (recipeId : Z) (isFavorite : bool) (f : Favorites) : Favorites :=
  if isFavorite then addFavorite recipeId f else removeFavorite recipeId f.

(** The part of the page the theme lives in: the [dark] class of the
    document element, the [theme] entry of [localStorage], and whether
    each of the two icons carries the [hidden] class. *)
Record Theme := {
  dark : bool;
  theme : option string;
  sun_hidden : bool;
  moon_hidden : bool
}.

(** [toggleTheme()] of ui/theme.js, with [updateThemeIcons]. *)
Definition toggleTheme (t : Theme) : Theme :=
  let isDarkMode := negb (dark t) in
  {| dark := isDarkMode;
     theme := Some (if isDarkMode then "dark" else "light");
     sun_hidden := isDarkMode;
     moon_hidden := negb isDarkMode |}.

(** [setDarkMode(isDark)] of api.js *)
Definition setDarkMode (isDark : bool) (t : Theme) : Theme :=
  let isCurrentlyDark := dark t in
  if negb (Bool.eqb isDark isCurrentlyDark) then toggleTheme t else t.

End App.
(** ** agent.ts: the microphone, the keyboard and what is pending *)

Module Controls.
Import Js State.

(** A [Shortcut] of the options; the three modifiers are optional. *)
Record Shortcut := {
  key : string;
  shiftKey : option bool;
  ctrlKey : option bool;
  altKey : option bool
}.

(** What the listeners read of a [KeyboardEvent]. *)
Record KeyboardEvent := {
  event_key : string;
  event_shiftKey : bool;
  event_ctrlKey : bool;
  event_altKey : bool;
  event_repeat : bool
}.

(** [s.toLowerCase()] *)
Definition toLowerCase (s : string) : list ascii :=
  App.toLowerCase (list_ascii_of_string s).

(** [matches(shortcut)] of the [keydown] listener; [!!] of a modifier
    that was not given is [false]. *)
Definition matches_keydown (event : KeyboardEvent) (shortcut : Shortcut) : bool :=
  bool_decide (toLowerCase (event_key event) = toLowerCase (key shortcut))
  && Bool.eqb (event_shiftKey event) (default false (shiftKey shortcut))
  && Bool.eqb (event_ctrlKey event) (default false (ctrlKey shortcut))
  && Bool.eqb (event_altKey event) (default false (altKey shortcut)).

(** [matches(shortcut)] of the [keyup] listener: the key alone. *)
Definition matches_keyup (event : KeyboardEvent) (shortcut : Shortcut) : bool :=
  bool_decide (toLowerCase (event_key event) = toLowerCase (key shortcut)).

Definition MIC_RELEASE_DELAY_MS : N := 2000.

(** What the handlers of this part do to the outside, in order: the
    effects of the orchestrator proper, and the calls that only the
    microphone and the keyboard make. *)
Inductive Call :=
| effect (e : Agent.Effect)
| playMicOnEarcon
| playMicOffEarcon
| sttService_start
| sttService_stop
| geminiClient_sendMessage (client : positive) (transcript : string)
| setTimeout (id : positive) (milliseconds : N)
| clearTimeout (id : positive)
| preventDefault.

Section Orchestrator.
Context {App : Type}.
Variable tools : Tools.Implementations App.

(** The module-level variables of agent.ts with the speech capture
    service, and what is pending in the browser on their behalf: the
    timers set with [window.setTimeout] and neither due nor cleared; the
    number of enable attempts that wait for the greeting to be spoken;
    the promises of [sttService.stop()] on which [_stopRecording] has
    registered its callbacks, each with the [geminiClient] that
    [_stopRecording] read from the state. The effects of [agent] are moved
    to [calls] as they are made. *)
Record Orchestrator := {
  agent : Agent.Agent App;
  sttService : Stt.SpeechToTextService;
  shortcuts : Shortcut * Shortcut;
  micStopTimeoutId : option positive;
  timers : list positive;
  timeouts : positive;
  greetings : nat;
  stops : list (Stt.Returned * Value);
  calls : list Call
}.

Definition toggleAgent (s : Orchestrator) : Shortcut := (shortcuts s).1.
Definition toggleMic (s : Orchestrator) : Shortcut := (shortcuts s).2.

Definition set_agent (a : Agent.Agent App) (s : Orchestrator) : Orchestrator :=
  {| agent := a; sttService := sttService s; shortcuts := shortcuts s;
     micStopTimeoutId := micStopTimeoutId s; timers := timers s; timeouts := timeouts s;
     greetings := greetings s; stops := stops s; calls := calls s |}.

Definition set_sttService (stt : Stt.SpeechToTextService) (s : Orchestrator) : Orchestrator :=
  {| agent := agent s; sttService := stt; shortcuts := shortcuts s;
     micStopTimeoutId := micStopTimeoutId s; timers := timers s; timeouts := timeouts s;
     greetings := greetings s; stops := stops s; calls := calls s |}.

Definition set_greetings (n : nat) (s : Orchestrator) : Orchestrator :=
  {| agent := agent s; sttService := sttService s; shortcuts := shortcuts s;
     micStopTimeoutId := micStopTimeoutId s; timers := timers s; timeouts := timeouts s;
     greetings := n; stops := stops s; calls := calls s |}.

Definition set_stops (waiting : list (Stt.Returned * Value)) (s : Orchestrator) : Orchestrator :=
  {| agent := agent s; sttService := sttService s; shortcuts := shortcuts s;
     micStopTimeoutId := micStopTimeoutId s; timers := timers s; timeouts := timeouts s;
     greetings := greetings s; stops := waiting; calls := calls s |}.

Definition log (cs : list Call) (s : Orchestrator) : Orchestrator :=
  {| agent := agent s; sttService := sttService s; shortcuts := shortcuts s;
     micStopTimeoutId := micStopTimeoutId s; timers := timers s; timeouts := timeouts s;
     greetings := greetings s; stops := stops s; calls := calls s ++ cs |}.

(** A step of the orchestrator proper: its effects join the calls. *)
Definition forget (a : Agent.Agent App) : Agent.Agent App :=
  {| Agent.store := Agent.store a; Agent.agentApiKey := Agent.agentApiKey a;
     Agent.agentModelName := Agent.agentModelName a; Agent.clients := Agent.clients a;
     Agent.application := Agent.application a; Agent.effects := [] |}.

Definition lift (f : Agent.Agent App -> Agent.Agent App) (s : Orchestrator) : Orchestrator :=
  let a := f (agent s) in
  log (effect <$> Agent.effects a) (set_agent (forget a) s).

(** [clearTimeout(id)] *)
Definition clear (id : positive) (s : Orchestrator) : Orchestrator :=
  log [clearTimeout id]
    {| agent := agent s; sttService := sttService s; shortcuts := shortcuts s;
       micStopTimeoutId := micStopTimeoutId s;
       timers := filter (fun t => t <> id) (timers s); timeouts := timeouts s;
       greetings := greetings s; stops := stops s; calls := calls s |}.

Definition set_micStopTimeoutId (id : option positive) (s : Orchestrator) : Orchestrator :=
  {| agent := agent s; sttService := sttService s; shortcuts := shortcuts s;
     micStopTimeoutId := id; timers := timers s; timeouts := timeouts s;
     greetings := greetings s; stops := stops s; calls := calls s |}.

(** [micStopTimeoutId = window.setTimeout(() => _stopRecording(), ms)] *)
Definition arm (milliseconds : N) (s : Orchestrator) : Orchestrator :=
  let id := timeouts s in
  log [setTimeout id milliseconds]
    {| agent := agent s; sttService := sttService s; shortcuts := shortcuts s;
       micStopTimeoutId := Some id;
       timers := timers s ++ [id]; timeouts := Pos.succ id;
       greetings := greetings s; stops := stops s; calls := calls s |}.

(** The slots the handlers destructure from [getState()]. *)
Definition slot (name : string) (s : Orchestrator) : Value :=
  prop (getState (Agent.store (agent s))) name.

Definition isAgentEnabled (s : Orchestrator) : bool := Agent.truthy (slot "isAgentEnabled" s).
Definition isMicOpen (s : Orchestrator) : bool := Agent.truthy (slot "isMicOpen" s).

(** [_startRecording()]; when [sttService.start()] throws, the state
    update after it is not reached. *)
Definition _startRecording (started : Completion) (s : Orchestrator) : Orchestrator :=
  if negb (isAgentEnabled s) || isMicOpen s then s
  else
    let s1 := log [playMicOnEarcon; effect Agent.ttsService_stop; sttService_start] s in
    match Stt.start started (sttService s1) with
    | (stt, Normal) =>
        lift (Agent.update [("isMicOpen", boolean true)]) (set_sttService stt s1)
    | (stt, Throw _) => set_sttService stt s1
    end.

(** [_stopRecording()] up to the registration of its callbacks on the
    promise of [sttService.stop()]. *)
Definition _stopRecording (stopped : Completion) (s : Orchestrator) : Orchestrator :=
  if negb (isAgentEnabled s) || negb (isMicOpen s) then s
  else
    let geminiClient := slot "geminiClient" s in
    let s1 := lift (Agent.update [("isMicOpen", boolean false)]) (log [playMicOffEarcon] s) in
    let '(stt, returned) := Stt.stop stopped (sttService s1) in
    set_stops (stops s1 ++ [(returned, geminiClient)])
      (set_sttService stt (log [sttService_stop] s1)).

(** The [catch] callback of [_stopRecording]. *)
Definition transcript_failed (error : Thrown) (s : Orchestrator) : Orchestrator :=
  lift (fun a =>
          Agent.perform [Agent.showCaption ("Error: " +:+ to_String error) (Some 10000%N);
                         Agent.playErrorEarcon]
            (Agent.update [("lastError", str ("STT Error: " +:+ to_String error))] a)) s.

(** The callbacks of [_stopRecording], once the promise has settled.
    [geminiClient] is the value read before the promise was awaited; a
    value that is truthy and no client has no [sendMessage] to call, and
    the [TypeError] goes to the [catch] callback. *)
Definition transcript_settled (geminiClient : Value) (how : Settled string)
    (s : Orchestrator) : Orchestrator :=
  match how with
  | Resolved transcript =>
      if negb (bool_decide (transcript = "")) && Agent.truthy geminiClient then
        let s1 := log [effect (Agent.showCaption ("You said: " +:+ transcript)
                                 (Some 15000%N))] s in
        match geminiClient with
        | ref client => log [geminiClient_sendMessage client transcript] s1
        | _ =>
            transcript_failed
              (ErrorObject "TypeError" "geminiClient.sendMessage is not a function") s1
        end
      else if bool_decide (transcript = "") then
        log [effect (Agent.showCaption "Didn't catch that." (Some 10000%N))] s
      else s
  | Rejected error => transcript_failed error s
  end.

(** How a promise of [sttService.stop()] has settled, if it has. *)
Definition outcome (stt : Stt.SpeechToTextService) (returned : Stt.Returned)
    : option (Settled string) :=
  match returned with
  | Stt.Immediately how => Some how
  | Stt.Pending p => Stt.settlement p stt
  end.

(** The reactions that run when a handler has returned: the callbacks of
    the promises that have settled, in the order of their registration. *)
Definition reactions (s : Orchestrator) : Orchestrator :=
  let ready :=
    omap (fun waiting : Stt.Returned * Value =>
            (fun how => (waiting.2, how)) <$> outcome (sttService s) waiting.1) (stops s) in
  let pending :=
    filter (fun waiting : Stt.Returned * Value => outcome (sttService s) waiting.1 = None)
      (stops s) in
  foldl (fun acc r => transcript_settled r.1 r.2 acc) (set_stops pending s) ready.

(** [_handleMicPress(event)]; [touchstart] is [event.type === 'touchstart']. *)
Definition _handleMicPress (touchstart : bool) (started : Completion) (s : Orchestrator)
    : Orchestrator :=
  let s1 := if touchstart then log [preventDefault] s else s in
  if negb (isAgentEnabled s1) || isMicOpen s1 then s1
  else _startRecording started s1.

(** [_handleMicRelease()] *)
Definition _handleMicRelease (stopped : Completion) (s : Orchestrator) : Orchestrator :=
  let s1 := if isAgentEnabled s && isMicOpen s then _stopRecording stopped s else s in
  match micStopTimeoutId s1 with
  | Some id => set_micStopTimeoutId None (clear id s1)
  | None => s1
  end.

(** [_handleAgentToggleClick()] up to its [await]: the enabling branch
    stops at [await ttsService.speak(GREETING_MESSAGE)], the others run
    to their end. [sttService.getIsListening()] and [sttService.abort()]
    are those of the service. *)
Definition _handleAgentToggleClick (construction : Completion) (startChat : option Thrown)
    (aborted : Completion) (s : Orchestrator) : Orchestrator :=
  let listening := Stt.getIsListening (sttService s) in
  let env := {| Agent.construction := construction;
                Agent.startChat := startChat;
                Agent.spoken := fun _ => Resolved ();
                Agent.listening := listening |} in
  let s1 := lift (Agent._handleAgentToggleClick tools env) s in
  if isAgentEnabled s then
    if listening then set_sttService (Stt.abort aborted (sttService s1)) s1 else s1
  else
    match Agent.agentApiKey (agent s), construction with
    | Some (String _ _), Normal => set_greetings (S (greetings s1)) s1
    | _, _ => s1
    end.

(** The rest of [_handleAgentToggleClick()], when the promise of the
    greeting settles: nothing more when it resolves, the [catch] block
    when it rejects. *)
Definition greeting_settled (how : Settled unit) (s : Orchestrator) : Orchestrator :=
  match greetings s with
  | 0 => s
  | S n =>
      let s1 := set_greetings n s in
      match how with
      | Resolved _ => s1
      | Rejected error => lift (Agent.enable_failed error) s1
      end
  end.

(** [keydownListener(event)]; [speaking] is [ttsService.isSpeaking()]. *)
Definition keydownListener (event : KeyboardEvent) (speaking : bool)
    (construction : Completion) (startChat : option Thrown) (aborted started : Completion)
    (s : Orchestrator) : Orchestrator :=
  let s1 :=
    if bool_decide (event_key event = "Escape") && speaking
    then log [preventDefault; effect Agent.ttsService_stop;
              effect (Agent.showCaption "Speech stopped" (Some 1000%N))] s
    else s in
  let s2 :=
    if matches_keydown event (toggleAgent s1) && negb (event_repeat event)
    then _handleAgentToggleClick construction startChat aborted (log [preventDefault] s1)
    else s1 in
  if matches_keydown event (toggleMic s2) && negb (event_repeat event) then
    if isAgentEnabled s2 && negb (isMicOpen s2) then
      let s3 := log [preventDefault] s2 in
      let s4 :=
        match micStopTimeoutId s3 with
        | Some id => set_micStopTimeoutId None (clear id s3)
        | None => s3
        end in
      _startRecording started s4
    else s2
  else s2.

(** [keyupListener(event)] *)
Definition keyupListener (event : KeyboardEvent) (s : Orchestrator) : Orchestrator :=
  if matches_keyup event (toggleMic s) then
    if isAgentEnabled s && isMicOpen s then
      let s1 := log [preventDefault] s in
      let s2 :=
        match micStopTimeoutId s1 with
        | Some id => clear id s1
        | None => s1
        end in
      arm MIC_RELEASE_DELAY_MS s2
    else s
  else s.

(** The events of the recognizer. *)
Inductive Recognizer :=
| onstart
| onresult (event : Stt.SpeechRecognitionEvent)
| onerror (error : string)
| onend.

Definition fires (r : Recognizer) : Stt.Action :=
  match r with
  | onstart => Stt.fire_start
  | onresult event => Stt.fire_result event
  | onerror error => Stt.fire_error error
  | onend => Stt.fire_end
  end.

(** What the user, the browser and the clients make happen. A timer comes
    due only while it is set; an event of a client reaches the handlers
    subscribed to that client, and the promise of the speech they start
    settles as [spoken] says. *)
Inductive Input :=
| click_agentButton (construction : Completion) (startChat : option Thrown)
    (aborted : Completion)
| greeting (how : Settled unit)
| press_micButton (touchstart : bool) (started : Completion)
| release_micButton (stopped : Completion)
| keydown (event : KeyboardEvent) (speaking : bool)
    (construction : Completion) (startChat : option Thrown) (aborted started : Completion)
| keyup (event : KeyboardEvent)
| timer_due (id : positive) (stopped : Completion)
| recognizer (event : Recognizer)
| client_event (client : positive) (event : Gemini.Event) (spoken : string -> Settled unit).

Definition handler (s : Orchestrator) (i : Input) : Orchestrator :=
  match i with
  | click_agentButton construction startChat aborted =>
      _handleAgentToggleClick construction startChat aborted s
  | greeting how => greeting_settled how s
  | press_micButton touchstart started => _handleMicPress touchstart started s
  | release_micButton stopped => _handleMicRelease stopped s
  | keydown event speaking construction startChat aborted started =>
      keydownListener event speaking construction startChat aborted started s
  | keyup event => keyupListener event s
  | timer_due id stopped =>
      if bool_decide (id ∈ timers s) then
        _stopRecording stopped
          {| agent := agent s; sttService := sttService s; shortcuts := shortcuts s;
             micStopTimeoutId := micStopTimeoutId s;
             timers := filter (fun t => t <> id) (timers s); timeouts := timeouts s;
             greetings := greetings s; stops := stops s; calls := calls s |}
      else s
  | recognizer event => set_sttService (Stt.step (sttService s) (fires event)) s
  | client_event client event spoken =>
      match Agent.clients (agent s) !! client with
      | Some object => lift (Agent.deliver spoken (Agent.listeners object) [event]) s
      | None => s
      end
  end.

(** One turn of the event loop: a handler, then the reactions. *)
Definition step (s : Orchestrator) (i : Input) : Orchestrator := reactions (handler s i).

Definition run (inputs : list Input) (s : Orchestrator) : Orchestrator := foldl step s inputs.

(** The orchestrator as a successful [initializeAgent(options)] leaves it,
    on a browser that has speech recognition. *)
Definition initialized (apiKey : string) (modelName : option string) (language : string)
    (keys : Shortcut * Shortcut) (app : App) : Orchestrator :=
  {| agent := Agent.initialized apiKey modelName app;
     sttService := Stt.constructor true Normal language;
     shortcuts := keys;
     micStopTimeoutId := None;
     timers := [];
     timeouts := 1;
     greetings := 0;
     stops := [];
     calls := [] |}.

(** The default shortcuts. *)
Definition default_shortcuts : Shortcut * Shortcut :=
  ({| key := "Enter"; shiftKey := None; ctrlKey := None; altKey := None |},
   {| key := "A"; shiftKey := None; ctrlKey := None; altKey := None |}).

(** [AgentInitOptions]; [userPreferences] is not read. *)
Record AgentInitOptions := {
  targetElementSelector : string;
  apiKey : string;
  language : option string;
  modelName : option string;
  agentButtonText : option string;
  shortcuts_given : option (option Shortcut * option Shortcut)
}.

(** What [document.querySelector] answers. *)
Inductive Selected :=
| element
| no_element
| invalid_selector (e : Thrown).

(** What [initializeAgent] asks of the browser: the element under the
    selector, the [SpeechRecognition] constructor (whether there is one
    and whether calling it completes), and whether there is a
    [speechSynthesis]. *)
Record Browser := {
  querySelector : string -> Selected;
  recognition_available : bool;
  recognition_construction : Completion;
  speechSynthesis : bool
}.

(** [initializeAgent(options)]: what it returns, or throws, and what it
    leaves: the orchestrator when it returns [true], the store when it
    returns [false]. The loading of the voices, which it starts without
    waiting for it, is not followed here. *)
Inductive Initialization :=
| returns_true (o : Orchestrator)
| returns_false (store : Store)
| throws (e : Thrown).

(** [a || b] on an optional string. *)
Definition or_else (a : option string) (b : string) : string :=
  match a with
  | Some (String c rest) => String c rest
  | _ => b
  end.

Definition initializeAgent (options : AgentInitOptions) (browser : Browser) (app : App)
    (store : Store) : Initialization :=
  let failed (message : string) :=
    returns_false
      (updateState (list_to_map [("isSupported", boolean false); ("lastError", str message)])
         store).1 in
  if bool_decide (targetElementSelector options = "") || bool_decide (apiKey options = "")
  then failed "Initialization options missing."
  else
    match querySelector browser (targetElementSelector options) with
    | invalid_selector e => throws e
    | no_element => failed "Target element not found."
    | element =>
        let keys :=
          (default default_shortcuts.1 (shortcuts_given options ≫= fst),
           default default_shortcuts.2 (shortcuts_given options ≫= snd)) in
        let stt := Stt.constructor (recognition_available browser)
                     (recognition_construction browser)
                     (or_else (language options) "en-US") in
        if negb (Stt.isSupported stt) || negb (speechSynthesis browser)
        then failed "Browser does not support required Speech APIs."
        else
          let updates :=
            list_to_map [("isSupported", boolean true);
                         ("agentButtonElement", ref 1);
                         ("micButtonElement", ref 2);
                         ("lastError", null)] in
          returns_true
            {| agent :=
                 {| Agent.store := onStateChange 0 (updateState updates store).1;
                    Agent.agentApiKey := Some (apiKey options);
                    Agent.agentModelName := modelName options;
                    Agent.clients := ∅;
                    Agent.application := app;
                    Agent.effects := [] |};
               sttService := stt;
               shortcuts := keys;
               micStopTimeoutId := None;
               timers := [];
               timeouts := 1;
               greetings := 0;
               stops := [];
               calls :=
                 (fun d => effect (Agent.stateChanged d.1 d.2))
                   <$> notifications updates store |}
    end.

(** What holds of the orchestrator at all times: the agent is enabled
    exactly when the state holds a client, and that client is on the heap
    with the three handlers subscribed; at most one timer is set, the one
    [micStopTimeoutId] remembers; the bookkeeping of the speech capture
    service is consistent. *)
Record orderly (s : Orchestrator) : Prop := {
  effects_moved : Agent.effects (agent s) = [];
  agent_coherent : Agent.coherent (agent s);
  one_timer : timers s = [] \/ exists id, timers s = [id] /\ micStopTimeoutId s = Some id;
  capture_consistent : Stt.consistent (sttService s)
}.


End Orchestrator.

Arguments Orchestrator App : clear implicits.

End Controls.
(** ** services/captionsService.ts: the caption on the screen *)

Module Captions.
Import Js.

Section Numbers.
(** JavaScript numbers (pointer coordinates, positions in the viewport) are
    kept abstract: the service only adds and subtracts them and prints
    them in a length, [`${n}px`], [print n] being [`${n}`]. *)
Context {Number : Type} (zero : Number) (plus minus : Number -> Number -> Number)
  (print : Number -> string).

Definition px (n : Number) : string := print n +:+ "px".

(** A caption element: its text, the three style properties the service
    changes after creating it (the others are constants of [initialStyle]),
    and whether its [mousedown] and [touchstart] listeners are attached. *)
Record Element := {
  textContent : string;
  left : string;
  top : string;
  transform : string;
  listens : bool
}.

(** The fields of the service, and what it holds of the page: the elements
    it has created, by identity; the captions that are children of
    [document.body], in order; the timers set and neither fired nor
    cleared, each with the element its callback captured; and whether the
    handlers of the drag are attached to the document. *)
Record CaptionsService := {
  currentCaptionElement : option nat;
  currentCaptionTimeoutId : option nat;
  isDragging : bool;
  startX : Number;
  startY : Number;
  initialLeft : Number;
  initialTop : Number;
  persistedLeft : option string;
  persistedTop : option string;
  elements : list Element;
  body : list nat;
  timers : list (nat * nat);
  timeouts : nat;
  dragListeners : bool
}.

Definition constructor : CaptionsService :=
  {| currentCaptionElement := None;
     currentCaptionTimeoutId := None;
     isDragging := false;
     startX := zero; startY := zero; initialLeft := zero; initialTop := zero;
     persistedLeft := None; persistedTop := None;
     elements := []; body := []; timers := []; timeouts := 0;
     dragListeners := false |}.

(** A change to the style of an element. *)
Definition restyle (l t f : string) (e : Element) : Element :=
  {| textContent := textContent e; left := l; top := t; transform := f;
     listens := listens e |}.

Definition unlisten (e : Element) : Element :=
  {| textContent := textContent e; left := left e; top := top e;
     transform := transform e; listens := false |}.

(** [removeCaption()] *)
Definition removeCaption (s : CaptionsService) : CaptionsService :=
  let timers1 :=
    match currentCaptionTimeoutId s with
    | Some t => filter (fun entry => entry.1 <> t) (timers s)
    | None => timers s
    end in
  let '(elements1, body1) :=
    match currentCaptionElement s with
    | Some el =>
        (alter unlisten el (elements s), filter (fun child => child <> el) (body s))
    | None => (elements s, body s)
    end in
  {| currentCaptionElement := None;
     currentCaptionTimeoutId := None;
     isDragging := false;
     startX := startX s; startY := startY s;
     initialLeft := initialLeft s; initialTop := initialTop s;
     persistedLeft := persistedLeft s; persistedTop := persistedTop s;
     elements := elements1; body := body1; timers := timers1; timeouts := timeouts s;
     dragListeners := false |}.

(** A string in a condition: the empty string and [null] are falsy. *)
Definition given (v : option string) : bool :=
  match v with
  | Some (String _ _) => true
  | _ => false
  end.

(** Whether [showCaption] sets a timer: [milliseconds && milliseconds > 0]. *)
Definition timed (milliseconds : option N) : bool :=
  match milliseconds with
  | Some ms => N.ltb 0 ms
  | None => false
  end.

(** [showCaption(caption, milliseconds)] *)
Definition showCaption (caption : string) (milliseconds : option N) (s : CaptionsService)
    : CaptionsService :=
  let s1 := removeCaption s in
  let captionElement := length (elements s1) in
  let styled :=
    if given (persistedLeft s1) && given (persistedTop s1)
    then {| textContent := caption;
            left := default "" (persistedLeft s1);
            top := default "" (persistedTop s1);
            transform := "none"; listens := true |}
    else {| textContent := caption; left := "50%"; top := "5%";
            transform := "translateX(-50%)"; listens := true |} in
  {| currentCaptionElement := Some captionElement;
     currentCaptionTimeoutId :=
       if timed milliseconds then Some (timeouts s1) else currentCaptionTimeoutId s1;
     isDragging := isDragging s1;
     startX := startX s1; startY := startY s1;
     initialLeft := initialLeft s1; initialTop := initialTop s1;
     persistedLeft := persistedLeft s1; persistedTop := persistedTop s1;
     elements := elements s1 ++ [styled];
     body := body s1 ++ [captionElement];
     timers :=
       if timed milliseconds then timers s1 ++ [(timeouts s1, captionElement)]
       else timers s1;
     timeouts := if timed milliseconds then S (timeouts s1) else timeouts s1;
     dragListeners := dragListeners s1 |}.

(** The callback of the timer set by [showCaption], for the element it
    captured. *)
Definition timeout_callback (captionElement : nat) (s : CaptionsService) : CaptionsService :=
  if bool_decide (currentCaptionElement s = Some captionElement)
  then removeCaption s
  else s.

(** A mouse or touch event as the handlers read it: the coordinates of the
    pointer ([clientX], [clientY], of the first touch for a touch event). *)
Record Pointer := {
  clientX : Number;
  clientY : Number
}.

(** [_onMouseDown(event)]; [rect] is what [getBoundingClientRect()]
    answers for the caption. *)
Definition _onMouseDown (event : Pointer) (rect : Number * Number) (s : CaptionsService)
    : CaptionsService :=
  match currentCaptionElement s with
  | None => s
  | Some el =>
      {| currentCaptionElement := currentCaptionElement s;
         currentCaptionTimeoutId := currentCaptionTimeoutId s;
         isDragging := true;
         startX := clientX event; startY := clientY event;
         initialLeft := rect.1; initialTop := rect.2;
         persistedLeft := persistedLeft s; persistedTop := persistedTop s;
         elements := alter (restyle (px rect.1) (px rect.2) "none") el (elements s);
         body := body s; timers := timers s; timeouts := timeouts s;
         dragListeners := true |}
  end.

(** [_onMouseMove(event)] *)
Definition _onMouseMove (event : Pointer) (s : CaptionsService) : CaptionsService :=
  match isDragging s, currentCaptionElement s with
  | true, Some el =>
      let deltaX := minus (clientX event) (startX s) in
      let deltaY := minus (clientY event) (startY s) in
      let newLeft := plus (initialLeft s) deltaX in
      let newTop := plus (initialTop s) deltaY in
      {| currentCaptionElement := currentCaptionElement s;
         currentCaptionTimeoutId := currentCaptionTimeoutId s;
         isDragging := isDragging s;
         startX := startX s; startY := startY s;
         initialLeft := initialLeft s; initialTop := initialTop s;
         persistedLeft := persistedLeft s; persistedTop := persistedTop s;
         elements :=
           alter (fun e => restyle (px newLeft) (px newTop) (transform e) e) el (elements s);
         body := body s; timers := timers s; timeouts := timeouts s;
         dragListeners := dragListeners s |}
  | _, _ => s
  end.

(** [_onMouseUp(event)] *)
Definition _onMouseUp (s : CaptionsService) : CaptionsService :=
  if isDragging s then
    let style := currentCaptionElement s ≫= fun el => elements s !! el in
    {| currentCaptionElement := currentCaptionElement s;
       currentCaptionTimeoutId := currentCaptionTimeoutId s;
       isDragging := false;
       startX := startX s; startY := startY s;
       initialLeft := initialLeft s; initialTop := initialTop s;
       persistedLeft :=
         match style with Some e => Some (left e) | None => persistedLeft s end;
       persistedTop :=
         match style with Some e => Some (top e) | None => persistedTop s end;
       elements := elements s; body := body s; timers := timers s; timeouts := timeouts s;
       dragListeners := false |}
  else s.

(** What happens to the service: the calls of its user; a timer that
    comes due (one that was cleared never does); a press on a caption (it
    reaches the service when the element is on the page with its listeners
    attached); a move or a release of the pointer anywhere (they reach the
    service while the handlers of the drag are attached to the document). *)
Inductive Input :=
| call_showCaption (caption : string) (milliseconds : option N)
| call_removeCaption
| timeout (timer : nat)
| mousedown (target : nat) (event : Pointer) (rect : Number * Number)
| mousemove (event : Pointer)
| mouseup.

Definition step (s : CaptionsService) (i : Input) : CaptionsService :=
  match i with
  | call_showCaption caption milliseconds => showCaption caption milliseconds s
  | call_removeCaption => removeCaption s
  | timeout timer =>
      match list_find (fun entry => entry.1 = timer) (timers s) with
      | Some (_, (_, captionElement)) =>
          timeout_callback captionElement
            {| currentCaptionElement := currentCaptionElement s;
               currentCaptionTimeoutId := currentCaptionTimeoutId s;
               isDragging := isDragging s;
               startX := startX s; startY := startY s;
               initialLeft := initialLeft s; initialTop := initialTop s;
               persistedLeft := persistedLeft s; persistedTop := persistedTop s;
               elements := elements s; body := body s;
               timers := filter (fun entry => entry.1 <> timer) (timers s);
               timeouts := timeouts s;
               dragListeners := dragListeners s |}
      | None => s
      end
  | mousedown target event rect =>
      if bool_decide (target ∈ body s)
         && default false (listens <$> elements s !! target)
      then _onMouseDown event rect s
      else s
  | mousemove event => if dragListeners s then _onMouseMove event s else s
  | mouseup => if dragListeners s then _onMouseUp s else s
  end.

Definition run (inputs : list Input) (s : CaptionsService) : CaptionsService :=
  foldl step s inputs.

(** The captions on the screen, by their text. *)
Definition onScreen (s : CaptionsService) : list string :=
  omap (fun child => textContent <$> elements s !! child) (body s).

(** What holds of the service at all times: the only caption on the page
    is the current one; a timer that can still come due belongs to the
    current caption and is the one the service remembers; the handlers of
    the drag are on the document exactly during a drag, and a drag has a
    caption; the current caption exists and listens. *)
Record sound (s : CaptionsService) : Prop := {
  one_caption :
    body s = match currentCaptionElement s with Some el => [el] | None => [] end;
  one_timer :
    timers s = match currentCaptionTimeoutId s, currentCaptionElement s with
               | Some t, Some el => [(t, el)]
               | _, _ => []
               end;
  drag_attached : dragListeners s = isDragging s;
  drag_has_caption : isDragging s = true -> is_Some (currentCaptionElement s);
  current_listens :
    forall el, currentCaptionElement s = Some el ->
      exists e, elements s !! el = Some e /\ listens e = true
}.

(** Where a drag leaves the caption: where the last move of the pointer
    took it, or where the press found it when the pointer did not move. *)
Definition dropped_at (press : Pointer) (rect : Number * Number) (moves : list Pointer)
    : string * string :=
  match last moves with
  | Some event =>
      (px (plus rect.1 (minus (clientX event) (clientX press))),
       px (plus rect.2 (minus (clientY event) (clientY press))))
  | None => (px rect.1, px rect.2)
  end.

(** Inputs that neither show nor remove a caption. *)
Definition passive (i : Input) : bool :=
  match i with
  | call_showCaption _ _ | call_removeCaption => false
  | _ => true
  end.

End Numbers.

End Captions.

(** ** Concrete runs *)

Module Examples.
Import Js.

(** A host application that only records which tools ran. *)
Definition recorded (toolName : string) : Tools.Tool (list string) :=
  fun _ app => (Resolved (JStr (toolName +:+ " done")), app ++ [toolName]).

Definition recording : Tools.Implementations (list string) :=
  {| Tools.search_recipes := recorded "search_recipes";
     Tools.view_recipe := recorded "view_recipe";
     Tools.list_recipes := recorded "list_recipes";
     Tools.list_favorites := recorded "list_favorites";
     Tools.get_recipe_details := recorded "get_recipe_details";
     Tools.mark_as_favorite := recorded "mark_as_favorite";
     Tools.set_dark_mode := recorded "set_dark_mode";
     Tools.set_font_size := recorded "set_font_size";
     Tools.go_back_to_list := recorded "go_back_to_list" |}.

(** A dispatcher in which [view_recipe] rejects. *)
Definition flaky (functionName : string) (args : JsValue) (app : list string)
    : Settled JsValue * list string :=
  if decide (functionName = "view_recipe")
  then (Rejected (ErrorObject "Error" "recipe not found"), app)
  else Tools.handleToolCall recording functionName args app.

Definition config : Gemini.GeminiClientConfig (list string) :=
  {| Gemini.toolsConfig :=
       Some {| Gemini.functionDeclarations := Tools.name <$> Tools.functionDeclarations;
               Gemini.handleToolCall := Some flaky |};
     Gemini.apiKey := "key";
     Gemini.modelName := None |}.

(** A client whose session is open. *)
Definition ready : Gemini.Client (list string) :=
  {| Gemini.chat := Some {| Gemini.sent := [] |};
     Gemini.emitted := [];
     Gemini.world := [] |}.

Definition search : Gemini.FunctionCall :=
  {| Gemini.name := "search_recipes"; Gemini.args := JObj [("query", JStr "pasta")] |}.
Definition view : Gemini.FunctionCall :=
  {| Gemini.name := "view_recipe"; Gemini.args := JObj [("recipe_id", JNum 99)] |}.
Definition favorites : Gemini.FunctionCall :=
  {| Gemini.name := "list_favorites"; Gemini.args := JObj [] |}.

Definition first_reply : Gemini.Response :=
  {| Gemini.functionCalls := Some [search; view]; Gemini.text := "" |}.
Definition second_reply : Gemini.Response :=
  {| Gemini.functionCalls := Some [favorites]; Gemini.text := "" |}.
Definition final_reply : Gemini.Response :=
  {| Gemini.functionCalls := None; Gemini.text := "Here are some pasta recipes." |}.

Definition replies (r : Gemini.Response) : Gemini.ApiReply :=
  Gemini.Replies (Some {| Gemini.result_response := Some r |}).

(** A dispatcher whose tools resolve with a string, an array, an object
    and [null], and reject otherwise; it records the calls it gets. *)
Definition varied (functionName : string) (args : JsValue) (app : list string)
    : Settled JsValue * list string :=
  (if decide (functionName = "text") then Resolved (JStr "done")
   else if decide (functionName = "array") then Resolved (JArr [JNum 1; JNum 2])
   else if decide (functionName = "object") then Resolved (JObj [("id", JNum 7)])
   else if decide (functionName = "nothing") then Resolved JNull
   else Rejected (ErrorObject "Error" "no such recipe"),
   app ++ [functionName]).

Definition varied_config : Gemini.GeminiClientConfig (list string) :=
  {| Gemini.toolsConfig :=
       Some {| Gemini.functionDeclarations := ["text"; "array"; "object"; "nothing"; "broken"];
               Gemini.handleToolCall := Some varied |};
     Gemini.apiKey := "key";
     Gemini.modelName := None |}.

Definition call (functionName : string) : Gemini.FunctionCall :=
  {| Gemini.name := functionName; Gemini.args := JObj [] |}.

Definition varied_reply : Gemini.Response :=
  {| Gemini.functionCalls := Some (call <$> ["text"; "array"; "object"; "nothing"; "broken"]);
     Gemini.text := "" |}.

(** Voices of which two have the target name, and a table in which an
    identifier is repeated. *)
Definition voices : list Tts.SpeechSynthesisVoice :=
  [ {| Tts.name := "Alex"; Tts.lang := "en-US" |};
    {| Tts.name := "Google UK English Female"; Tts.lang := "en-GB" |};
    {| Tts.name := "Google UK English Female"; Tts.lang := "en-AU" |} ].

(** An engine on which every utterance runs to its end. *)
Definition fluent : Tts.Environment :=
  {| Tts.voicesLoaded := Resolved ();
     Tts.speaking := false;
     Tts.pending := false;
     Tts.outcome := fun _ _ => Tts.Ended |}.

Definition silent : Tts.TextToSpeechService :=
  {| Tts.synth := true; Tts.isSpeakingFlag := false; Tts.utterances := []; Tts.cancels := 0 |}.

(** An engine on which the second utterance fails. *)
Definition stumbling : Tts.Environment :=
  {| Tts.voicesLoaded := Resolved ();
     Tts.speaking := false;
     Tts.pending := false;
     Tts.outcome := fun n _ => if Nat.eqb n 1 then Tts.Errored "network" else Tts.Ended |}.

(** A table of two recipes. *)
Definition carbonara : App.Recipe :=
  {| App.id := 1;
     App.title := list_ascii_of_string "Spaghetti Carbonara";
     App.description := list_ascii_of_string "A classic Roman pasta dish.";
     App.ingredients := list_ascii_of_string <$> ["spaghetti"; "eggs"; "pecorino"];
     App.instructions := list_ascii_of_string <$> ["Boil the pasta."; "Mix and serve."];
     App.food_country := list_ascii_of_string "Italy";
     App.keywords := list_ascii_of_string <$> ["pasta"; "quick"] |}.

Definition ramen : App.Recipe :=
  {| App.id := 2;
     App.title := list_ascii_of_string "Shoyu Ramen";
     App.description := list_ascii_of_string "Noodles in a soy broth.";
     App.ingredients := list_ascii_of_string <$> ["noodles"; "soy sauce"; "broth"];
     App.instructions := list_ascii_of_string <$> ["Simmer the broth."; "Add the noodles."];
     App.food_country := list_ascii_of_string "Japan";
     App.keywords := list_ascii_of_string <$> ["soup"; "noodles"] |}.

Definition table : list App.Recipe := [carbonara; ramen].

Definition ramen_again : App.Recipe :=
  {| App.id := 2;
     App.title := list_ascii_of_string "Miso Ramen";
     App.description := list_ascii_of_string "Noodles in a miso broth.";
     App.ingredients := list_ascii_of_string <$> ["noodles"; "miso"];
     App.instructions := list_ascii_of_string <$> ["Simmer the broth."];
     App.food_country := list_ascii_of_string "Japan";
     App.keywords := list_ascii_of_string <$> ["soup"] |}.

(** An enable attempt in which everything succeeds, and the agent it
    leaves enabled. *)
Definition smooth : Agent.Environment :=
  {| Agent.construction := Normal;
     Agent.startChat := None;
     Agent.spoken := fun _ => Resolved ();
     Agent.listening := false |}.

Definition enabled : Agent.Agent (list string) :=
  Agent._handleAgentToggleClick recording smooth (Agent.initialized "key" None []).

(** A caption service with whole numbers of pixels, showing one caption
    for five seconds. *)
Definition greeting : @Captions.CaptionsService Z :=
  Captions.showCaption "Initializing Agent..." (Some 5000%N) (Captions.constructor 0%Z).

(** The orchestrator after [initializeAgent], and after the agent has
    been enabled and the greeting spoken. *)
Definition idle : Controls.Orchestrator (list string) :=
  Controls.initialized "key" None "en-US" Controls.default_shortcuts [].

Definition attentive : Controls.Orchestrator (list string) :=
  Controls.run recording
    [Controls.click_agentButton Normal None Normal; Controls.greeting (Resolved ())] idle.



End Examples.
(** * Properties *)

Section StateStore.
Import State.

Lemma spread_empty (o : Obj) : spread ∅ o = o.
Proof. unfold spread. apply (right_id_L ∅ (∪)). Qed.

Lemma lookup_spread (a b : Obj) key :
  spread a b !! key = match b !! key with Some v => Some v | None => a !! key end.
Proof.
  unfold spread. rewrite lookup_union.
  destruct (b !! key), (a !! key); reflexivity.
Qed.

Lemma state_updateState updates s :
  _state (updateState updates s).1 = spread (_state s) updates.
Proof. unfold updateState. case_match; reflexivity. Qed.

Lemma last_write_app key ps p :
  last_write key (ps ++ [p]) =
    match p !! key with Some v => Some v | None => last_write key ps end.
Proof.
  induction ps as [|q ps IH]; simpl.
  - destruct (p !! key); reflexivity.
  - rewrite IH. destruct (p !! key); [reflexivity|].
    destruct (last_write key ps); reflexivity.
Qed.

Lemma state_updateAll partials s key :
  _state (updateAll partials s) !! key =
    match last_write key partials with
    | Some v => Some v
    | None => _state s !! key
    end.
Proof.
  induction partials as [|p ps IH] using rev_ind; [reflexivity|].
  unfold updateAll in *. rewrite foldl_app. simpl.
  rewrite state_updateState, lookup_spread, last_write_app.
  destruct (p !! key); [reflexivity|]. apply IH.
Qed.

(** C3: after any finite sequence of [updateState] calls from the initial
    defaults, every slot of [getState()] holds the value of the last
    partial that provided it, and its default when no partial did: the
    last-write-wins shallow merge of the partials over the defaults. *)
Theorem getState_is_last_write_wins_merge (partials : list Obj) :
  forall key,
    getState (updateAll partials initial) !! key
    = merged _defaultState partials key.
Proof.
  intros key. unfold getState, merged. rewrite spread_empty.
  rewrite state_updateAll. unfold initial; simpl. rewrite spread_empty.
  reflexivity.
Qed.

Lemma prop_spread_not_own (a b : Obj) key :
  b !! key = None -> prop (spread a b) key = prop a key.
Proof. intros H. unfold prop. rewrite lookup_spread, H. reflexivity. Qed.

Lemma strict_neq_true a b : strict_neq a b = true <-> a <> b.
Proof.
  unfold strict_neq. rewrite negb_true_iff, bool_decide_eq_false. reflexivity.
Qed.

Lemma own_keys_spec (o : Obj) key : key ∈ own_keys o <-> is_Some (o !! key).
Proof.
  unfold own_keys. rewrite list_elem_of_fmap. split.
  - intros [[k v] [-> Hin]]. apply elem_of_map_to_list in Hin. eauto.
  - intros [v Hv]. exists (key, v). split; [reflexivity|].
    apply elem_of_map_to_list. exact Hv.
Qed.

Lemma hasChanged_true keys prev cur :
  hasChanged keys prev cur = true <->
  exists key, key ∈ keys /\ prop prev key <> prop cur key.
Proof.
  unfold hasChanged. rewrite existsb_exists. split.
  - intros [k [Hin Hne]]. exists k. split.
    + apply list_elem_of_In. exact Hin.
    + apply strict_neq_true. exact Hne.
  - intros [k [Hin Hne]]. exists k. split.
    + apply list_elem_of_In. exact Hin.
    + apply strict_neq_true. exact Hne.
Qed.

Lemma updateState_emits updates s :
  (updateState updates s).2 <> None <->
  hasChanged (own_keys updates) (_state s) (spread (_state s) updates) = true.
Proof.
  unfold updateState. rewrite spread_empty. simpl.
  destruct (hasChanged _ _ _); simpl; split; congruence.
Qed.

(** C4: [updateState(partial)] emits the change notification exactly when
    some slot reads differently after the merge than before it (compared
    with [!==]); when it does, every subscriber receives the new snapshot,
    in registration order; and [updateState({})] never notifies. *)
Theorem updateState_notifies_iff_changed (updates : Obj) (s : Store) :
  ((updateState updates s).2 <> None <->
     exists key, prop (getState (updateState updates s).1) key <> prop (getState s) key)
  /\ (forall payload, (updateState updates s).2 = Some payload ->
        payload = getState (updateState updates s).1
        /\ notifications updates s = (fun l => (l, payload)) <$> stateEmitter s)
  /\ ((updateState updates s).2 = None -> notifications updates s = [])
  /\ (updateState ∅ s).2 = None.
Proof.
  split; [|split; [|split]].
  - rewrite updateState_emits, hasChanged_true.
    unfold getState. rewrite !spread_empty, state_updateState.
    split.
    + intros [k [_ Hne]]. exists k. congruence.
    + intros [k Hne]. exists k. split.
      * apply own_keys_spec. destruct (updates !! k) eqn:E; [eauto|].
        exfalso. apply Hne. apply prop_spread_not_own. exact E.
      * congruence.
  - intros payload H. unfold notifications. rewrite H.
    unfold updateState in *. destruct (hasChanged _ _ _); simpl in *; [|discriminate].
    inversion H; subst. split; reflexivity.
  - intros H. unfold notifications. rewrite H. reflexivity.
  - unfold updateState, own_keys. rewrite map_to_list_empty. reflexivity.
Qed.

End StateStore.

Section ToolDispatch.
Import Js Tools.
Context {App : Type} (tools : Implementations App).

(** C10: for a tool name that is not the name of one of the nine declared
    tools, [handleToolCall] resolves (it does not reject) with the string
    "Error: Tool <name> is not available." and leaves the application as
    it was. *)
Theorem handleToolCall_unknown_tool (functionName : string) (args : JsValue) (app : App) :
  functionName ∉ name <$> functionDeclarations ->
  handleToolCall tools functionName args app
  = (Resolved (JStr ("Error: Tool " +:+ functionName +:+ " is not available.")), app).
Proof.
  intros Hnot. unfold handleToolCall.
  repeat (case_decide as Heq;
          [ exfalso; apply Hnot; rewrite Heq; simpl; set_solver | clear Heq ]).
  reflexivity.
Qed.

End ToolDispatch.

Section ModelSession.
Import Js Gemini.
Context {W : Type} (config : GeminiClientConfig W).
Variable completion : list Settlement -> list Settlement.

Lemma requests_emit (e : Event) (c : Client W) : requests (emit e c) = requests c.
Proof. reflexivity. Qed.

Lemma respond_slot (s : Settlement) : slot_of s (respond s).2.
Proof.
  unfold slot_of, respond. destruct s as [fc [v|e]]; simpl; split; reflexivity.
Qed.

Lemma respond_enveloped (s : Settlement) :
  is_object (response (respond s).2) = true /\ is_envelope (response (respond s).2) = true.
Proof. unfold respond. destruct s as [fc [v|e]]; simpl; split; reflexivity. Qed.

Lemma respond_event (s : Settlement) :
  is_functionCallRequested (respond s).1 = false
  /\ is_responseComplete (respond s).1 = false
  /\ is_thinking (respond s).1 = false.
Proof. unfold respond. destruct s as [fc [v|e]]; simpl; repeat split. Qed.

Lemma responded_slots (l : list Settlement) : Forall2 slot_of l (respond <$> l).*2.
Proof.
  induction l as [|s l IH]; simpl; constructor; [apply respond_slot | exact IH].
Qed.

Lemma responded_enveloped (l : list Settlement) :
  enveloped (FunctionResponses (respond <$> l).*2).
Proof.
  simpl. induction l as [|s l IH]; simpl; constructor; [apply respond_enveloped | exact IH].
Qed.

Lemma responded_events (l : list Settlement) :
  Forall (fun e => is_functionCallRequested e = false
                   /\ is_responseComplete e = false
                   /\ is_thinking e = false) (respond <$> l).*1.
Proof.
  induction l as [|s l IH]; simpl; constructor; [apply respond_event | exact IH].
Qed.

(** One round of [handleFunctionCalls] on an open session with a
    dispatcher, up to the next reply. *)
Lemma handleFunctionCalls_round reply processNext calls (c : Client W) session dispatch :
  chat c = Some session ->
  toolsConfig config ≫= handleToolCall = Some dispatch ->
  let settled := (dispatchAll dispatch calls (world c)).1 in
  let w := (dispatchAll dispatch calls (world c)).2 in
  let responded := respond <$> completion settled in
  let c3 :=
    {| chat := Some (record_request (FunctionResponses responded.*2) session);
       emitted := emitted c ++ [functionCallRequested calls] ++ responded.*1;
       world := w |} in
  handleFunctionCalls config completion reply processNext calls c
  = match reply with
    | None => (c3, Awaiting)
    | Some (Fails e) => (c3, Completed (Throw e))
    | Some (Replies nextResult) => processNext nextResult c3
    end.
Proof.
  intros Hchat Hdispatch. unfold handleFunctionCalls. rewrite Hchat, Hdispatch.
  simpl. destruct (dispatchAll dispatch calls (world c)) as [settled w] eqn:E.
  simpl. unfold set_chat, emit_all, set_world, emit. simpl.
  rewrite <- app_assoc. reflexivity.
Qed.

Lemma processApiResponse_final pending resp (c : Client W) :
  functionCalls resp = None \/ functionCalls resp = Some [] ->
  processApiResponse config completion pending (Some {| result_response := Some resp |}) c
  = (emit (responseComplete (Some (text resp)) None) c, Completed Normal).
Proof.
  intros [H|H]; destruct pending; simpl; rewrite H; reflexivity.
Qed.

(** C5: on an initialized session, when the first reply of the model
    requests no tool call, [sendMessage] emits exactly one [thinking] event
    and then exactly one [responseComplete] event carrying the text of that
    reply, and nothing else: no [functionCallRequested]. *)
Theorem sendMessage_without_tool_calls
    (c : Client W) (session : ChatSession) (userInput : string)
    (resp : Response) (rest : Endpoint) :
  chat c = Some session ->
  functionCalls resp = None \/ functionCalls resp = Some [] ->
  let c' := sendMessage config completion
              (Replies (Some {| result_response := Some resp |}) :: rest) userInput c in
  exists new,
    emitted c' = emitted c ++ new
    /\ new = [thinking; responseComplete (Some (text resp)) None]
    /\ length (filter (fun e => is_thinking e = true) new) = 1
    /\ length (filter (fun e => is_responseComplete e = true) new) = 1
    /\ filter (fun e => is_functionCallRequested e = true) new = [].
Proof.
  intros Hchat Hcalls c'. exists [thinking; responseComplete (Some (text resp)) None].
  split; [|repeat split].
  subst c'. unfold sendMessage. rewrite Hchat.
  rewrite processApiResponse_final by exact Hcalls.
  simpl. rewrite <- app_assoc. reflexivity.
Qed.

(** Whatever the endpoint replies and however the tools settle, the
    requests a call to [processApiResponse] adds are enveloped. *)
Lemma processApiResponse_enveloped pending :
  forall result (c : Client W),
    exists new,
      requests (processApiResponse config completion pending result c).1 = requests c ++ new
      /\ Forall enveloped new.
Proof.
  assert (Hround : forall reply processNext calls (c : Client W),
    (forall result c0, exists new,
        requests (processNext result c0).1 = requests c0 ++ new /\ Forall enveloped new) ->
    exists new,
      requests (handleFunctionCalls config completion reply processNext calls c).1
      = requests c ++ new /\ Forall enveloped new).
  { intros reply processNext calls c Hnext.
    destruct (chat c) as [session|] eqn:Hchat;
      [destruct (toolsConfig config ≫= handleToolCall) as [dispatch|] eqn:Hd|].
    - rewrite (handleFunctionCalls_round reply processNext calls c session dispatch Hchat Hd).
      set (parts := (respond <$> completion _).*2).
      destruct reply as [[nextResult|e]|].
      + match goal with |- context [processNext nextResult ?c3] =>
          destruct (Hnext nextResult c3) as [new [Hreq Hnew]] end.
        exists (FunctionResponses parts :: new). split.
        * rewrite Hreq. unfold requests. simpl. rewrite Hchat.
          rewrite <- app_assoc. reflexivity.
        * constructor; [apply responded_enveloped | exact Hnew].
      + exists [FunctionResponses parts]. split.
        * unfold requests. simpl. rewrite Hchat. reflexivity.
        * constructor; [apply responded_enveloped | constructor].
      + exists [FunctionResponses parts]. split.
        * unfold requests. simpl. rewrite Hchat. reflexivity.
        * constructor; [apply responded_enveloped | constructor].
    - exists []. unfold handleFunctionCalls. rewrite Hchat, Hd. simpl.
      rewrite app_nil_r. split; [reflexivity|constructor].
    - exists []. unfold handleFunctionCalls. rewrite Hchat. simpl.
      rewrite app_nil_r. split; [reflexivity|constructor]. }
  induction pending as [|reply rest IH]; intros result c; simpl;
    destruct (result ≫= result_response) as [resp|];
    try (exists []; rewrite app_nil_r; split; [reflexivity|constructor]).
  - destruct (functionCalls resp) as [[|fc more]|];
      try (exists []; rewrite app_nil_r; split; [reflexivity|constructor]).
    apply Hround. intros _ c0. exists []. rewrite app_nil_r. split; [reflexivity|constructor].
  - destruct (functionCalls resp) as [[|fc more]|];
      try (exists []; rewrite app_nil_r; split; [reflexivity|constructor]).
    apply Hround. exact IH.
Qed.

(** The batch as [dispatchAll] runs it is the batch as the dispatcher
    itself describes it, call by call. *)
Lemma dispatchAll_outcomes dispatch calls (w : W) :
  dispatchAll dispatch calls w = (outcomes dispatch calls w, ran dispatch calls w).
Proof.
  revert w. induction calls as [|fc calls IH]; intros w; [reflexivity|].
  cbn [dispatchAll].
  destruct (dispatch (name fc) (args fc) w) as [outcome w1] eqn:E.
  rewrite (IH w1). unfold outcomes, ran. cbn [imap foldl take]. rewrite E. cbn [fst snd].
  f_equal. f_equal. apply imap_ext. intros i x _. cbn [compose take foldl].
  rewrite E. reflexivity.
Qed.

Lemma dispatchAll_calls dispatch calls (w : W) :
  (dispatchAll dispatch calls w).1.*1 = calls.
Proof.
  revert w. induction calls as [|fc calls IH]; intros w; simpl; [reflexivity|].
  destruct (dispatch (name fc) (args fc) w) as [outcome w1].
  specialize (IH w1). destruct (dispatchAll dispatch calls w1) as [settled w2].
  simpl in *. f_equal. exact IH.
Qed.

Lemma slot_determines (s : Settlement) (part : FunctionResponse) :
  slot_of s part -> part = (respond s).2.
Proof.
  unfold slot_of, respond. destruct s as [fc [v|e]], part as [n r]; cbn;
    intros [-> ->]; reflexivity.
Qed.

Lemma slots_determine (l : list Settlement) (parts : list FunctionResponse) :
  Forall2 slot_of l parts -> parts = (respond <$> l).*2.
Proof.
  induction 1 as [|s part l parts Hs _ IH]; [reflexivity|].
  cbn. rewrite <- IH, <- (slot_determines s part Hs). reflexivity.
Qed.

Lemma rounds_determine (executed : list (list Settlement))
    (answers : list (list FunctionResponse)) :
  Forall2 (fun settled parts => Forall2 slot_of (completion settled) parts) executed answers ->
  answers = (fun settled => (respond <$> completion settled).*2) <$> executed.
Proof.
  induction 1 as [|settled parts executed answers Hs _ IH]; [reflexivity|].
  cbn. rewrite <- IH, <- (slots_determine _ _ Hs). reflexivity.
Qed.

(** The function responses a call to [processApiResponse] sends on an
    open session with a dispatcher: one request per batch the replies ask
    for, holding the slots of the calls as the dispatcher settled them. *)
Lemma processApiResponse_rounds dispatch pending :
  toolsConfig config ≫= handleToolCall = Some dispatch ->
  forall result (c : Client W) session,
    chat c = Some session ->
    exists answers,
      requests (processApiResponse config completion pending result c).1
      = requests c ++ (FunctionResponses <$> answers)
      /\ Forall2 (fun settled parts => Forall2 slot_of (completion settled) parts)
           (rounds dispatch (batches (Replies result :: pending)) (world c)) answers.
Proof.
  intros Hd.
  assert (Hnone : forall (c c' : Client W),
    requests c' = requests c ->
    exists answers : list (list FunctionResponse),
      requests c' = requests c ++ (FunctionResponses <$> answers)
      /\ Forall2 (fun settled parts => Forall2 slot_of (completion settled) parts) [] answers).
  { intros c c' H. exists []. rewrite app_nil_r. split; [exact H|constructor]. }
  induction pending as [|reply rest IH]; intros result c session Hchat;
    cbn [processApiResponse batches requested];
    destruct (result ≫= result_response) as [resp|]; try (apply Hnone; reflexivity);
    destruct (functionCalls resp) as [[|fc more]|]; try (apply Hnone; reflexivity).
  - rewrite (handleFunctionCalls_round None _ (fc :: more) c session dispatch Hchat Hd).
    rewrite dispatchAll_outcomes. cbn [fst snd batches rounds].
    eexists [_]. split.
    + unfold requests. cbn [chat record_request sent]. rewrite Hchat. reflexivity.
    + constructor; [apply responded_slots | constructor].
  - rewrite (handleFunctionCalls_round (Some reply) _ (fc :: more) c session dispatch Hchat Hd).
    rewrite dispatchAll_outcomes. cbn [fst snd rounds].
    set (parts := (respond <$> completion (outcomes dispatch (fc :: more) (world c))).*2).
    destruct reply as [nextResult|e].
    + match goal with |- context [processApiResponse _ _ rest nextResult ?c3] =>
        destruct (IH nextResult c3 _ eq_refl) as [answers [Hreq Hall]] end.
      exists (parts :: answers). split.
      * rewrite Hreq. unfold requests. cbn [chat record_request sent]. rewrite Hchat.
        rewrite <- app_assoc. reflexivity.
      * constructor; [apply responded_slots | exact Hall].
    + exists [parts]. split.
      * unfold requests. cbn [fst chat record_request sent]. rewrite Hchat. reflexivity.
      * cbn [batches requested rounds]. constructor; [apply responded_slots | constructor].
Qed.

(** C6: whatever a dispatched tool does (resolve with a string, an array,
    an object, [null], anything, or reject), the function response built
    for the call is a plain object: [{result: value}] with the value it
    resolved with, [{error: description}] with the reason it was rejected
    for. Every request a turn sends to the model carries such envelopes
    only, never a bare primitive or an array; and on a session with a
    dispatcher the requests of a turn are exactly one per batch the model
    asked for, each holding, for every call of the batch, the envelope of
    what the dispatcher answered to that very call. *)
Theorem function_responses_are_enveloped :
  (forall (fc : FunctionCall) (outcome : Settled JsValue),
      let part := (respond (fc, outcome)).2 in
      fr_name part = name fc
      /\ is_object (response part) = true
      /\ match outcome with
         | Resolved toolResult => response part = JObj [("result", toolResult)]
         | Rejected e =>
             response part
             = JObj [("error", JStr ("Failed to execute tool: " +:+ message_of e))]
         end)
  /\ (forall (pending : Endpoint) (userInput : string) (c : Client W),
        exists new,
          requests (sendMessage config completion pending userInput c) = requests c ++ new
          /\ Forall enveloped new)
  /\ (forall (pending : Endpoint) (userInput : string) (c : Client W) session dispatch,
        chat c = Some session ->
        toolsConfig config ≫= handleToolCall = Some dispatch ->
        let executed := rounds dispatch (batches pending) (world c) in
        exists answers,
          requests (sendMessage config completion pending userInput c)
          = requests c ++ UserText userInput :: (FunctionResponses <$> answers)
          /\ Forall2 (fun settled parts => Forall2 slot_of (completion settled) parts)
               executed answers
          /\ ((forall l, Permutation (completion l) l) ->
              forall settled call outcome,
                settled ∈ executed -> (call, outcome) ∈ settled ->
                exists parts part,
                  parts ∈ answers /\ part ∈ parts
                  /\ fr_name part = name call
                  /\ is_object (response part) = true
                  /\ match outcome with
                     | Resolved toolResult => response part = JObj [("result", toolResult)]
                     | Rejected e =>
                         response part
                         = JObj [("error",
                                  JStr ("Failed to execute tool: " +:+ message_of e))]
                     end)).
Proof.
  split; [|split].
  - intros fc [v|e]; simpl; repeat split; eauto.
  - intros pending userInput c. unfold sendMessage.
    destruct (chat c) as [session|] eqn:Hchat.
    2:{ exists []. rewrite requests_emit, app_nil_r. split; [reflexivity|constructor]. }
    set (c2 := set_chat _ (emit thinking c)).
    assert (Hc2 : requests c2 = requests c ++ [UserText userInput]).
    { unfold requests, c2. simpl. rewrite Hchat. reflexivity. }
    assert (Hdone : forall (c3 : Client W) (progress : Progress) new,
      requests c3 = requests c2 ++ new -> Forall enveloped new ->
      exists new',
        requests (match progress with
                  | Completed Normal | Awaiting => c3
                  | Completed (Throw e) =>
                      emit (responseComplete None (Some e))
                        (emit (error "Failed to get response from Gemini." (Some e)) c3)
                  end) = requests c ++ new' /\ Forall enveloped new').
    { intros c3 progress new Hreq Hnew. exists (UserText userInput :: new). split.
      - destruct progress as [[|e]|]; rewrite ?requests_emit, Hreq, Hc2, <- app_assoc;
          reflexivity.
      - constructor; [exact I | exact Hnew]. }
    destruct pending as [|[result|e] rest].
    + apply (Hdone c2 Awaiting []); [rewrite app_nil_r; reflexivity | constructor].
    + destruct (processApiResponse_enveloped rest result c2) as [new [Hreq Hnew]].
      destruct (processApiResponse config completion rest result c2) as [c3 progress].
      apply (Hdone c3 progress new Hreq Hnew).
    + apply (Hdone c2 (Completed (Throw e)) []); [rewrite app_nil_r; reflexivity | constructor].
  - intros pending userInput c session dispatch Hchat Hd executed.
    assert (Hsent : exists answers,
      requests (sendMessage config completion pending userInput c)
      = requests c ++ UserText userInput :: (FunctionResponses <$> answers)
      /\ Forall2 (fun settled parts => Forall2 slot_of (completion settled) parts)
           executed answers).
    { subst executed. unfold sendMessage. rewrite Hchat.
      set (c2 := set_chat _ (emit thinking c)).
      assert (Hc2 : requests c2 = requests c ++ [UserText userInput]).
      { unfold requests, c2. simpl. rewrite Hchat. reflexivity. }
      destruct pending as [|[result|e] rest].
      - exists []. split; [exact Hc2|constructor].
      - destruct (processApiResponse_rounds dispatch rest Hd result c2 _ eq_refl)
          as [answers [Hreq Hall]].
        exists answers. split; [|exact Hall].
        destruct (processApiResponse config completion rest result c2) as [c3 [[|e]|]];
          cbn [fst] in Hreq; rewrite ?requests_emit, Hreq, Hc2, <- app_assoc; reflexivity.
      - exists []. split; [rewrite !requests_emit; exact Hc2|constructor]. }
    destruct Hsent as [answers [Hreq Hall]]. exists answers.
    split; [exact Hreq|]. split; [exact Hall|].
    intros Hperm settled call outcome Hin Hcall.
    apply list_elem_of_lookup in Hin. destruct Hin as [k Hk].
    destruct (Forall2_lookup_l _ _ _ _ _ Hall Hk) as [parts [Hparts Hslots]].
    assert (Hcall' : (call, outcome) ∈ completion settled) by (rewrite Hperm; exact Hcall).
    apply list_elem_of_lookup in Hcall'. destruct Hcall' as [i Hi].
    destruct (Forall2_lookup_l _ _ _ _ _ Hslots Hi) as [part [Hpart [Hname Hpayload]]].
    exists parts, part.
    split; [apply list_elem_of_lookup; eauto|]. split; [apply list_elem_of_lookup; eauto|].
    split; [exact Hname|]. cbn [fst snd] in Hpayload.
    destruct outcome as [v|e]; rewrite Hpayload; split; reflexivity.
Qed.

Lemma processApiResponse_calls reply rest resp calls (c : Client W) :
  functionCalls resp = Some calls -> calls <> [] ->
  processApiResponse config completion (reply :: rest)
    (Some {| result_response := Some resp |}) c
  = handleFunctionCalls config completion (Some reply)
      (processApiResponse config completion rest) calls c.
Proof.
  intros H Hne. simpl. rewrite H. destruct calls; [congruence | reflexivity].
Qed.

Lemma filter_none {A} (f : A -> bool) (l : list A) :
  Forall (fun x => f x = false) l -> filter (fun x => f x = true) l = [].
Proof.
  induction 1 as [|x l Hx _ IH]; [reflexivity|].
  rewrite filter_cons_False by congruence. exact IH.
Qed.

(** Filtering a literal list of events by one of the event tests. *)
Ltac filter_events :=
  repeat first
    [ rewrite filter_nil
    | rewrite filter_cons_True by reflexivity
    | rewrite filter_cons_False by (simpl; discriminate) ].

Lemma outcomes_calls dispatch calls (w : W) : (outcomes dispatch calls w).*1 = calls.
Proof.
  pose proof (dispatchAll_calls dispatch calls w) as H.
  rewrite dispatchAll_outcomes in H. exact H.
Qed.

(** C2: on an initialized session with a dispatcher, when the model
    answers with a batch of tool calls, then a second batch, then a final
    text, [sendMessage] runs exactly two dispatch batches (one
    [functionCallRequested] each, each answered by one request to the
    model) before the single, terminal [responseComplete] carrying the
    final text. This holds however the dispatched calls settle. Every call
    of a batch has its own slot among the parts sent back, one part per
    call, and the slot holds what the dispatcher answered to that call in
    the world the calls before it had left: a call that rejects has the
    structured error payload [{error: "Failed to execute tool: ..."}] in its
    slot, and every other call of the batch has the result it resolved
    with in its own. *)
Theorem sendMessage_two_tool_rounds
    (c : Client W) (session : ChatSession)
    (dispatch : string -> JsValue -> W -> Settled JsValue * W)
    (userInput : string) (r1 r2 r3 : Response)
    (batch1 batch2 : list FunctionCall) (rest : Endpoint) :
  chat c = Some session ->
  toolsConfig config ≫= handleToolCall = Some dispatch ->
  (forall l, Permutation (completion l) l) ->
  functionCalls r1 = Some batch1 -> batch1 <> [] ->
  functionCalls r2 = Some batch2 -> batch2 <> [] ->
  functionCalls r3 = None \/ functionCalls r3 = Some [] ->
  let reply r := Replies (Some {| result_response := Some r |}) in
  let c' := sendMessage config completion
              (reply r1 :: reply r2 :: reply r3 :: rest) userInput c in
  let settled1 := outcomes dispatch batch1 (world c) in
  let between := ran dispatch batch1 (world c) in
  let settled2 := outcomes dispatch batch2 between in
  let slot (batch : list FunctionCall) (w : W) (parts : list FunctionResponse) :=
    forall i call, batch !! i = Some call ->
      exists part,
        part ∈ parts /\ fr_name part = name call
        /\ match (dispatch (name call) (args call) (ran dispatch (take i batch) w)).1 with
           | Resolved toolResult => response part = JObj [("result", toolResult)]
           | Rejected e =>
               response part
               = JObj [("error", JStr ("Failed to execute tool: " +:+ message_of e))]
           end in
  exists new events1 events2 parts1 parts2,
    emitted c' = emitted c ++ new
    /\ new = [thinking; functionCallRequested batch1] ++ events1
             ++ [functionCallRequested batch2] ++ events2
             ++ [responseComplete (Some (text r3)) None]
    /\ length (filter (fun e => is_functionCallRequested e = true) new) = 2
    /\ length (filter (fun e => is_responseComplete e = true) new) = 1
    /\ last new = Some (responseComplete (Some (text r3)) None)
    /\ requests c' = sent session ++ [UserText userInput;
                                       FunctionResponses parts1;
                                       FunctionResponses parts2]
    /\ world c' = ran dispatch batch2 between
    /\ settled1.*1 = batch1
    /\ settled2.*1 = batch2
    /\ Permutation (completion settled1) settled1
    /\ Forall2 slot_of (completion settled1) parts1
    /\ Permutation (completion settled2) settled2
    /\ Forall2 slot_of (completion settled2) parts2
    /\ length parts1 = length batch1
    /\ length parts2 = length batch2
    /\ slot batch1 (world c) parts1
    /\ slot batch2 between parts2.
Proof.
  intros Hchat Hdispatch Hperm H1 Hne1 H2 Hne2 H3 reply c' settled1 between settled2 slot.
  set (responded1 := respond <$> completion settled1).
  set (responded2 := respond <$> completion settled2).
  exists ([thinking; functionCallRequested batch1] ++ responded1.*1
          ++ [functionCallRequested batch2] ++ responded2.*1
          ++ [responseComplete (Some (text r3)) None]),
    responded1.*1, responded2.*1, responded1.*2, responded2.*2.
  assert (Hev1 := responded_events (completion settled1)).
  assert (Hev2 := responded_events (completion settled2)).
  fold responded1 in Hev1. fold responded2 in Hev2.
  assert (Hrun : c' = {| chat := Some {| sent := sent session
                                            ++ [UserText userInput;
                                                FunctionResponses responded1.*2;
                                                FunctionResponses responded2.*2] |};
                         emitted := emitted c
                                    ++ [thinking; functionCallRequested batch1]
                                    ++ responded1.*1
                                    ++ [functionCallRequested batch2] ++ responded2.*1
                                    ++ [responseComplete (Some (text r3)) None];
                         world := ran dispatch batch2 between |}).
  { subst c'. unfold sendMessage. rewrite Hchat. unfold reply.
    rewrite (processApiResponse_calls _ _ r1 batch1) by assumption.
    erewrite handleFunctionCalls_round; [|reflexivity|exact Hdispatch].
    rewrite (processApiResponse_calls _ _ r2 batch2) by assumption.
    erewrite handleFunctionCalls_round; [|reflexivity|exact Hdispatch].
    rewrite processApiResponse_final by exact H3.
    cbn [emit set_chat emitted world chat record_request sent].
    rewrite !dispatchAll_outcomes. cbn [fst snd].
    unfold emit, record_request. cbn [emitted world chat sent].
    rewrite <- !app_assoc. reflexivity. }
  assert (Hslot : forall batch w i call,
    batch !! i = Some call ->
    exists part,
      part ∈ (respond <$> completion (outcomes dispatch batch w)).*2
      /\ slot_of (call, (dispatch (name call) (args call)
                           (ran dispatch (take i batch) w)).1) part).
  { intros batch w i call Hi.
    assert (Hin : (call, (dispatch (name call) (args call)
                            (ran dispatch (take i batch) w)).1)
                  ∈ completion (outcomes dispatch batch w)).
    { rewrite Hperm. apply list_elem_of_lookup. exists i.
      unfold outcomes. rewrite list_lookup_imap, Hi. reflexivity. }
    apply list_elem_of_lookup in Hin. destruct Hin as [j Hj].
    destruct (Forall2_lookup_l _ _ _ _ _ (responded_slots (completion (outcomes dispatch batch w))) Hj)
      as [part [Hpart Hs]].
    exists part. split; [apply list_elem_of_lookup; eauto|exact Hs]. }
  assert (Hlen : forall batch w,
    length (respond <$> completion (outcomes dispatch batch w)).*2 = length batch).
  { intros batch w. rewrite !length_fmap, (Permutation_length (Hperm _)).
    unfold outcomes. apply length_imap. }
  split; [rewrite Hrun; reflexivity|]. split; [reflexivity|].
  split; [|split; [|split; [|split; [|split]]]].
  - rewrite !filter_app.
    rewrite (filter_none is_functionCallRequested responded1.*1)
      by (eapply Forall_impl; [exact Hev1 | tauto]).
    rewrite (filter_none is_functionCallRequested responded2.*1)
      by (eapply Forall_impl; [exact Hev2 | tauto]).
    filter_events. reflexivity.
  - rewrite !filter_app.
    rewrite (filter_none is_responseComplete responded1.*1)
      by (eapply Forall_impl; [exact Hev1 | tauto]).
    rewrite (filter_none is_responseComplete responded2.*1)
      by (eapply Forall_impl; [exact Hev2 | tauto]).
    filter_events. reflexivity.
  - rewrite !app_assoc. apply last_snoc.
  - rewrite Hrun. reflexivity.
  - rewrite Hrun. reflexivity.
  - repeat split.
    + apply outcomes_calls.
    + apply outcomes_calls.
    + apply Hperm.
    + apply responded_slots.
    + apply Hperm.
    + apply responded_slots.
    + apply Hlen.
    + apply Hlen.
    + intros i call Hi. destruct (Hslot batch1 (world c) i call Hi) as [part [Hin [Hn Hp]]].
      exists part. split; [exact Hin|]. split; [exact Hn|exact Hp].
    + intros i call Hi. destruct (Hslot batch2 between i call Hi) as [part [Hin [Hn Hp]]].
      exists part. split; [exact Hin|]. split; [exact Hn|exact Hp].
Qed.

End ModelSession.

Section SpeechCapture.
Import Js Stt.





(** No method assigns [this.events]: it is [undefined] from construction
    on. *)
Lemma events_emit_throws name payload (s : SpeechToTextService) :
  events s = None ->
  events_emit name payload s
  = (s, Throw (ErrorObject "TypeError"
                 "Cannot read properties of undefined (reading 'emit')")).
Proof. intros H. unfold events_emit. rewrite H. reflexivity. Qed.

(** Final fragments are appended, trimmed and followed by one space;
    interim fragments never reach the accumulated transcript. *)
Lemma accumulate_transcript (fragments : list SpeechRecognitionResult) (acc : string * string) :
  (foldl accumulate acc fragments).1
  = foldl (fun t r => t +:+ (trim (transcript r) +:+ " ")) acc.1
      (filter (fun r => isFinal r = true) fragments).
Proof.
  revert acc. induction fragments as [|r rs IH]; intros acc; [reflexivity|].
  simpl. rewrite IH. unfold accumulate. destruct (isFinal r) eqn:E.
  - rewrite filter_cons_True by exact E. reflexivity.
  - rewrite filter_cons_False by congruence. reflexivity.
Qed.

(** What [_onResult] does to the transcript, whether it throws or not. *)
Lemma onResult_transcript (event : SpeechRecognitionEvent) (s : SpeechToTextService) :
  finalTranscript (_onResult event s).1
  = foldl (fun t r => t +:+ (trim (transcript r) +:+ " ")) (finalTranscript s)
      (filter (fun r => isFinal r = true) (drop (resultIndex event) (results event))).
Proof.
  unfold _onResult.
  pose proof (accumulate_transcript (drop (resultIndex event) (results event))
                (finalTranscript s, "")) as H.
  destruct (foldl accumulate _ _) as [final interim]. cbn [fst] in H. subst final.
  unfold events_emit. destruct (events _); reflexivity.
Qed.

(** C8 at work on a listening service. A result event with one interim
    fragment: the transcript is untouched, but no side-channel event is
    emitted and the handler throws a [TypeError]. A result event with one
    final fragment: the fragment is appended, followed by a space, and the
    handler throws as well. The handler never completes normally. *)
Theorem onResult_throws :
  let interim_event :=
    {| resultIndex := 0; results := [ {| isFinal := false; transcript := "hel" |} ] |} in
  let type_error :=
    Throw (ErrorObject "TypeError" "Cannot read properties of undefined (reading 'emit')") in
  _onResult interim_event listening = (listening, type_error)
  /\ events (_onResult interim_event listening).1 = None
  /\ _onResult hello_event listening = (set_finalTranscript "hello " listening, type_error)
  /\ (forall event s, events s = None -> (_onResult event s).2 = type_error).
Proof.
  repeat split.
  intros event s H. unfold _onResult.
  destruct (foldl accumulate _ _) as [final interim].
  rewrite events_emit_throws by exact H. reflexivity.
Qed.

End SpeechCapture.

Section SpeechOutput.
Import Js Tts.

Lemma repeat_ends_suffix step :
  (forall s r, In r (step s) -> r `suffix_of` s) ->
  forall fuel min max s r, In r (repeat_ends step fuel min max s) -> r `suffix_of` s.
Proof.
  intros Hstep. induction fuel as [|fuel IH]; intros min max s r H.
  - destruct max as [[|m]|], min; simpl in H;
      first [ now destruct H | destruct H as [<-|[]]; reflexivity ].
  - assert (Hstop : In r (match min with 0 => [s] | S _ => [] end) -> r `suffix_of` s).
    { destruct min; [intros [<-|[]]; reflexivity | intros []]. }
    destruct max as [[|m]|]; simpl in H; [auto| |];
      apply in_app_or in H; destruct H as [H|H]; auto;
      apply in_flat_map in H; destruct H as [s' [Hs' H]];
      case_bool_decide; [|destruct H| |destruct H];
      (etransitivity; [eapply IH; exact H | apply Hstep; exact Hs']).
Qed.

Lemma repeat_ends_nil step fuel min max :
  repeat_ends step fuel min max [] = match min with 0 => [[]] | S _ => [] end.
Proof.
  assert (Hnone : forall l : list (list ascii),
    flat_map (fun s' : list ascii =>
                if bool_decide (length s' < length (@nil ascii))
                then repeat_ends step (Init.Nat.pred fuel) (pred min) (pred <$> max) s'
                else []) l = []).
  { induction l as [|x l IH]; [reflexivity|].
    cbn [flat_map]. rewrite IH, bool_decide_eq_false_2 by (simpl; lia). reflexivity. }
  destruct fuel as [|fuel], max as [[|m]|]; cbn [repeat_ends]; try reflexivity;
    cbn [Init.Nat.pred] in Hnone; rewrite Hnone; reflexivity.
Qed.

(** The bound on the iterations of a repetition is never what stops it:
    any bound from [length s] on gives the same result. *)
Lemma repeat_ends_fuel step fuel1 : forall fuel2 min max s,
  length s <= fuel1 -> length s <= fuel2 ->
  repeat_ends step fuel1 min max s = repeat_ends step fuel2 min max s.
Proof.
  induction fuel1 as [|fuel1 IH]; intros fuel2 min max s H1 H2.
  - destruct s; [|simpl in H1; lia]. rewrite !repeat_ends_nil. reflexivity.
  - destruct fuel2 as [|fuel2].
    + destruct s; [|simpl in H2; lia]. rewrite !repeat_ends_nil. reflexivity.
    + destruct max as [[|m]|]; cbn [repeat_ends]; [reflexivity| |];
        f_equal; apply flat_map_ext; intros s'; case_bool_decide; try reflexivity;
        apply IH; lia.
Qed.

Lemma ends_suffix p : forall s r, In r (ends p s) -> r `suffix_of` s.
Proof.
  induction p as [accepts|p IHp q IHq|p IHp q IHq|p IHp min max]; intros s r H; simpl in H.
  - destruct s as [|c s]; [destruct H|]. destruct (accepts c); [|destruct H].
    destruct H as [<-|[]]. apply suffix_cons_r. reflexivity.
  - apply in_flat_map in H. destruct H as [s' [Hs' H]].
    etransitivity; [apply IHq; exact H | apply IHp; exact Hs'].
  - apply in_app_or in H. destruct H; auto.
  - eapply repeat_ends_suffix; [exact IHp | exact H].
Qed.

Lemma repeat_ends_consumes step :
  (forall s r, In r (step s) -> r `suffix_of` s) ->
  forall fuel min max s r,
    In r (repeat_ends step fuel (S min) max s) -> length r < length s.
Proof.
  intros Hstep fuel min max s r H.
  destruct fuel as [|fuel]; [destruct max as [[|m]|]; destruct H|].
  destruct max as [[|m]|]; simpl in H; [destruct H| |];
    rewrite app_nil_r in H; apply in_flat_map in H; destruct H as [s' [Hs' H]];
    case_bool_decide; [|destruct H| |destruct H];
    apply (repeat_ends_suffix step Hstep) in H; apply suffix_length in H; lia.
Qed.

Lemma regex_consumes s r : In r (ends regex s) -> r `suffix_of` s /\ length r < length s.
Proof.
  intros H. split; [apply (ends_suffix regex); exact H|].
  unfold regex in H. change (ends (Then ?p ?q) s) with (flat_map (ends q) (ends p s)) in H.
  apply in_flat_map in H. destruct H as [s1 [Hs1 H]].
  apply ends_suffix, suffix_length in Hs1.
  apply (repeat_ends_consumes _ (ends_suffix group2)) in H. lia.
Qed.

Lemma ends_Then p q s : ends (Then p q) s = flat_map (ends q) (ends p s).
Proof. reflexivity. Qed.

Lemma ends_Or p q s : ends (Or p q) s = ends p s ++ ends q s.
Proof. reflexivity. Qed.

Lemma ends_Repeat p min max s :
  ends (Repeat p min max) s = repeat_ends (ends p) (length s) min max s.
Proof. reflexivity. Qed.

Lemma repeat_ends_may_stop step fuel max s :
  exists front, repeat_ends step fuel 0 max s = front ++ [s].
Proof.
  destruct max as [[|m]|], fuel as [|fuel]; simpl;
    first [ exists []; reflexivity | eexists; reflexivity ].
Qed.

Lemma star_class_accepts accepts c s :
  accepts c = true ->
  ends (star (Class accepts)) (c :: s) = ends (star (Class accepts)) s ++ [c :: s].
Proof.
  intros H. unfold star. rewrite !ends_Repeat.
  change (length (c :: s)) with (S (length s)).
  cbn [repeat_ends ends]. rewrite H. cbn [flat_map]. rewrite app_nil_r.
  rewrite bool_decide_eq_true_2 by (simpl; lia). reflexivity.
Qed.

Lemma star_class_rejects accepts c s :
  accepts c = false -> ends (star (Class accepts)) (c :: s) = [c :: s].
Proof.
  intros H. unfold star. rewrite ends_Repeat.
  change (length (c :: s)) with (S (length s)).
  cbn [repeat_ends ends]. rewrite H. reflexivity.
Qed.

(** A code unit that stops the leading run is itself matched by the first
    alternative of [group2]. *)
Lemma stops_run_matches c :
  none_of ["."; "!"; "?"; ";"]%char c = false ->
  one_of ["."; "!"; "?"; ";"; ","; "034"; "*"]%char c = true.
Proof.
  unfold none_of, one_of. cbn [existsb].
  destruct (Ascii.eqb c "."), (Ascii.eqb c "!"), (Ascii.eqb c "?"), (Ascii.eqb c ";");
    simpl; congruence.
Qed.

(** If the pattern matches nowhere from a position, it matches nowhere
    from the next one either. *)
Lemma regex_fails_later c s : ends regex (c :: s) = [] -> ends regex s = [].
Proof.
  unfold regex. rewrite !ends_Then.
  destruct (none_of ["."; "!"; "?"; ";"]%char c) eqn:Hc.
  - rewrite star_class_accepts by exact Hc. rewrite flat_map_app.
    intros H. apply app_eq_nil in H. apply H.
  - rewrite star_class_rejects by exact Hc. cbn [flat_map]. rewrite app_nil_r.
    intros H. exfalso. revert H.
    unfold plus. rewrite ends_Repeat. change (length (c :: s)) with (S (length s)).
    cbn [repeat_ends]. rewrite app_nil_r.
    unfold group2 at 2. rewrite ends_Or. cbn [ends].
    rewrite (stops_run_matches c Hc). cbn [app flat_map].
    rewrite bool_decide_eq_true_2 by (simpl; lia).
    change (Init.Nat.pred 1) with 0.
    destruct (repeat_ends_may_stop (ends group2) (length s) (pred <$> None) s) as [front ->].
    intros H. apply app_eq_nil in H. destruct H as [H _].
    apply app_eq_nil in H. destruct H as [_ H]. discriminate.
Qed.

Lemma exec_eq s :
  exec s = match head (ends regex s) with
           | Some rest => Some (take (length s - length rest) s, rest)
           | None => match s with [] => None | _ :: s' => exec s' end
           end.
Proof. destruct s; reflexivity. Qed.

Lemma exec_nowhere s : ends regex s = [] -> exec s = None.
Proof.
  induction s as [|c s IH]; intros H; rewrite exec_eq, H; [reflexivity|].
  cbn [head]. apply IH. apply (regex_fails_later c). exact H.
Qed.

(** A match starts where the search starts, and is not empty. *)
Lemma exec_Some s matched rest :
  exec s = Some (matched, rest) ->
  s = matched ++ rest /\ length rest < length s.
Proof.
  rewrite exec_eq. destruct (ends regex s) as [|r rs] eqn:E; cbn [head].
  - destruct s as [|c s]; [discriminate|].
    rewrite (exec_nowhere s) by (apply (regex_fails_later c); exact E). discriminate.
  - intros H. inversion H; subst. clear H.
    destruct (regex_consumes s rest) as [[k Hk] Hlen]; [rewrite E; left; reflexivity|].
    split; [|exact Hlen]. clear E Hlen. subst s.
    rewrite length_app.
    replace (length k + length rest - length rest) with (length k) by lia.
    rewrite take_app_length. reflexivity.
Qed.

Lemma matches_split fuel : forall s,
  length s < fuel ->
  exists remainder,
    s = concat (matches fuel s) ++ remainder
    /\ exec remainder = None
    /\ Forall (fun m => m <> []) (matches fuel s).
Proof.
  induction fuel as [|fuel IH]; intros s Hlen; [lia|].
  cbn [matches]. destruct (exec s) as [[matched rest]|] eqn:E.
  - destruct (exec_Some s matched rest E) as [Hs Hrest].
    destruct (IH rest) as [remainder [Hsplit [Hnone Hne]]]; [lia|].
    exists remainder. split; [|split; [exact Hnone|]].
    + cbn [concat]. rewrite <- app_assoc, <- Hsplit. exact Hs.
    + constructor; [|exact Hne]. intros ->. simpl in Hs. subst. lia.
  - exists s. split; [reflexivity|split; [exact E|constructor]].
Qed.

Lemma startsWith_app search rest : startsWith search (search ++ rest) = true.
Proof.
  induction search as [|a search IH]; [reflexivity|].
  simpl. rewrite Ascii.eqb_refl. exact IH.
Qed.

Lemma String_replace_prefix search rest : String_replace search (search ++ rest) = rest.
Proof.
  assert (Heq : forall s, String_replace search s =
    if startsWith search s then drop (length search) s
    else match s with [] => [] | c :: s' => c :: String_replace search s' end)
    by (intros []; reflexivity).
  rewrite Heq, startsWith_app. apply drop_app_length.
Qed.

Lemma string_of_list_ascii_concat (a b : list ascii) :
  string_of_list_ascii (a ++ b) = string_of_list_ascii a +:+ string_of_list_ascii b.
Proof. induction a as [|c a IH]; [reflexivity|]. simpl. rewrite IH. reflexivity. Qed.

Lemma join_concat (ms : list (list ascii)) :
  string_of_list_ascii (concat ms) = join (string_of_list_ascii <$> ms).
Proof.
  induction ms as [|m ms IH]; [reflexivity|].
  simpl. rewrite string_of_list_ascii_concat, IH. reflexivity.
Qed.

(** What [splitByPunctuation] returns: the chunks are the matches of the
    pattern from the front of the text, one right after the other, none of
    them empty; the remainder is the text after the last of them, in which
    the pattern matches nowhere. *)
Lemma splitByPunctuation_spec (text : string) :
  text = join (splitByPunctuation text).1 +:+ (splitByPunctuation text).2
  /\ exec (list_ascii_of_string (splitByPunctuation text).2) = None
  /\ Forall (fun chunk => chunk <> "") (splitByPunctuation text).1.
Proof.
  set (l := list_ascii_of_string text).
  destruct (matches_split (S (length l)) l) as [remainder [Hsplit [Hnone Hne]]]; [lia|].
  assert (Heq : splitByPunctuation text =
    (string_of_list_ascii <$> matches (S (length l)) l,
     string_of_list_ascii (String_replace (concat (matches (S (length l)) l)) l))).
  { unfold splitByPunctuation, String_match. fold l.
    destruct (matches (S (length l)) l); reflexivity. }
  rewrite Heq. cbn [fst snd]. clear Heq.
  set (ms := matches (S (length l)) l) in *.
  pose proof (String_replace_prefix (concat ms) remainder) as Hr.
  rewrite <- Hsplit in Hr. rewrite Hr. clear Hr.
  rewrite list_ascii_of_string_of_list_ascii.
  split; [|split; [exact Hnone|]].
  - rewrite <- join_concat, <- string_of_list_ascii_concat, <- Hsplit.
    unfold l. rewrite string_of_list_ascii_of_string. reflexivity.
  - clear -Hne. induction Hne as [|m ms' Hm _ IH]; constructor; [|exact IH].
    destruct m; [congruence|discriminate].
Qed.

(** The bound on the number of steps is never reached. *)
Lemma matches_fuel fuel1 : forall fuel2 s,
  length s < fuel1 -> length s < fuel2 -> matches fuel1 s = matches fuel2 s.
Proof.
  induction fuel1 as [|fuel1 IH]; intros fuel2 s H1 H2; [lia|].
  destruct fuel2 as [|fuel2]; [lia|]. cbn [matches].
  destruct (exec s) as [[matched rest]|] eqn:E; [|reflexivity].
  apply exec_Some in E. destruct E as [_ Hrest].
  f_equal. apply IH; lia.
Qed.

Lemma speak_chunks_all_end (env : Environment) (chunks : list string) :
  (forall n text, outcome env n text = Ended) ->
  forall t,
    utterances (speak_chunks env chunks t).1 = utterances t ++ chunks
    /\ (speak_chunks env chunks t).2 = Resolved ()
    /\ synth (speak_chunks env chunks t).1 = synth t.
Proof.
  intros Hend. induction chunks as [|chunk chunks IH]; intros t.
  - simpl. rewrite app_nil_r. repeat split.
  - cbn [speak_chunks]. unfold _speak. rewrite Hend.
    match goal with |- context [speak_chunks env chunks ?t'] =>
      destruct (IH t') as [Hu [Hr Hs]] end.
    rewrite Hu, Hr, Hs. cbn [utterances synth]. rewrite <- app_assoc. repeat split.
Qed.

(** With the engine present, the voices loaded and every utterance running
    to its end, [speak] utters the chunks in order and then, when there is
    one, the remainder. *)
Lemma speak_utterances (env : Environment) (text : string) (t : TextToSpeechService) :
  isSupported t = true ->
  voicesLoaded env = Resolved () ->
  (forall n text, outcome env n text = Ended) ->
  utterances (speak env text t).1
  = utterances t ++ (splitByPunctuation text).1
      ++ (if decide ((splitByPunctuation text).2 = "") then []
          else [(splitByPunctuation text).2])
  /\ (speak env text t).2 = Resolved ().
Proof.
  intros Hsup Hvoices Hend. unfold speak. rewrite Hsup, Hvoices.
  destruct (splitByPunctuation text) as [chunks unmatched]. cbn [fst snd].
  set (t1 := if isSpeakingFlag t || pending env
             then stop (speaking env || pending env) t else t).
  assert (Ht1 : utterances t1 = utterances t).
  { unfold t1, stop. rewrite Hsup.
    destruct (isSpeakingFlag t || pending env),
      (speaking env || pending env || isSpeakingFlag t); reflexivity. }
  destruct (speak_chunks_all_end env chunks Hend t1) as [Hu [Hr _]].
  destruct (speak_chunks env chunks t1) as [t2 r]. cbn [fst snd] in Hu, Hr. subst r.
  destruct unmatched as [|c unmatched].
  - simpl. rewrite Hu, Ht1, app_nil_r. split; reflexivity.
  - cbn [String.length Nat.ltb Nat.leb]. unfold _speak. rewrite Hend.
    cbn [fst snd utterances]. rewrite Hu, Ht1, <- app_assoc.
    rewrite decide_False by discriminate. split; reflexivity.
Qed.

(** C9: the splitter turns "Boil water. Add pasta! Stir?" into exactly
    three sentence chunks with an empty remainder, and [speak] utters them
    one after the other in the order of the text. For every text, the
    chunks followed by the remainder make up the text, and the remainder is
    trailing text in which the pattern matches nowhere; when it is not
    empty, [speak] utters it exactly once, as the last utterance, after all
    the chunks. (Engine present, voices loaded, every utterance running to
    its end.) *)
Theorem speak_chunks_then_remainder (env : Environment) (t : TextToSpeechService) :
  isSupported t = true ->
  voicesLoaded env = Resolved () ->
  (forall n text, outcome env n text = Ended) ->
  (splitByPunctuation "Boil water. Add pasta! Stir?"
     = (["Boil water."; " Add pasta!"; " Stir?"], "")
   /\ utterances (speak env "Boil water. Add pasta! Stir?" t).1
      = utterances t ++ ["Boil water."; " Add pasta!"; " Stir?"]
   /\ (speak env "Boil water. Add pasta! Stir?" t).2 = Resolved ())
  /\ (forall text : string,
        let chunks := (splitByPunctuation text).1 in
        let unmatched := (splitByPunctuation text).2 in
        text = join chunks +:+ unmatched
        /\ exec (list_ascii_of_string unmatched) = None
        /\ (unmatched <> "" ->
              utterances (speak env text t).1 = utterances t ++ chunks ++ [unmatched]
              /\ (speak env text t).2 = Resolved ())
        /\ (unmatched = "" ->
              utterances (speak env text t).1 = utterances t ++ chunks
              /\ (speak env text t).2 = Resolved ())).
Proof.
  intros Hsup Hvoices Hend. split.
  - assert (Hsplit : splitByPunctuation "Boil water. Add pasta! Stir?"
                     = (["Boil water."; " Add pasta!"; " Stir?"], ""))
      by (vm_compute; reflexivity).
    split; [exact Hsplit|].
    destruct (speak_utterances env "Boil water. Add pasta! Stir?" t Hsup Hvoices Hend)
      as [Hu Hr].
    rewrite Hsplit in Hu. split; [exact Hu | exact Hr].
  - intros text chunks unmatched.
    destruct (splitByPunctuation_spec text) as [Htext [Hnone _]].
    destruct (speak_utterances env text t Hsup Hvoices Hend) as [Hu Hr].
    fold chunks unmatched in Htext, Hnone, Hu.
    split; [exact Htext|split; [exact Hnone|split]].
    + intros Hne. rewrite decide_False in Hu by exact Hne. split; [exact Hu | exact Hr].
    + intros He. rewrite decide_True in Hu by exact He.
      rewrite app_nil_r in Hu. split; [exact Hu | exact Hr].
Qed.

End SpeechOutput.

Section Orchestration.
Import Js State Agent.
Context {App : Type} (tools : Tools.Implementations App).

Lemma prop_after_update (updates : list (string * Value)) (es : list Effect)
    (a : Agent App) (key : string) (v : Value) :
  (list_to_map updates : Obj) !! key = Some v ->
  prop (getState (store (perform es (update updates a)))) key = v.
Proof.
  intros H.
  change (store (perform es (update updates a)))
    with (updateState (list_to_map updates) (store a)).1.
  unfold getState, prop.
  rewrite spread_empty, state_updateState, lookup_spread, H. reflexivity.
Qed.

(** Whether [model.startChat] throws or not makes no difference to the
    enabling branch: once the client is built and the greeting spoken, the
    agent is enabled and the state refers to the new client. *)
Lemma enable_disregards_startChat (env : Environment) (a : Agent App) (c : ascii) (key : string) :
  truthy (isAgentEnabled a) = false ->
  agentApiKey a = Some (String c key) ->
  construction env = Normal ->
  spoken env GREETING_MESSAGE = Resolved () ->
  isAgentEnabled (_handleAgentToggleClick tools env a) = boolean true
  /\ geminiClient (_handleAgentToggleClick tools env a)
     = ref (Pos.of_nat (3 + size (clients a))).
Proof.
  intros Hoff Hkey Hbuilt Hgreeted.
  unfold _handleAgentToggleClick, isAgentEnabled, geminiClient in *.
  rewrite Hoff. cbn [negb perform agentApiKey agentModelName clients application].
  rewrite Hkey, Hbuilt, Hgreeted.
  split; apply prop_after_update; reflexivity.
Qed.

(** C1 on an enable attempt whose session fails to open. The agent was
    initialized with a key and is disabled; the client is built,
    [model.startChat] throws, the greeting is spoken. [initializeChat]
    reports the failure as an [error] event and returns normally, so the
    orchestrator goes on: when the attempt completes [isAgentEnabled] is
    [true], [geminiClient] refers to the new client, whose [chat] is
    [null], and [lastError] has been cleared again. *)
Theorem enable_attempt_with_failed_session (app : App) :
  let before := initialized "key" None app in
  let after := _handleAgentToggleClick tools session_open_fails before in
  isAgentEnabled before = boolean false
  /\ isAgentEnabled after = boolean true
  /\ geminiClient after = ref 3
  /\ geminiClient after <> null
  /\ lastError after = null
  /\ (Gemini.chat <$> (client <$> clients after !! 3%positive)) = Some None
  /\ (Gemini.emitted <$> (client <$> clients after !! 3%positive))
     = Some [Gemini.error "Failed to initialize chat session."
               (Some (ErrorObject "Error" "startChat failed"))].
Proof. vm_compute. repeat split. discriminate. Qed.

End Orchestration.

(** * Further properties of the code *)

Section StateStoreMore.
Import State.

Lemma own_keys_defaults key :
  key ∈ own_keys _defaultState <-> is_Some (_defaultState !! key).
Proof. apply own_keys_spec. Qed.

(** [resetState()] puts the nine defaults back whatever the state was
    (a slot that is not one of the nine is dropped), keeps the subscribers,
    notifies exactly when one of the nine slots read differently before,
    and a second reset right after it never notifies. *)
Theorem resetState_restores_defaults (s : Store) :
  getState (resetState s).1 = _defaultState
  /\ stateEmitter (resetState s).1 = stateEmitter s
  /\ ((resetState s).2 <> None <->
        exists key, is_Some (_defaultState !! key)
                    /\ prop (getState s) key <> prop _defaultState key)
  /\ (resetState (resetState s).1).2 = None.
Proof.
  assert (Hstate : forall s0, _state (resetState s0).1 = _defaultState).
  { intros s0. unfold resetState. rewrite !spread_empty. case_match; reflexivity. }
  assert (Hemits : forall s0, (resetState s0).2 <> None <->
            hasChanged (own_keys _defaultState) (_state s0) _defaultState = true).
  { intros s0. unfold resetState. rewrite !spread_empty. cbn [_state].
    destruct (hasChanged _ _ _); simpl; split; congruence. }
  split; [|split; [|split]].
  - unfold getState. rewrite spread_empty. apply Hstate.
  - unfold resetState. case_match; reflexivity.
  - rewrite Hemits, hasChanged_true. unfold getState. rewrite spread_empty.
    split; intros [key [Hin Hne]]; exists key; (split; [apply own_keys_spec, Hin | exact Hne]).
  - destruct ((resetState (resetState s).1).2) eqn:E; [|reflexivity].
    exfalso. assert (Hsome : (resetState (resetState s).1).2 <> None) by congruence.
    apply Hemits in Hsome. apply hasChanged_true in Hsome.
    destruct Hsome as [key [_ Hne]]. rewrite Hstate in Hne. congruence.
Qed.

(** Repeating an [updateState] call right after itself changes nothing and
    notifies nobody; and a call never touches a slot it does not name. *)
Theorem updateState_twice (updates : Obj) (s : Store) :
  let once := (updateState updates s).1 in
  (updateState updates once).2 = None
  /\ updateState updates once = (once, None)
  /\ (forall key, updates !! key = None ->
        getState once !! key = getState s !! key).
Proof.
  intros once.
  assert (Hsame : spread (_state once) updates = _state once).
  { unfold once. rewrite state_updateState. apply map_eq. intros key.
    rewrite !lookup_spread. destruct (updates !! key); reflexivity. }
  assert (Hnone : (updateState updates once).2 = None).
  { destruct ((updateState updates once).2) eqn:E; [|reflexivity]. exfalso.
    assert (Hsome : (updateState updates once).2 <> None) by congruence.
    apply updateState_emits, hasChanged_true in Hsome.
    destruct Hsome as [key [_ Hne]]. rewrite Hsame in Hne. congruence. }
  split; [exact Hnone|split].
  - destruct (updateState updates once) as [s2 o] eqn:E. cbn [snd] in Hnone. subst o.
    f_equal. assert (Hs2 : s2 = (updateState updates once).1) by (rewrite E; reflexivity).
    rewrite Hs2. unfold updateState at 1. case_match; cbn [fst]; rewrite Hsame;
      destruct once; reflexivity.
  - intros key Hkey. unfold getState, once. rewrite !spread_empty, state_updateState.
    rewrite lookup_spread, Hkey. reflexivity.
Qed.

Lemma stateEmitter_updateState updates s :
  stateEmitter (updateState updates s).1 = stateEmitter s.
Proof. unfold updateState. case_match; reflexivity. Qed.

Lemma updateState_listeners updates s ls :
  (updateState updates {| _state := _state s; stateEmitter := ls |}).2
  = (updateState updates s).2
  /\ _state (updateState updates {| _state := _state s; stateEmitter := ls |}).1
     = _state (updateState updates s).1.
Proof. unfold updateState. cbn [_state]. case_match; split; reflexivity. Qed.

(** Subscribing and unsubscribing. A listener registered with
    [onStateChange] is called last, with the same snapshot as the others,
    by every call that changes the state; once the function that
    [onStateChange] returned has run, it is never called again, and the
    other subscribers are called as before. Neither operation changes the
    state. *)
Theorem subscribe_then_unsubscribe (listener : Listener) (updates : Obj) (s : Store) :
  notifications updates (onStateChange listener s)
  = notifications updates s
    ++ (match (updateState updates s).2 with
        | Some payload => [(listener, payload)]
        | None => []
        end)
  /\ notifications updates (unsubscribe listener s)
     = filter (fun delivery => delivery.1 <> listener) (notifications updates s)
  /\ (listener ∉ (notifications updates (unsubscribe listener (onStateChange listener s))).*1)
  /\ getState (onStateChange listener s) = getState s
  /\ getState (unsubscribe listener s) = getState s.
Proof.
  assert (Hnotif : forall ls,
    notifications updates {| _state := _state s; stateEmitter := ls |}
    = match (updateState updates s).2 with
      | Some payload => (fun l => (l, payload)) <$> ls
      | None => []
      end).
  { intros ls. unfold notifications, emit.
    destruct (updateState_listeners updates s ls) as [-> _].
    rewrite stateEmitter_updateState. reflexivity. }
  assert (Hs : notifications updates s
    = match (updateState updates s).2 with
      | Some payload => (fun l => (l, payload)) <$> stateEmitter s
      | None => []
      end).
  { rewrite <- (Hnotif (stateEmitter s)). destruct s; reflexivity. }
  assert (Hfilter : forall (payload : Obj) (ls : list Listener),
    (fun l : Listener => (l, payload)) <$> filter (fun l => l <> listener) ls
    = filter (fun delivery : Listener * Obj => delivery.1 <> listener)
        ((fun l => (l, payload)) <$> ls)).
  { intros payload ls. induction ls as [|l ls IH]; [reflexivity|].
    cbn [fmap list_fmap]. destruct (decide (l = listener)) as [->|Hne].
    - rewrite filter_cons_False by tauto.
      rewrite (filter_cons_False _ (listener, payload)) by (simpl; tauto). exact IH.
    - rewrite filter_cons_True by exact Hne.
      rewrite (filter_cons_True _ (l, payload)) by exact Hne.
      cbn [fmap list_fmap]. f_equal. exact IH. }
  split; [|split; [|split; [|split]]].
  - unfold onStateChange. rewrite Hnotif, Hs.
    destruct ((updateState updates s).2); [|reflexivity]. rewrite fmap_app. reflexivity.
  - unfold unsubscribe. rewrite Hnotif, Hs.
    destruct ((updateState updates s).2); [apply Hfilter|reflexivity].
  - unfold unsubscribe, onStateChange. cbn [_state stateEmitter]. rewrite Hnotif.
    destruct ((updateState updates s).2); [|apply not_elem_of_nil].
    rewrite <- list_fmap_compose. intros Hin.
    apply list_elem_of_fmap in Hin. destruct Hin as [l [Hl Hin]].
    apply list_elem_of_filter in Hin. simpl in Hl. destruct Hin as [Hne _]. congruence.
  - reflexivity.
  - reflexivity.
Qed.

End StateStoreMore.

Section ModelSessionMore.
Import Js Gemini.
Context {W : Type} (config : GeminiClientConfig W).
Variable completion : list Settlement -> list Settlement.

Lemma responded_quiet (l : list Settlement) : Forall quiet (respond <$> l).*1.
Proof.
  eapply Forall_impl; [apply responded_events|]. intros e [_ [H1 H2]]. split; assumption.
Qed.

Lemma processed_throw (c : Client W) e : processed c (c, Completed (Throw e)).
Proof.
  exists []. cbn [fst snd]. rewrite app_nil_r.
  split; [reflexivity|]. split; [constructor|tauto].
Qed.

Lemma processed_final (c : Client W) t :
  processed c (emit (responseComplete (Some t) None) c, Completed Normal).
Proof.
  exists [responseComplete (Some t) None]. cbn [fst snd].
  split; [reflexivity|]. split; [exists [], t; split; [reflexivity|constructor] | tauto].
Qed.

Lemma handleFunctionCalls_processed reply processNext calls (c : Client W) :
  (forall nextResult c0, reply = Some (Replies nextResult) ->
     processed c0 (processNext nextResult c0)) ->
  processed c (handleFunctionCalls config completion reply processNext calls c).
Proof.
  intros Hnext.
  destruct (chat c) as [session|] eqn:Hchat;
    [destruct (toolsConfig config ≫= handleToolCall) as [dispatch|] eqn:Hd|].
  - rewrite (handleFunctionCalls_round config completion reply processNext calls c
               session dispatch Hchat Hd).
    set (responded := respond <$> completion _).
    assert (Hq : Forall quiet ([functionCallRequested calls] ++ responded.*1)).
    { apply Forall_app. split; [repeat constructor | apply responded_quiet]. }
    assert (Hstop : forall progress c3,
      emitted c3 = emitted c ++ [functionCallRequested calls] ++ responded.*1 ->
      is_Some (chat c3) ->
      match progress with Completed Normal => False | _ => True end ->
      processed c (c3, progress)).
    { intros progress c3 Hem Hopen Hp.
      exists ([functionCallRequested calls] ++ responded.*1). cbn [fst snd].
      split; [exact Hem|]. split; [|intros _; exact Hopen].
      destruct progress as [[|e]|]; [contradiction|exact Hq|exact Hq]. }
    destruct reply as [[nextResult|e]|].
    + match goal with |- context [processNext nextResult ?c3] =>
        destruct (Hnext nextResult c3 eq_refl) as [mid [Hem [Hshape Hchat']]];
        destruct (processNext nextResult c3) as [c4 done] end.
      cbn [fst snd] in *. cbn [emitted] in Hem.
      exists (([functionCallRequested calls] ++ responded.*1) ++ mid). cbn [fst snd].
      split; [rewrite Hem, <- !app_assoc; reflexivity|].
      split; [|intros _; apply Hchat'; eexists; reflexivity].
      destruct done as [[|e]|].
      * destruct Hshape as [mid' [t [-> Hq']]].
        exists (([functionCallRequested calls] ++ responded.*1) ++ mid'), t.
        split; [rewrite <- !app_assoc; reflexivity|].
        apply Forall_app. split; assumption.
      * apply Forall_app. split; assumption.
      * apply Forall_app. split; assumption.
    + apply Hstop; [reflexivity|eexists; reflexivity|exact I].
    + apply Hstop; [reflexivity|eexists; reflexivity|exact I].
  - unfold handleFunctionCalls. rewrite Hchat, Hd. apply processed_throw.
  - unfold handleFunctionCalls. rewrite Hchat. apply processed_throw.
Qed.

Lemma processApiResponse_processed pending : forall result (c : Client W),
  processed c (processApiResponse config completion pending result c).
Proof.
  induction pending as [|reply rest IH]; intros result c; cbn [processApiResponse];
    destruct (result ≫= result_response) as [resp|]; try apply processed_throw;
    destruct (functionCalls resp) as [[|fc more]|]; try apply processed_final;
    apply handleFunctionCalls_processed.
  - intros nextResult c0 H. discriminate.
  - intros nextResult c0 _. apply IH.
Qed.

(** When the endpoint at some point answers with something else than a
    request for tools, the processing completes. *)
Lemma processApiResponse_completes pending : forall result (c : Client W),
  concludes (Replies result :: pending) ->
  (processApiResponse config completion pending result c).2 <> Awaiting.
Proof.
  unfold concludes.
  induction pending as [|reply rest IH]; intros result c Hends;
    cbn [processApiResponse];
    apply Exists_cons in Hends; cbn [requested] in Hends;
    destruct (result ≫= result_response) as [resp|]; try discriminate;
    destruct (functionCalls resp) as [[|fc more]|]; try discriminate.
  - destruct Hends as [Hends|Hends]; [discriminate|inversion Hends].
  - destruct Hends as [Hends|Hends]; [discriminate|].
    unfold handleFunctionCalls.
    destruct (chat c); [|discriminate].
    destruct (toolsConfig config ≫= handleToolCall) as [dispatch|]; [|discriminate].
    destruct (dispatchAll dispatch (fc :: more) _) as [settled w].
    destruct reply as [nextResult|e]; [|discriminate].
    apply IH. exact Hends.
Qed.

(** When every reply asks for tools, the processing runs the batch of
    each and waits for the reply that has not come. *)
Lemma processApiResponse_waits dispatch pending :
  toolsConfig config ≫= handleToolCall = Some dispatch ->
  forall result (c : Client W),
    is_Some (chat c) ->
    Forall (fun reply => is_Some (requested reply)) (Replies result :: pending) ->
    exists mid,
      emitted (processApiResponse config completion pending result c).1 = emitted c ++ mid
      /\ filter (fun e => is_functionCallRequested e = true) mid
         = functionCallRequested <$> batches (Replies result :: pending)
      /\ length (batches (Replies result :: pending)) = S (length pending)
      /\ (processApiResponse config completion pending result c).2 = Awaiting.
Proof.
  intros Hd.
  assert (Hround : forall calls (l : list Settlement),
    filter (fun e => is_functionCallRequested e = true)
      ([functionCallRequested calls] ++ (respond <$> l).*1)
    = [functionCallRequested calls]).
  { intros calls l. rewrite filter_app, filter_cons_True, filter_nil by reflexivity.
    rewrite (filter_none is_functionCallRequested (respond <$> l).*1); [reflexivity|].
    eapply Forall_impl; [apply responded_events | intros e0 [H0 _]; exact H0]. }
  induction pending as [|reply rest IH]; intros result c [session Hchat] Hall;
    apply Forall_cons in Hall; destruct Hall as [Hfirst Hall];
    cbn [processApiResponse batches]; cbn [requested] in *;
    destruct (result ≫= result_response) as [resp|]; try (destruct Hfirst; discriminate);
    destruct (functionCalls resp) as [[|fc more]|]; try (destruct Hfirst; discriminate).
  - rewrite (handleFunctionCalls_round config completion None _ (fc :: more) c
               session dispatch Hchat Hd).
    eexists. cbn [fst snd emitted]. split; [reflexivity|].
    split; [apply Hround|]. split; reflexivity.
  - rewrite (handleFunctionCalls_round config completion (Some reply) _ (fc :: more) c
               session dispatch Hchat Hd).
    pose proof Hall as Hrest. apply Forall_cons in Hrest. destruct Hrest as [Hreply _].
    destruct reply as [nextResult|e]; [|destruct Hreply; discriminate].
    match goal with |- context [processApiResponse _ _ rest nextResult ?c3] =>
      destruct (IH nextResult c3 ltac:(eexists; reflexivity) Hall)
        as (mid & Hem & Hf & Hlen & Hwait) end.
    eexists. split; [rewrite Hem; cbn [emitted]; rewrite <- app_assoc; reflexivity|].
    split; [|split; [cbn [length]; f_equal; exact Hlen|exact Hwait]].
    rewrite filter_app, Hround, Hf. reflexivity.
Qed.

Lemma sendMessage_turn
    (c : Client W) (session : ChatSession) (pending : Endpoint) (userInput : string) :
  chat c = Some session ->
  concludes pending ->
  let c' := sendMessage config completion pending userInput c in
  exists middle text failure,
    emitted c' = emitted c ++ [thinking] ++ middle ++ [responseComplete text failure]
    /\ Forall quiet middle
    /\ (failure = None -> exists t, text = Some t)
    /\ (forall e, failure = Some e ->
          text = None
          /\ last middle = Some (error "Failed to get response from Gemini." (Some e)))
    /\ is_Some (chat c').
Proof.
  intros Hchat Hends c'. subst c'. unfold sendMessage. rewrite Hchat.
  set (c2 := set_chat _ (emit thinking c)).
  assert (Hc2 : emitted c2 = emitted c ++ [thinking]) by reflexivity.
  assert (Hfail : forall (c3 : Client W) mid e,
    emitted c3 = emitted c2 ++ mid -> Forall quiet mid -> is_Some (chat c3) ->
    exists middle text failure,
      emitted (emit (responseComplete None (Some e))
                 (emit (error "Failed to get response from Gemini." (Some e)) c3))
      = emitted c ++ [thinking] ++ middle ++ [responseComplete text failure]
      /\ Forall quiet middle
      /\ (failure = None -> exists t, text = Some t)
      /\ (forall e0, failure = Some e0 ->
            text = None
            /\ last middle = Some (error "Failed to get response from Gemini." (Some e0)))
      /\ is_Some (chat (emit (responseComplete None (Some e))
                          (emit (error "Failed to get response from Gemini." (Some e)) c3)))).
  { intros c3 mid e Hem Hq Hopen.
    exists (mid ++ [error "Failed to get response from Gemini." (Some e)]), None, (Some e).
    split; [cbn [emit emitted]; rewrite Hem, Hc2, <- !app_assoc; reflexivity|].
    split; [apply Forall_app; split; [exact Hq|repeat constructor]|].
    split; [discriminate|]. split; [|exact Hopen].
    intros e0 He0. inversion He0; subst. split; [reflexivity|apply last_snoc]. }
  assert (Hopen2 : is_Some (chat c2)) by (eexists; reflexivity).
  destruct pending as [|[result|e] rest].
  - inversion Hends.
  - pose proof (processApiResponse_completes rest result c2 Hends) as Hdone.
    destruct (processApiResponse_processed rest result c2) as [mid [Hem [Hshape Hopen]]].
    destruct (processApiResponse config completion rest result c2) as [c3 done].
    cbn [fst snd] in *. destruct done as [[|e]|]; [| |contradiction].
    + destruct Hshape as [mid' [t [-> Hq]]].
      exists mid', (Some t), None.
      split; [rewrite Hem, Hc2, <- !app_assoc; reflexivity|].
      split; [exact Hq|]. split; [eauto|]. split; [discriminate|auto].
    + apply (Hfail c3 mid e Hem Hshape). auto.
  - apply (Hfail c2 [] e); [rewrite app_nil_r; reflexivity|constructor|exact Hopen2].
Qed.

Lemma quiet_not_closing (events : list Event) :
  Forall quiet events -> filter (fun e => is_responseComplete e = true) events = [].
Proof.
  induction 1 as [|e events [He _] _ IH]; [reflexivity|].
  rewrite filter_cons. destruct (decide (is_responseComplete e = true)); [congruence|exact IH].
Qed.

(** A turn ends when the model stops asking, and not before. On an open
    session [sendMessage] emits [thinking] first. When the endpoint at
    some point answers with something else than a request for tools (a
    text, an invalid result, a failure), the turn ends with exactly one
    [responseComplete], its last event: with the model's text and no error
    when the turn succeeds; with no text and the error when anything on
    the way throws, right after the [error] event that reports it. When
    every reply the endpoint gives asks for tools, the turn runs one batch
    per reply, however many there are, and no [responseComplete] has been
    emitted: the round trips have no bound of their own. The session stays
    open throughout. The promises of the dispatched calls are taken to
    settle. *)
Theorem turn_ends_when_the_model_stops_asking
    (c : Client W) (session : ChatSession) (pending : Endpoint) (userInput : string) :
  chat c = Some session ->
  let c' := sendMessage config completion pending userInput c in
  let news := drop (length (emitted c)) (emitted c') in
  emitted c' = emitted c ++ news
  /\ (concludes pending ->
      (exists middle text failure,
         news = [thinking] ++ middle ++ [responseComplete text failure]
         /\ Forall quiet middle
         /\ (failure = None -> exists t, text = Some t)
         /\ (forall e, failure = Some e ->
               text = None
               /\ last middle = Some (error "Failed to get response from Gemini." (Some e))))
      /\ length (filter (fun e => is_responseComplete e = true) news) = 1)
  /\ (Forall (fun reply => is_Some (requested reply)) pending ->
      is_Some (toolsConfig config ≫= handleToolCall) ->
      exists middle,
        news = thinking :: middle
        /\ filter (fun e => is_responseComplete e = true) news = []
        /\ filter (fun e => is_functionCallRequested e = true) middle
           = functionCallRequested <$> batches pending
        /\ length (batches pending) = length pending)
  /\ is_Some (chat c').
Proof.
  intros Hchat c' news.
  assert (Hopen : is_Some (chat c')).
  { subst c'. unfold sendMessage. rewrite Hchat.
    set (c2 := set_chat _ (emit thinking c)).
    destruct pending as [|[result|e] rest]; try (eexists; reflexivity).
    destruct (processApiResponse_processed rest result c2) as [mid [_ [_ H]]].
    destruct (processApiResponse config completion rest result c2) as [c3 [[|e]|]];
      apply H; eexists; reflexivity. }
  assert (Hgrow : exists mid, emitted c' = emitted c ++ mid).
  { subst c'. unfold sendMessage. rewrite Hchat.
    set (c2 := set_chat _ (emit thinking c)).
    destruct pending as [|[result|e] rest].
    - exists [thinking]. reflexivity.
    - destruct (processApiResponse_processed rest result c2) as [mid [Hem _]].
      destruct (processApiResponse config completion rest result c2) as [c3 [[|e]|]];
        cbn [fst] in Hem; cbn [emit emitted]; rewrite Hem; cbn [c2 set_chat emit emitted];
        rewrite <- ?app_assoc; eexists; reflexivity.
    - cbn [emit emitted c2 set_chat]. rewrite <- !app_assoc. eexists; reflexivity. }
  destruct Hgrow as [mid Hgrow].
  assert (Hnews : news = mid) by (subst news; rewrite Hgrow, drop_app_length; reflexivity).
  split; [rewrite Hnews; exact Hgrow|]. split; [|split; [|exact Hopen]].
  - intros Hends.
    destruct (sendMessage_turn c session pending userInput Hchat Hends)
      as (middle & text & failure & Hshape & Hquiet & Htext & Hfailure & _).
    fold c' in Hshape.
    assert (Hmid : news = [thinking] ++ middle ++ [responseComplete text failure]).
    { subst news. rewrite Hshape, drop_app_length. reflexivity. }
    split; [exists middle, text, failure; auto|].
    rewrite Hmid, !filter_app, (quiet_not_closing middle Hquiet). reflexivity.
  - intros Hasks [dispatch Hd]. rewrite Hnews.
    assert (Hrun : emitted c' = emitted c ++ mid) by exact Hgrow.
    clear Hgrow Hnews. subst c'. unfold sendMessage in Hrun. rewrite Hchat in Hrun.
    set (c2 := set_chat _ (emit thinking c)) in Hrun.
    destruct pending as [|[result|e] rest].
    + cbn [emitted c2 set_chat emit] in Hrun. apply app_inv_head in Hrun. subst mid.
      exists []. repeat split.
    + destruct (processApiResponse_waits dispatch rest Hd result c2
                  ltac:(eexists; reflexivity) Hasks) as (more & Hem & Hf & Hlen & Hwait).
      destruct (processApiResponse_processed rest result c2) as [mid' [Hem' [Hshape _]]].
      destruct (processApiResponse config completion rest result c2) as [c3 progress].
      cbn [fst snd] in *. subst progress.
      rewrite Hem' in Hem. apply app_inv_head in Hem. subst mid'.
      rewrite Hem' in Hrun. cbn [c2 set_chat emit emitted] in Hrun.
      rewrite <- app_assoc in Hrun. apply app_inv_head in Hrun. subst mid.
      exists more. split; [reflexivity|]. split; [|split; [exact Hf|exact Hlen]].
      change (thinking :: more) with ([thinking] ++ more).
      rewrite filter_app, (quiet_not_closing more Hshape). reflexivity.
    + apply Forall_cons in Hasks. destruct Hasks as [[x Hx] _]. discriminate.
Qed.

Lemma answered_refl (c : Client W) : answered c c.
Proof.
  exists [], [], []. rewrite !app_nil_r. repeat split. constructor.
Qed.

Lemma answered_emit (c : Client W) e :
  is_functionCallRequested e = false -> answered c (emit e c).
Proof.
  intros H. exists [e], [], []. rewrite app_nil_r. repeat split; [|constructor].
  rewrite filter_cons_False by congruence. reflexivity.
Qed.

Lemma answered_emit_after (c c' : Client W) e :
  is_functionCallRequested e = false -> answered c c' -> answered c (emit e c').
Proof.
  intros H (events & batches & answers & Hem & Hf & Hreq & Hall).
  exists (events ++ [e]), batches, answers.
  split; [|split; [|split; [exact Hreq|exact Hall]]].
  - cbn [emit emitted]. rewrite Hem, <- app_assoc. reflexivity.
  - rewrite filter_app, (filter_cons_False _ e) by congruence.
    rewrite filter_nil, app_nil_r. exact Hf.
Qed.

Lemma respond_names (l : list Settlement) :
  fr_name <$> (respond <$> l).*2 = (fun s : Settlement => name s.1) <$> l.
Proof.
  induction l as [|[fc [v|e]] l IH]; [reflexivity| |]; cbn; f_equal; exact IH.
Qed.

Section Scheduled.
Hypothesis completion_permutes : forall l, Permutation (completion l) l.

Lemma round_answers_batch dispatch calls (w : W) :
  answers_batch calls (respond <$> completion (dispatchAll dispatch calls w).1).*2.
Proof.
  unfold answers_batch. rewrite respond_names.
  rewrite (completion_permutes (dispatchAll dispatch calls w).1).
  rewrite <- (dispatchAll_calls dispatch calls w) at 2.
  rewrite <- list_fmap_compose. reflexivity.
Qed.

Lemma handleFunctionCalls_answered reply processNext calls (c : Client W) :
  (forall nextResult c0, reply = Some (Replies nextResult) ->
     answered c0 (processNext nextResult c0).1) ->
  answered c (handleFunctionCalls config completion reply processNext calls c).1.
Proof.
  intros Hnext.
  destruct (chat c) as [session|] eqn:Hchat;
    [destruct (toolsConfig config ≫= handleToolCall) as [dispatch|] eqn:Hd|].
  - rewrite (handleFunctionCalls_round config completion reply processNext calls c
               session dispatch Hchat Hd).
    set (responded := respond <$> completion _).
    assert (Hround : forall c3 : Client W,
      emitted c3 = emitted c ++ [functionCallRequested calls] ++ responded.*1 ->
      requests c3 = requests c ++ [FunctionResponses responded.*2] ->
      forall c4, answered c3 c4 -> answered c c4).
    { intros c3 Hem3 Hreq3 c4 (events & batches & answers & Hem & Hf & Hreq & Hall).
      exists (([functionCallRequested calls] ++ responded.*1) ++ events),
        (calls :: batches), (responded.*2 :: answers).
      split; [rewrite Hem, Hem3, <- !app_assoc; reflexivity|].
      split; [|split].
      - rewrite !filter_app, filter_cons_True, filter_nil by reflexivity.
        rewrite (filter_none is_functionCallRequested responded.*1)
          by (eapply Forall_impl; [apply responded_events | intros e0 [H0 _]; exact H0]).
        rewrite Hf. reflexivity.
      - rewrite Hreq, Hreq3, <- app_assoc. reflexivity.
      - constructor; [apply round_answers_batch | exact Hall]. }
    destruct reply as [[nextResult|e]|].
    + match goal with |- context [processNext nextResult ?c3] =>
        apply (Hround c3); [reflexivity| |apply Hnext; reflexivity] end.
      unfold requests. cbn [chat]. rewrite Hchat. reflexivity.
    + cbn [fst].
      match goal with |- answered c ?c3 => apply (Hround c3); [reflexivity| |apply answered_refl] end.
      unfold requests. cbn [chat]. rewrite Hchat. reflexivity.
    + cbn [fst].
      match goal with |- answered c ?c3 => apply (Hround c3); [reflexivity| |apply answered_refl] end.
      unfold requests. cbn [chat]. rewrite Hchat. reflexivity.
  - unfold handleFunctionCalls. rewrite Hchat, Hd. apply answered_refl.
  - unfold handleFunctionCalls. rewrite Hchat. apply answered_refl.
Qed.

Lemma processApiResponse_answered pending : forall result (c : Client W),
  answered c (processApiResponse config completion pending result c).1.
Proof.
  induction pending as [|reply rest IH]; intros result c; cbn [processApiResponse];
    destruct (result ≫= result_response) as [resp|]; try apply answered_refl;
    destruct (functionCalls resp) as [[|fc more]|];
    try (apply answered_emit; reflexivity);
    apply handleFunctionCalls_answered.
  - intros nextResult c0 H. discriminate.
  - intros nextResult c0 _. apply IH.
Qed.

(** In every turn on an open session, the batches of tool calls announced
    by [functionCallRequested] and the function responses sent to the
    model alternate one for one: after the user's text, the requests made
    are exactly one answer per announced batch, in order, and each answer
    carries one part per call of its batch, named after it. A batch is
    never skipped, answered twice or answered in pieces, whatever the
    tools do and however the turn ends. *)
Theorem every_batch_is_answered_once
    (c : Client W) (session : ChatSession) (pending : Endpoint) (userInput : string) :
  chat c = Some session ->
  let c' := sendMessage config completion pending userInput c in
  exists events batches answers,
    emitted c' = emitted c ++ events
    /\ filter (fun e => is_functionCallRequested e = true) events
       = functionCallRequested <$> batches
    /\ requests c' = requests c ++ UserText userInput :: (FunctionResponses <$> answers)
    /\ Forall2 answers_batch batches answers.
Proof.
  intros Hchat c'. subst c'. unfold sendMessage. rewrite Hchat.
  set (c2 := set_chat _ (emit thinking c)).
  assert (Hdone : forall (c3 : Client W), answered c2 c3 ->
    exists events batches answers,
      emitted c3 = emitted c ++ events
      /\ filter (fun e => is_functionCallRequested e = true) events
         = functionCallRequested <$> batches
      /\ requests c3 = requests c ++ UserText userInput :: (FunctionResponses <$> answers)
      /\ Forall2 answers_batch batches answers).
  { intros c3 (events & batches & answers & Hem & Hf & Hreq & Hall).
    exists (thinking :: events), batches, answers.
    split; [|split; [|split; [|exact Hall]]].
    - rewrite Hem. unfold c2. cbn [set_chat emit emitted]. rewrite <- app_assoc. reflexivity.
    - rewrite filter_cons_False by (simpl; discriminate). exact Hf.
    - rewrite Hreq. unfold c2, requests. cbn [set_chat chat record_request sent].
      rewrite Hchat, <- app_assoc. reflexivity. }
  destruct pending as [|[result|e] rest].
  - apply Hdone. apply answered_refl.
  - pose proof (processApiResponse_answered rest result c2) as H.
    destruct (processApiResponse config completion rest result c2) as [c3 [[|e]|]];
      cbn [fst] in H; apply Hdone;
      [exact H | do 2 (apply answered_emit_after; [reflexivity|]); exact H | exact H].
  - apply Hdone. do 2 (apply answered_emit_after; [reflexivity|]). apply answered_refl.
Qed.

End Scheduled.

(** Without a session (before [initializeChat], or after [destroy]) a
    [sendMessage] reaches neither the model nor the tools: it emits the
    one [error] event that says so, and nothing else changes. *)
Theorem sendMessage_after_destroy (c : Client W) (pending : Endpoint) (userInput : string) :
  let gone := destroy c in
  let c' := sendMessage config completion pending userInput gone in
  emitted c' = emitted c ++ [error "Chat not initialized. Call initializeChat() first." None]
  /\ chat c' = None
  /\ requests c' = []
  /\ world c' = world c
  /\ destroy gone = gone
  /\ emitted (sendMessage config completion pending userInput (constructor (world c)))
     = [error "Chat not initialized. Call initializeChat() first." None].
Proof. repeat split. Qed.

End ModelSessionMore.

Section SpeechCaptureMore.
Import Js Stt.

Lemma tidy_constructor available construction language :
  tidy (constructor available construction language).
Proof.
  split; cbn; try reflexivity; try discriminate.
  - constructor.
  - intros p H. inversion H.
Qed.

Lemma tidy_settle p how (s : SpeechToTextService) :
  tidy s -> stopPromiseRejecter s = Some p ->
  tidy (set_stopPromise None (settle p how s)).
Proof.
  intros [Hsame Hpending Honce Hcreated Hev] Hp.
  destruct (Hpending p Hp) as [Hnew Hlt].
  split; cbn; try reflexivity; try discriminate; try assumption.
  - unfold settled in *. cbn. rewrite fmap_app. apply NoDup_app. split; [exact Honce|].
    split; [|apply NoDup_singleton]. intros x Hx Hx'. apply list_elem_of_singleton in Hx'.
    subst. contradiction.
  - unfold settled in *. cbn. rewrite fmap_app. intros q Hq.
    apply elem_of_app in Hq. destruct Hq as [Hq|Hq]; [apply Hcreated, Hq|].
    apply list_elem_of_singleton in Hq. subst. exact Hlt.
Qed.

Lemma tidy_reject reason (s : SpeechToTextService) :
  tidy s ->
  tidy (_rejectPendingStopPromise reason s)
  /\ stopPromiseRejecter (_rejectPendingStopPromise reason s) = None.
Proof.
  intros H. unfold _rejectPendingStopPromise.
  destruct (stopPromiseRejecter s) as [p|] eqn:Hp.
  - split; [apply tidy_settle; assumption | reflexivity].
  - split; [exact H | exact Hp].
Qed.

Lemma tidy_set_isListening b (s : SpeechToTextService) : tidy s -> tidy (set_isListening b s).
Proof. intros [? ? ? ? ?]. split; assumption. Qed.

Lemma tidy_set_finalTranscript t (s : SpeechToTextService) :
  tidy s -> tidy (set_finalTranscript t s).
Proof. intros [? ? ? ? ?]. split; assumption. Qed.

Lemma tidy_set_recognition r (s : SpeechToTextService) : tidy s -> tidy (set_recognition r s).
Proof. intros [? ? ? ? ?]. split; assumption. Qed.

Lemma tidy_command cmd (s : SpeechToTextService) : tidy s -> tidy (command cmd s).
Proof.
  intros H. unfold command. destruct (recognition s); [|exact H].
  apply tidy_set_recognition, H.
Qed.

Lemma stopPromiseRejecter_command cmd (s : SpeechToTextService) :
  stopPromiseRejecter (command cmd s) = stopPromiseRejecter s.
Proof. unfold command. destruct (recognition s); reflexivity. Qed.

Lemma isListening_command cmd (s : SpeechToTextService) :
  isListening (command cmd s) = isListening s.
Proof. unfold command. destruct (recognition s); reflexivity. Qed.

Lemma events_emit_state name payload (s : SpeechToTextService) :
  tidy s -> (events_emit name payload s).1 = s.
Proof. intros H. unfold events_emit. rewrite (no_emitter s H). reflexivity. Qed.

Lemma consistent_cleared (s : SpeechToTextService) :
  tidy s -> stopPromiseRejecter s = None -> consistent s.
Proof. intros H Hp. split; [exact H|]. intros p Hp'. congruence. Qed.

Lemma consistent_onError error (s : SpeechToTextService) :
  tidy s -> consistent (_onError error s).1.
Proof.
  intros H. unfold _onError.
  destruct (tidy_reject (thrown_string error) (set_isListening false s)
              (tidy_set_isListening false s H)) as [Ht Hp].
  rewrite events_emit_state by exact Ht. apply consistent_cleared; assumption.
Qed.

Lemma consistent_onEnd (s : SpeechToTextService) : tidy s -> consistent (_onEnd s).
Proof.
  intros H. apply consistent_cleared; [|reflexivity]. unfold _onEnd.
  pose proof (same_promise s H) as Hsame.
  cbn [set_isListening stopPromiseResolver stopPromiseRejecter].
  destruct (stopPromiseRejecter s) as [p|] eqn:Hp; rewrite Hsame.
  - apply (tidy_settle p _ (set_isListening false s)); [apply tidy_set_isListening, H|exact Hp].
  - destruct H as [? ? ? ? ?]. split; cbn; try reflexivity; try discriminate; assumption.
Qed.

Lemma consistent_start started (s : SpeechToTextService) :
  consistent s -> consistent (start started s).1.
Proof.
  intros Hc. pose proof Hc as [H Hl]. unfold start.
  destruct (recognition s); [|exact Hc].
  destruct (isListening s) eqn:El; [exact Hc|].
  destruct (tidy_reject (NonError "New recognition started before previous stop completed.")
              (set_finalTranscript "" s) (tidy_set_finalTranscript "" s H)) as [Ht Hp].
  destruct started as [|e]; cbn [fst].
  - apply consistent_cleared; [apply tidy_command, Ht|].
    rewrite stopPromiseRejecter_command. exact Hp.
  - apply consistent_onError, Ht.
Qed.

Lemma consistent_stop stopped (s : SpeechToTextService) :
  consistent s -> consistent (stop stopped s).1.
Proof.
  intros Hc. pose proof Hc as [H Hl]. unfold stop.
  destruct (recognition s) eqn:Hr; [|exact Hc].
  destruct (isListening s) eqn:El; [|exact Hc].
  assert (Hnew : tidy (set_stopPromise (Some (promises s)) (new_promise s).2)).
  { destruct H as [Hsame Hpending Honce Hcreated Hev].
    split; cbn; try reflexivity; try assumption.
    - intros p Hp. inversion Hp; subst. split; [|lia].
      intros Hin. apply Hcreated in Hin. lia.
    - intros p Hp. apply Hcreated in Hp. lia. }
  cbn [new_promise]. destruct stopped as [|e]; cbn [fst].
  - split; [apply tidy_command, Hnew|]. intros p _.
    rewrite isListening_command. exact El.
  - destruct (tidy_reject e _ Hnew) as [Ht Hp]. apply consistent_cleared; assumption.
Qed.

Lemma consistent_abort aborted (s : SpeechToTextService) :
  consistent s -> consistent (abort aborted s).
Proof.
  intros Hc. pose proof Hc as [H Hl]. unfold abort.
  destruct (recognition s); [|exact Hc].
  destruct (isListening s); [|exact Hc].
  destruct aborted as [|e].
  - destruct (tidy_reject (NonError "Recognition aborted by user.") _
                (tidy_command cmd_abort s H)) as [Ht Hp].
    apply consistent_cleared; assumption.
  - destruct (tidy_reject e s H) as [Ht Hp]. apply consistent_cleared; assumption.
Qed.

Lemma consistent_destroy (s : SpeechToTextService) : tidy s -> consistent (destroy s).
Proof.
  intros H. unfold destroy.
  match goal with |- consistent (_rejectPendingStopPromise ?r ?s1) =>
    assert (Hs1 : tidy s1) end.
  { destruct (recognition s); [|exact H]. apply tidy_set_recognition.
    destruct (isListening s); [apply tidy_command|]; exact H. }
  destruct (tidy_reject (NonError "Service destroyed") _ Hs1) as [Ht Hp].
  apply consistent_cleared; assumption.
Qed.

Lemma consistent_step (s : SpeechToTextService) (a : Action) :
  consistent s -> consistent (step s a).
Proof.
  intros H. destruct a; cbn [step].
  - apply consistent_start, H.
  - apply consistent_stop, H.
  - apply consistent_abort, H.
  - apply consistent_destroy, H.
  - destruct (isSupported s); [|exact H]. destruct H as [[? ? ? ? ?] Hl].
    split; [split; assumption|]. intros p _. reflexivity.
  - destruct (isSupported s); [|exact H]. destruct H as [H Hl].
    unfold _onResult. destruct (foldl accumulate _ _) as [final interim].
    rewrite events_emit_state by (apply tidy_set_finalTranscript, H).
    split; [apply tidy_set_finalTranscript, H | exact Hl].
  - destruct (isSupported s); [|exact H]. apply consistent_onError, H.
  - destruct (isSupported s); [|exact H]. apply consistent_onEnd, H.
Qed.

(** In every state the service can reach from its construction, through
    any calls of [start], [stop], [abort] and [destroy] and any events of
    the recognizer, in any order: the two stored handlers belong to the
    same promise; a promise is pending only while the service is
    listening; the pending promise has not been settled; and no promise
    returned by [stop()] is ever settled twice. *)
Theorem capture_bookkeeping (actions : list Action)
    (available : bool) (construction : Completion) (language : string) :
  let s := run actions (constructor available construction language) in
  stopPromiseResolver s = stopPromiseRejecter s
  /\ (forall p, stopPromiseRejecter s = Some p ->
        isListening s = true /\ (p ∉ settled s) /\ p < promises s)
  /\ NoDup (settled s)
  /\ (forall started, settlements (start started s).1 = settlements s).
Proof.
  intros s.
  assert (H : consistent s).
  { subst s. unfold run. induction actions as [|a actions IH] using rev_ind.
    - apply consistent_cleared; [apply tidy_constructor|reflexivity].
    - rewrite foldl_app. cbn [foldl]. apply consistent_step, IH. }
  destruct H as [[Hsame Hpending Honce Hcreated Hev] Hl].
  split; [exact Hsame|]. split; [|split; [exact Honce|]].
  - intros p Hp. split; [apply (Hl p Hp)|apply Hpending, Hp].
  - intros started. clearbody s.
    assert (Hnone : isListening s = false -> stopPromiseRejecter s = None).
    { intros El. destruct (stopPromiseRejecter s) as [p|] eqn:Hp; [|reflexivity].
      specialize (Hl p eq_refl). congruence. }
    clear -Hnone Hev.
    destruct s as [[r|] [|] t resolver rejecter emitter n record]; cbn in *;
      try reflexivity.
    rewrite (Hnone eq_refl), Hev. destruct started; reflexivity.
Qed.

Lemma trimStart_idempotent l : trimStart (trimStart l) = trimStart l.
Proof.
  induction l as [|c l IH]; [reflexivity|]. cbn [trimStart].
  destruct (is_white_space c) eqn:E; [exact IH|]. cbn [trimStart]. rewrite E. reflexivity.
Qed.

Lemma trimStart_head l c rest : trimStart l = c :: rest -> is_white_space c = false.
Proof.
  induction l as [|a l IH]; [discriminate|]. cbn [trimStart].
  destruct (is_white_space a) eqn:E; [exact IH|]. intros H. inversion H; subst. exact E.
Qed.

Lemma trimStart_snoc l c :
  is_white_space c = false -> trimStart (l ++ [c]) = trimStart l ++ [c].
Proof.
  intros Hc. induction l as [|a l IH]; cbn [app trimStart]; [rewrite Hc; reflexivity|].
  destruct (is_white_space a); [exact IH|reflexivity].
Qed.

(** [trim] leaves nothing to trim. *)
Lemma trim_idempotent (s : string) : trim (trim s) = trim s.
Proof.
  unfold trim. rewrite list_ascii_of_string_of_list_ascii. f_equal.
  destruct (trimStart (list_ascii_of_string s)) as [|c x] eqn:E; [reflexivity|].
  pose proof (trimStart_head _ _ _ E) as Hc.
  cbn [rev]. change (List.rev x) with (rev x).
  rewrite (trimStart_snoc _ c Hc), rev_app_distr. cbn [rev app].
  cbn [trimStart]. rewrite Hc. cbn [rev]. rewrite rev_involutive.
  rewrite (trimStart_snoc _ c Hc), trimStart_idempotent, rev_app_distr. reflexivity.
Qed.

Lemma list_find_fresh (p : PromiseId) (how : Settled string)
    (record : list (PromiseId * Settled string)) :
  p ∉ record.*1 ->
  list_find (fun entry => entry.1 = p) (record ++ [(p, how)])
  = Some (length record, (p, how)).
Proof.
  induction record as [|[q h] record IH]; intros Hnot.
  - cbn. rewrite decide_True by reflexivity. reflexivity.
  - cbn [app list_find]. cbn in Hnot. apply not_elem_of_cons in Hnot.
    destruct Hnot as [Hne Hnot]. cbn [fst]. rewrite decide_False by congruence.
    rewrite (IH Hnot). reflexivity.
Qed.

Lemma settlement_fresh p how (s : SpeechToTextService) :
  p ∉ settled s -> settlement p (set_stopPromise None (settle p how s)) = Some how.
Proof.
  intros H. unfold settlement. cbn. rewrite (list_find_fresh p how _ H). reflexivity.
Qed.

Lemma settlement_None p (s : SpeechToTextService) : p ∉ settled s -> settlement p s = None.
Proof.
  intros H. unfold settlement.
  destruct (list_find _ _) as [[i [q h]]|] eqn:E; [|reflexivity].
  apply list_find_Some in E. destruct E as [Hi [Hq _]]. cbn in Hq. subst q.
  exfalso. apply H. unfold settled. apply list_elem_of_fmap. exists (p, h).
  split; [reflexivity|]. apply list_elem_of_lookup. eauto.
Qed.

(** Result events change the transcript and nothing else. *)
Lemma run_results (results : list SpeechRecognitionEvent) : forall s : SpeechToTextService,
  tidy s -> isSupported s = true ->
  let s' := run (fire_result <$> results) s in
  tidy s'
  /\ isSupported s' = true
  /\ isListening s' = isListening s
  /\ stopPromiseResolver s' = stopPromiseResolver s
  /\ stopPromiseRejecter s' = stopPromiseRejecter s
  /\ settlements s' = settlements s
  /\ promises s' = promises s.
Proof.
  induction results as [|event results IH]; intros s Ht Hsup;
    [split; [exact Ht|split; [exact Hsup|repeat split]]|].
  cbn [fmap list_fmap run foldl step]. rewrite Hsup.
  assert (Hstep : (_onResult event s).1
                  = set_finalTranscript (finalTranscript (_onResult event s).1) s).
  { unfold _onResult. destruct (foldl accumulate _ _) as [final interim].
    rewrite events_emit_state by (apply tidy_set_finalTranscript, Ht). reflexivity. }
  rewrite Hstep.
  destruct (IH (set_finalTranscript (finalTranscript (_onResult event s).1) s))
    as (H1 & H2 & H3 & H4 & H5 & H6 & H7);
    [apply tidy_set_finalTranscript, Ht | exact Hsup |].
  split; [exact H1|split; [exact H2|]]. repeat split; assumption.
Qed.

Lemma onEnd_idle (s : SpeechToTextService) :
  isListening (_onEnd s) = false
  /\ stopPromiseResolver (_onEnd s) = None
  /\ stopPromiseRejecter (_onEnd s) = None.
Proof.
  unfold _onEnd. cbn.
  destruct (stopPromiseResolver s), (stopPromiseRejecter s); repeat split.
Qed.

Lemma stop_then_end (s : SpeechToTextService)
    (results : list SpeechRecognitionEvent) :
  consistent s -> isSupported s = true -> isListening s = true ->
  let p := promises s in
  let stopping := (stop Normal s).1 in
  let heard := run (fire_result <$> results) stopping in
  let ended := step heard fire_end in
  (stop Normal s).2 = Pending p
  /\ settlement p heard = None
  /\ settlement p ended = Some (Resolved (trim (finalTranscript heard)))
  /\ isSupported heard = true.
Proof.
  intros [Ht Hl] Hsup Hlisten p stopping heard ended.
  assert (Hstop : stop Normal s
                  = (command cmd_stop (set_stopPromise (Some p) (new_promise s).2), Pending p)).
  { unfold stop, isSupported in *. destruct (recognition s); [|discriminate].
    rewrite Hlisten. reflexivity. }
  assert (Hfresh : p ∉ settled s).
  { intros Hin. apply (settled_were_created s Ht) in Hin. unfold p in Hin. lia. }
  assert (Hts : tidy stopping /\ isSupported stopping = true
                /\ stopPromiseResolver stopping = Some p
                /\ stopPromiseRejecter stopping = Some p
                /\ settlements stopping = settlements s).
  { pose proof (consistent_stop Normal s (conj Ht Hl)) as [Hts _].
    fold stopping in Hts. split; [exact Hts|].
    unfold stopping, p. clear -Hsup Hlisten.
    destruct s as [[r|] l t rs rj ev n st]; cbn in *; [|discriminate].
    subst l. repeat split. }
  destruct Hts as (Hts & Hsups & Hres & Hrej & Hset).
  destruct (run_results results stopping Hts Hsups) as (Hth & Hsuph & _ & Hresh & Hrejh & Hseth & _).
  fold heard in Hth, Hsuph, Hresh, Hrejh, Hseth.
  assert (Hfreshh : p ∉ settled heard).
  { unfold settled. rewrite Hseth, Hset. exact Hfresh. }
  split; [rewrite Hstop; reflexivity|]. split; [apply settlement_None, Hfreshh|].
  split; [|exact Hsuph].
  unfold ended. cbn [step]. rewrite Hsuph. unfold _onEnd.
  cbn [set_isListening stopPromiseResolver stopPromiseRejecter finalTranscript].
  rewrite Hresh, Hres.
  apply (settlement_fresh p _ (set_isListening false heard)). exact Hfreshh.
Qed.

(** [stop()] on a listening service returns a new pending promise. It
    stays pending while results keep arriving, and the recognizer's [end]
    event resolves it with the transcript accumulated by then, trimmed:
    what the caller receives has no white space left at either end. The
    service is then idle, with nothing pending. *)
Theorem stop_resolves_at_end (s : SpeechToTextService)
    (results : list SpeechRecognitionEvent) :
  consistent s -> isSupported s = true -> isListening s = true ->
  let p := promises s in
  let stopping := (stop Normal s).1 in
  let heard := run (fire_result <$> results) stopping in
  let ended := step heard fire_end in
  (stop Normal s).2 = Pending p
  /\ settlement p heard = None
  /\ settlement p ended = Some (Resolved (trim (finalTranscript heard)))
  /\ trim (trim (finalTranscript heard)) = trim (finalTranscript heard)
  /\ isListening ended = false
  /\ stopPromiseResolver ended = None
  /\ stopPromiseRejecter ended = None.
Proof.
  intros Hc Hsup Hlisten p stopping heard ended.
  destruct (stop_then_end s results Hc Hsup Hlisten) as (Hpending & Hnone & Hresolved & Hsuph).
  fold p stopping heard ended in Hpending, Hnone, Hresolved, Hsuph.
  split; [exact Hpending|]. split; [exact Hnone|]. split; [exact Hresolved|].
  split; [apply trim_idempotent|].
  unfold ended. cbn [step]. rewrite Hsuph. apply onEnd_idle.
Qed.

Lemma abandoned_settle p q how (s : SpeechToTextService) :
  abandoned p s -> q <> p -> abandoned p (set_stopPromise None (settle q how s)).
Proof.
  intros (Hlt & Hnot & Hres & Hrej) Hne. unfold abandoned, settled in *. cbn.
  rewrite fmap_app. repeat split; try assumption; try discriminate.
  intros Hin. apply elem_of_app in Hin. destruct Hin as [Hin|Hin]; [contradiction|].
  apply list_elem_of_singleton in Hin. cbn in Hin. congruence.
Qed.

Lemma abandoned_reject p reason (s : SpeechToTextService) :
  abandoned p s -> abandoned p (_rejectPendingStopPromise reason s).
Proof.
  intros H. unfold _rejectPendingStopPromise.
  destruct (stopPromiseRejecter s) as [q|] eqn:Hq; [|exact H].
  apply abandoned_settle; [exact H|]. destruct H as (_ & _ & _ & Hrej). congruence.
Qed.

Lemma abandoned_fields p (s s' : SpeechToTextService) :
  promises s' = promises s -> settlements s' = settlements s ->
  stopPromiseResolver s' = stopPromiseResolver s ->
  stopPromiseRejecter s' = stopPromiseRejecter s ->
  abandoned p s -> abandoned p s'.
Proof. unfold abandoned, settled. intros -> -> -> ->. tauto. Qed.

Lemma abandoned_command p cmd (s : SpeechToTextService) :
  abandoned p s -> abandoned p (command cmd s).
Proof.
  apply abandoned_fields; unfold command; destruct (recognition s); reflexivity.
Qed.

Lemma abandoned_events_emit p name payload (s : SpeechToTextService) :
  abandoned p s -> abandoned p (events_emit name payload s).1.
Proof.
  apply abandoned_fields; unfold events_emit; destruct (events s); reflexivity.
Qed.

Lemma abandoned_onError p error (s : SpeechToTextService) :
  abandoned p s -> abandoned p (_onError error s).1.
Proof.
  intros H. unfold _onError. apply abandoned_events_emit, abandoned_reject.
  revert H. apply abandoned_fields; reflexivity.
Qed.

(** Once abandoned, always abandoned: nothing the caller or the recognizer
    does settles such a promise. *)
Lemma abandoned_step p (s : SpeechToTextService) (a : Action) :
  abandoned p s -> abandoned p (step s a).
Proof.
  intros H. destruct a; cbn [step].
  - unfold start. destruct (recognition s); [|exact H].
    destruct (isListening s); [exact H|].
    destruct started; cbn [fst];
      [apply abandoned_command | apply abandoned_onError];
      apply abandoned_reject; revert H; apply abandoned_fields; reflexivity.
  - unfold stop. destruct (recognition s); [|exact H].
    destruct (isListening s); [|exact H].
    assert (Hnew : abandoned p (set_stopPromise (Some (promises s)) (new_promise s).2)).
    { destruct H as (Hlt & Hnot & Hres & Hrej). unfold abandoned, settled in *. cbn.
      repeat split; [lia|exact Hnot| |]; intros Heq; inversion Heq; lia. }
    cbn [new_promise]. destruct stopped; cbn [fst];
      [apply abandoned_command | apply abandoned_reject]; exact Hnew.
  - unfold abort. destruct (recognition s); [|exact H].
    destruct (isListening s); [|exact H].
    destruct aborted; [apply abandoned_reject, abandoned_command|apply abandoned_reject];
      exact H.
  - unfold destroy. apply abandoned_reject.
    destruct (recognition s); [|exact H].
    destruct (isListening s);
      [apply (abandoned_fields p (command cmd_abort s)); try reflexivity;
       apply abandoned_command|];
      revert H; apply abandoned_fields; reflexivity.
  - destruct (isSupported s); [|exact H]. revert H. apply abandoned_fields; reflexivity.
  - destruct (isSupported s); [|exact H]. unfold _onResult.
    destruct (foldl accumulate _ _) as [final interim].
    apply abandoned_events_emit. revert H. apply abandoned_fields; reflexivity.
  - destruct (isSupported s); [|exact H]. apply abandoned_onError, H.
  - destruct (isSupported s); [|exact H]. unfold _onEnd.
    cbn [set_isListening stopPromiseResolver stopPromiseRejecter].
    destruct H as (Hlt & Hnot & Hres & Hrej).
    destruct (stopPromiseResolver s) as [q|] eqn:Hq;
      [|destruct (stopPromiseRejecter s) as [q|] eqn:Hq'].
    + apply abandoned_settle; [|congruence]. unfold abandoned, settled. cbn. rewrite Hq. tauto.
    + apply abandoned_settle; [|congruence].
      unfold abandoned, settled. cbn. rewrite Hq, Hq'. tauto.
    + unfold abandoned, settled. cbn. repeat split; try assumption; discriminate.
Qed.

Lemma abandoned_run p (actions : list Action) : forall s : SpeechToTextService,
  abandoned p s -> abandoned p (run actions s).
Proof.
  induction actions as [|a actions IH]; intros s H; [exact H|].
  cbn [run foldl]. apply IH, abandoned_step, H.
Qed.

(** A second [stop()] while the first one's promise is still pending takes
    over the stored handlers: the first promise comes back pending and is
    never settled afterwards, whatever happens next. Only the second
    caller hears from the service. *)
Theorem second_stop_orphans_first (s : SpeechToTextService)
    (stopped : Completion) (later : list Action) :
  consistent s -> isSupported s = true -> isListening s = true ->
  let first := promises s in
  let once := (stop Normal s).1 in
  let twice := (stop stopped once).1 in
  (stop Normal s).2 = Pending first
  /\ (stop stopped once).2 = Pending (S first)
  /\ settlement first (run later twice) = None.
Proof.
  intros [Ht _] Hsup Hlisten first once twice.
  assert (Hfresh : first ∉ settled s).
  { intros Hin. apply (settled_were_created s Ht) in Hin. unfold first in Hin. lia. }
  assert (Habandoned : abandoned first twice
                       /\ (stop Normal s).2 = Pending first
                       /\ (stop stopped once).2 = Pending (S first)).
  { unfold twice, once, first, abandoned, settled in *. clear -Hsup Hlisten Hfresh.
    destruct s as [[r|] l t rs rj ev n st]; cbn in *; [|discriminate]. subst l.
    destruct stopped; cbn; (split; [|split; reflexivity]);
      (split; [lia|]); (split; [|split; intros Heq; inversion Heq; lia]);
      [exact Hfresh|].
    rewrite fmap_app. intros Hin. apply elem_of_app in Hin.
    destruct Hin as [Hin|Hin]; [contradiction|].
    apply list_elem_of_singleton in Hin. cbn in Hin. lia. }
  destruct Habandoned as (Hab & H1 & H2).
  split; [exact H1|split; [exact H2|]].
  apply settlement_None. apply (abandoned_run first later twice Hab).
Qed.

Lemma settlement_kept p (s s' : SpeechToTextService) :
  settlements s' = settlements s -> settlement p s' = settlement p s.
Proof. unfold settlement. intros ->. reflexivity. Qed.

(** [abort()] on a listening service rejects the pending [stop()] promise
    with the abort reason, at once. It does not clear the listening flag:
    until the recognizer's [end] event arrives a [start()] is refused as
    already active. The [end] event then settles nothing more and leaves
    the service idle. *)
Theorem abort_rejects_pending_stop (s : SpeechToTextService) (started : Completion) :
  consistent s -> isSupported s = true -> isListening s = true ->
  let p := promises s in
  let stopping := (stop Normal s).1 in
  let aborted := abort Normal stopping in
  let ended := step aborted fire_end in
  settlement p aborted = Some (Rejected (NonError "Recognition aborted by user."))
  /\ isListening aborted = true
  /\ start started aborted = (aborted, Normal)
  /\ settlements ended = settlements aborted
  /\ isListening ended = false.
Proof.
  intros [Ht _] Hsup Hlisten p stopping aborted ended.
  assert (Hfresh : p ∉ settled s).
  { intros Hin. apply (settled_were_created s Ht) in Hin. unfold p in Hin. lia. }
  unfold ended, aborted, stopping, p, settled in *. clear -Hsup Hlisten Hfresh.
  destruct s as [[r|] l t rs rj ev n st]; cbn in *; [|discriminate]. subst l.
  split; [|repeat split].
  unfold settlement. cbn. rewrite (list_find_fresh n _ st Hfresh). reflexivity.
Qed.


Lemma start_Normal (s : SpeechToTextService) : (start Normal s).2 = Normal.
Proof.
  unfold start. destruct (recognition s); [|reflexivity].
  destruct (isListening s); reflexivity.
Qed.

Lemma finalTranscript_results (results : list SpeechRecognitionEvent) :
  forall s : SpeechToTextService,
  tidy s -> isSupported s = true ->
  finalTranscript (run (fire_result <$> results) s) = heard results (finalTranscript s).
Proof.
  induction results as [|event results IH]; intros s Ht Hsup; [reflexivity|].
  cbn [fmap list_fmap run foldl step heard]. rewrite Hsup.
  assert (Hstep : (_onResult event s).1
                  = set_finalTranscript
                      (foldl accumulate (finalTranscript s, "")
                         (drop (resultIndex event) (Stt.results event))).1 s).
  { unfold _onResult. destruct (foldl accumulate _ _) as [final interim].
    rewrite events_emit_state by (apply tidy_set_finalTranscript, Ht). reflexivity. }
  rewrite Hstep. apply (IH (set_finalTranscript _ s)); [apply tidy_set_finalTranscript, Ht|].
  exact Hsup.
Qed.

Lemma heard_app (events events' : list SpeechRecognitionEvent) (before : string) :
  heard (events ++ events') before = heard events' (heard events before).
Proof. apply foldl_app. Qed.

(** A service that is idle starts listening: [start()], then the
    recognizer's [start] event. *)
Lemma start_from_idle (s : SpeechToTextService) :
  consistent s -> isSupported s = true -> isListening s = false ->
  let listening := step (start Normal s).1 fire_start in
  consistent listening /\ isSupported listening = true /\ isListening listening = true
  /\ finalTranscript listening = "" /\ promises listening = promises s.
Proof.
  intros Hc Hsup Hidle listening.
  assert (Hl : consistent listening).
  { apply consistent_step. apply (consistent_step s (call_start Normal)), Hc. }
  split; [exact Hl|]. subst listening. clear Hl.
  destruct Hc as [Ht Hp].
  assert (Hnone : stopPromiseRejecter s = None).
  { destruct (stopPromiseRejecter s) as [p|] eqn:E; [|reflexivity].
    specialize (Hp p eq_refl). congruence. }
  destruct s as [[r|] l t rs rj ev n st]; cbn in *; [|discriminate].
  subst l rj. cbn. repeat split.
Qed.

Lemma stop_keeps (stopped : Completion) (s : SpeechToTextService) :
  finalTranscript (stop stopped s).1 = finalTranscript s
  /\ isSupported (stop stopped s).1 = isSupported s.
Proof.
  destruct s as [[r|] l t rs rj ev n st]; [|split; reflexivity].
  destruct l; [|split; reflexivity]. destruct stopped; split; reflexivity.
Qed.

Lemma consistent_run (actions : list Action) (s : SpeechToTextService) :
  consistent s -> consistent (run actions s).
Proof.
  unfold run. revert s. induction actions as [|a actions IH]; intros s H; [exact H|].
  cbn [foldl]. apply IH, consistent_step, H.
Qed.

End SpeechCaptureMore.

Section SpeechOutputMore.
Import Js Tts.

Lemma find_first {A} (f : A -> bool) (l : list A) (x : A) :
  find f l = Some x -> x ∈ l /\ f x = true.
Proof.
  intros H. apply find_some in H. destruct H as [Hin Hf].
  split; [apply list_elem_of_In, Hin | exact Hf].
Qed.

Lemma find_nowhere {A} (f : A -> bool) (l : list A) :
  find f l = None <-> forall x, x ∈ l -> f x = false.
Proof.
  split.
  - intros H x Hx. apply (find_none f l H). apply list_elem_of_In, Hx.
  - intros H. induction l as [|a l IH]; [reflexivity|]. cbn [find].
    rewrite (H a) by (left). apply IH. intros x Hx. apply H. right. exact Hx.
Qed.

Lemma find_somewhere {A} (f : A -> bool) (l : list A) (x : A) :
  x ∈ l -> f x = true -> exists y, find f l = Some y.
Proof.
  intros Hin Hf. destruct (find f l) as [y|] eqn:E; [eauto|].
  rewrite (proj1 (find_nowhere f l) E x Hin) in Hf. discriminate.
Qed.

(** [find] answers with the first element that passes the test: the one
    before which none passes. *)
Lemma find_at_first {A} (f : A -> bool) (before after : list A) (x : A) :
  f x = true -> (forall y, y ∈ before -> f y = false) ->
  find f (before ++ x :: after) = Some x.
Proof.
  intros Hx. induction before as [|b before IH]; intros Hnone; cbn [app find].
  - rewrite Hx. reflexivity.
  - rewrite (Hnone b) by left. apply IH. intros y Hy. apply Hnone. right. exact Hy.
Qed.

Lemma find_is_first {A} (f : A -> bool) (l : list A) (x : A) :
  find f l = Some x ->
  exists before after,
    l = before ++ x :: after /\ f x = true /\ forall y, y ∈ before -> f y = false.
Proof.
  induction l as [|a l IH]; [discriminate|]. cbn [find].
  destruct (f a) eqn:E.
  - intros H. inversion H; subst. exists [], l. split; [reflexivity|].
    split; [exact E|]. intros y Hy. inversion Hy.
  - intros H. destruct (IH H) as (before & after & -> & Hx & Hnone).
    exists (a :: before), after. split; [reflexivity|]. split; [exact Hx|].
    intros y Hy. apply elem_of_cons in Hy. destruct Hy as [->|Hy]; [exact E|apply Hnone, Hy].
Qed.

(** The default voice. It is always one of the loaded voices, and none
    only when no voice is loaded. The first voice with the target name
    wins; when no voice has the name, the first voice of the fallback
    locale; when none has that either, the first voice whose language tag
    starts with the prefix; and with none of those, the first voice of
    all. First is in the order of the loaded voices: the voice before
    which no voice passes the same test. *)
Theorem default_voice_policy (voices : list SpeechSynthesisVoice) :
  let named v := String.eqb (name v) targetVoiceNameUK in
  let local v := String.eqb (lang v) targetLangFallback in
  let english v := String_startsWith (lang v) targetLangPrefix in
  let first_that (passes : SpeechSynthesisVoice -> bool) (v : SpeechSynthesisVoice) :=
    exists before after,
      voices = before ++ v :: after
      /\ passes v = true /\ forall x, x ∈ before -> passes x = false in
  let none (passes : SpeechSynthesisVoice -> bool) :=
    forall x, x ∈ voices -> passes x = false in
  (_selectDefaultVoice voices = None <-> voices = [])
  /\ (forall v, _selectDefaultVoice voices = Some v -> v ∈ voices)
  /\ (forall v, first_that named v -> _selectDefaultVoice voices = Some v)
  /\ (none named ->
      forall v, first_that local v -> _selectDefaultVoice voices = Some v)
  /\ (none named -> none local ->
      forall v, first_that english v -> _selectDefaultVoice voices = Some v)
  /\ (none named -> none local -> none english ->
      _selectDefaultVoice voices = head voices)
  /\ (forall v, _selectDefaultVoice voices = Some v ->
        first_that named v
        \/ (none named /\ first_that local v)
        \/ (none named /\ none local /\ first_that english v)
        \/ (none named /\ none local /\ none english /\ head voices = Some v)).
Proof.
  intros named local english first_that none. unfold _selectDefaultVoice.
  fold named local english.
  split; [|split; [|split; [|split; [|split; [|split]]]]].
  - split.
    + destruct (find named voices) eqn:E1; [discriminate|].
      destruct (find local voices) eqn:E2; [discriminate|].
      destruct (find english voices) eqn:E3; [discriminate|].
      destruct voices; [reflexivity|discriminate].
    + intros ->. reflexivity.
  - intros v.
    destruct (find named voices) eqn:E1;
      [intros H; inversion H; subst; apply (find_first _ _ _ E1)|].
    destruct (find local voices) eqn:E2;
      [intros H; inversion H; subst; apply (find_first _ _ _ E2)|].
    destruct (find english voices) eqn:E3;
      [intros H; inversion H; subst; apply (find_first _ _ _ E3)|].
    destruct voices; [discriminate|]. intros H. inversion H; subst. left.
  - intros v (before & after & Hsplit & Hv & Hbefore).
    rewrite Hsplit at 1. rewrite (find_at_first named before after v Hv Hbefore). reflexivity.
  - intros Hnone v (before & after & Hsplit & Hv & Hbefore).
    rewrite (proj2 (find_nowhere named voices) Hnone).
    rewrite Hsplit at 1. rewrite (find_at_first local before after v Hv Hbefore). reflexivity.
  - intros Hnone Hnone' v (before & after & Hsplit & Hv & Hbefore).
    rewrite (proj2 (find_nowhere named voices) Hnone).
    rewrite (proj2 (find_nowhere local voices) Hnone').
    rewrite Hsplit at 1. rewrite (find_at_first english before after v Hv Hbefore).
    reflexivity.
  - intros H1 H2 H3.
    rewrite (proj2 (find_nowhere named voices) H1).
    rewrite (proj2 (find_nowhere local voices) H2).
    rewrite (proj2 (find_nowhere english voices) H3). reflexivity.
  - intros v.
    destruct (find named voices) as [v1|] eqn:E1.
    { intros H. inversion H; subst. left. apply find_is_first, E1. }
    pose proof (proj1 (find_nowhere named voices) E1) as N1.
    destruct (find local voices) as [v2|] eqn:E2.
    { intros H. inversion H; subst. right. left.
      split; [exact N1|apply find_is_first, E2]. }
    pose proof (proj1 (find_nowhere local voices) E2) as N2.
    destruct (find english voices) as [v3|] eqn:E3.
    { intros H. inversion H; subst. right. right. left.
      split; [exact N1|]. split; [exact N2|apply find_is_first, E3]. }
    pose proof (proj1 (find_nowhere english voices) E3) as N3.
    intros H. right. right. right. repeat split; assumption.
Qed.

Lemma speak_chunks_app env (a b : list string) : forall t,
  speak_chunks env (a ++ b) t
  = match speak_chunks env a t with
    | (t', Resolved _) => speak_chunks env b t'
    | (t', Rejected reason) => (t', Rejected reason)
    end.
Proof.
  induction a as [|chunk a IH]; intros t; [reflexivity|].
  cbn [app speak_chunks]. destruct (_speak env chunk t) as [t' [[]|reason]]; [apply IH|reflexivity].
Qed.

Lemma speak_chunks_one env chunk t :
  speak_chunks env [chunk] t = _speak env chunk t.
Proof.
  cbn [speak_chunks]. destruct (_speak env chunk t) as [t' [[]|reason]]; reflexivity.
Qed.

(** [speak] is the utterance, one after the other, of what it planned,
    after cancelling what was being said. *)
Lemma speak_as_planned env text (t : TextToSpeechService) :
  isSupported t = true -> voicesLoaded env = Resolved () ->
  speak env text t
  = speak_chunks env (planned text)
      (if isSpeakingFlag t || pending env then stop (speaking env || pending env) t else t).
Proof.
  intros Hsup Hvoices. unfold speak, planned. rewrite Hsup, Hvoices.
  destruct (splitByPunctuation text) as [chunks unmatched]. cbn [fst snd].
  rewrite speak_chunks_app.
  destruct (speak_chunks env chunks _) as [t2 [[]|reason]]; [|reflexivity].
  destruct (Nat.ltb 0 (String.length unmatched)); [|reflexivity].
  rewrite speak_chunks_one. reflexivity.
Qed.

Lemma speak_chunks_first_failure env : forall (plan : list string) (t : TextToSpeechService)
    (i : nat) (chunk : string),
  (forall j earlier, j < i -> plan !! j = Some earlier ->
     outcome env (length (utterances t) + j) earlier = Ended) ->
  plan !! i = Some chunk ->
  outcome env (length (utterances t) + i) chunk <> Ended ->
  let o := outcome env (length (utterances t) + i) chunk in
  utterances (speak_chunks env plan t).1
  = utterances t ++ take (match o with Refused _ => i | _ => S i end) plan
  /\ (speak_chunks env plan t).2 = Rejected (rejection o).
Proof.
  induction plan as [|c plan IH]; intros t i chunk Hbefore Hi Hfail o; [discriminate|].
  destruct i as [|i].
  - cbn in Hi. inversion Hi; subst c. clear Hi. subst o.
    rewrite Nat.add_0_r in *. cbn [speak_chunks]. unfold _speak.
    destruct (outcome env (length (utterances t)) chunk) eqn:E; [congruence| | |];
      cbn; rewrite ?app_nil_r; split; reflexivity.
  - cbn in Hi. cbn [speak_chunks]. unfold _speak.
    pose proof (Hbefore 0 c ltac:(lia) eq_refl) as H0. rewrite Nat.add_0_r in H0. rewrite H0.
    match goal with |- context [speak_chunks env plan ?t'] => set (t1 := t') end.
    assert (Hlen : length (utterances t1) + i = length (utterances t) + S i).
    { unfold t1. cbn. rewrite length_app. cbn. lia. }
    destruct (IH t1 i chunk) as [Hu Hr].
    + intros j earlier Hj Hlook.
      replace (length (utterances t1) + j) with (length (utterances t) + S j)
        by (unfold t1; cbn; rewrite length_app; cbn; lia).
      apply Hbefore; [lia|exact Hlook].
    + exact Hi.
    + rewrite Hlen. exact Hfail.
    + rewrite Hlen in Hu, Hr. fold o in Hu, Hr. split; [|exact Hr].
      rewrite Hu. unfold t1. cbn [utterances]. rewrite <- app_assoc.
      destruct o; reflexivity.
Qed.

(** Utterances are strictly sequential and the first failure ends the
    call: when the utterances before the i-th run to their end and the
    i-th does not, [speak] has handed to the engine exactly the first i
    planned texts and the failing one (not even that one when the engine
    refused it), nothing after it, and its promise is rejected with the
    reason of that failure. *)
Theorem speak_stops_at_first_failure (env : Environment) (text : string)
    (t : TextToSpeechService) (i : nat) (chunk : string) :
  isSupported t = true ->
  voicesLoaded env = Resolved () ->
  (forall j earlier, j < i -> planned text !! j = Some earlier ->
     outcome env (length (utterances t) + j) earlier = Ended) ->
  planned text !! i = Some chunk ->
  outcome env (length (utterances t) + i) chunk <> Ended ->
  let o := outcome env (length (utterances t) + i) chunk in
  utterances (speak env text t).1
  = utterances t ++ take (match o with Refused _ => i | _ => S i end) (planned text)
  /\ (speak env text t).2 = Rejected (rejection o).
Proof.
  intros Hsup Hvoices Hbefore Hi Hfail o.
  rewrite (speak_as_planned env text t Hsup Hvoices).
  set (t1 := if isSpeakingFlag t || pending env
             then stop (speaking env || pending env) t else t).
  assert (Ht1 : utterances t1 = utterances t).
  { unfold t1, stop. rewrite Hsup.
    destruct (isSpeakingFlag t || pending env),
      (speaking env || pending env || isSpeakingFlag t); reflexivity. }
  destruct (speak_chunks_first_failure env (planned text) t1 i chunk) as [Hu Hr];
    rewrite ?Ht1; try assumption.
  rewrite Ht1 in Hu, Hr. split; assumption.
Qed.

(** Without the engine, or when the voices fail to load, [speak] rejects
    without touching the engine: nothing is cancelled, nothing uttered. *)
Lemma speak_refused (env : Environment) (text : string) (t : TextToSpeechService) :
  (isSupported t = false ->
     speak env text t = (t, Rejected (NonError "Speech Synthesis not supported.")))
  /\ (forall error, isSupported t = true -> voicesLoaded env = Rejected error ->
        speak env text t
        = (t, Rejected (NonError ("Failed to load voices: " +:+ to_String error)))).
Proof.
  split.
  - intros H. unfold speak. rewrite H. reflexivity.
  - intros error H Hv. unfold speak. rewrite H, Hv. reflexivity.
Qed.

Lemma flat_map_all_nil {A B} (f : A -> list B) (l : list A) :
  (forall x, In x l -> f x = []) -> flat_map f l = [].
Proof.
  induction l as [|a l IH]; intros H; [reflexivity|]. cbn [flat_map].
  rewrite (H a) by (left; reflexivity). apply IH. intros x Hx. apply H. right. exact Hx.
Qed.

Lemma group2_needs_mark c s : is_mark c = false -> ends group2 (c :: s) = [].
Proof.
  unfold is_mark, one_of. cbn [existsb]. intros H.
  repeat (apply orb_false_elim in H; destruct H as [? H]).
  unfold group2, group3, plus, star, optional, d. rewrite !ends_Or, ends_Then, !ends_Repeat.
  change (length (c :: s)) with (S (length s)). cbn [repeat_ends ends one_of existsb].
  rewrite (Ascii.eqb_sym "d" c).
  repeat match goal with Heq : Ascii.eqb c _ = false |- _ => rewrite Heq; clear Heq end.
  reflexivity.
Qed.

Lemma plus_group2_needs_mark s : Forall (fun c => is_mark c = false) s -> ends (plus group2) s = [].
Proof.
  intros H. unfold plus. rewrite ends_Repeat. destruct s as [|c s].
  - apply repeat_ends_nil.
  - change (length (c :: s)) with (S (length s)). cbn [repeat_ends].
    rewrite group2_needs_mark by (inversion H; assumption). reflexivity.
Qed.

Lemma regex_needs_mark s : Forall (fun c => is_mark c = false) s -> ends regex s = [].
Proof.
  intros H. unfold regex. rewrite ends_Then. apply flat_map_all_nil.
  intros s1 Hs1. apply plus_group2_needs_mark.
  apply ends_suffix in Hs1. destruct Hs1 as [k ->].
  apply Forall_app in H. apply H.
Qed.

(** A text with none of the marks [. ! ? ; , : *], no double quote and no
    letter d gives the splitter nothing to match: no chunk, and the whole
    text as remainder. [speak] then utters it whole, as one utterance, and
    utters nothing at all for the empty text. *)
Theorem text_without_marks_is_one_utterance (env : Environment) (text : string)
    (t : TextToSpeechService) :
  Forall (fun c => is_mark c = false) (list_ascii_of_string text) ->
  isSupported t = true ->
  voicesLoaded env = Resolved () ->
  outcome env (length (utterances t)) text = Ended ->
  splitByPunctuation text = ([], text)
  /\ utterances (speak env text t).1
     = utterances t ++ (if decide (text = "") then [] else [text])
  /\ (speak env text t).2 = Resolved ().
Proof.
  intros Hplain Hsup Hvoices Hend.
  assert (Hsplit : splitByPunctuation text = ([], text)).
  { unfold splitByPunctuation, String_match. cbn [matches].
    rewrite (exec_nowhere _ (regex_needs_mark _ Hplain)). cbn [concat].
    assert (Hrep : forall l, String_replace [] l = l) by (intros []; reflexivity).
    rewrite Hrep, string_of_list_ascii_of_string. reflexivity. }
  split; [exact Hsplit|].
  rewrite (speak_as_planned env text t Hsup Hvoices). unfold planned. rewrite Hsplit.
  cbn [fst snd app].
  set (t1 := if isSpeakingFlag t || pending env
             then stop (speaking env || pending env) t else t).
  assert (Ht1 : utterances t1 = utterances t).
  { unfold t1, stop. rewrite Hsup.
    destruct (isSpeakingFlag t || pending env),
      (speaking env || pending env || isSpeakingFlag t); reflexivity. }
  destruct text as [|c text].
  - cbn. rewrite Ht1, app_nil_r. split; reflexivity.
  - cbn [String.length Nat.ltb Nat.leb]. rewrite speak_chunks_one. unfold _speak.
    rewrite Ht1, Hend. cbn [fst snd utterances].
    rewrite decide_False by discriminate. split; reflexivity.
Qed.

End SpeechOutputMore.

Section HostApplication.
Import Js App.

Lemma elem_of_filter_negb (recipeId other : Z) (l : list Z) :
  other ∈ List.filter (fun i => negb (Z.eqb i recipeId)) l <-> other ∈ l /\ other <> recipeId.
Proof.
  rewrite !list_elem_of_In, filter_In, negb_true_iff, Z.eqb_neq. reflexivity.
Qed.

Lemma NoDup_filter_list {A} (f : A -> bool) (l : list A) : NoDup l -> NoDup (List.filter f l).
Proof.
  intros H. apply NoDup_ListNoDup. apply List.NoDup_filter. apply NoDup_ListNoDup, H.
Qed.

Lemma filter_filter_same {A} (f : A -> bool) (l : list A) :
  List.filter f (List.filter f l) = List.filter f l.
Proof.
  induction l as [|a l IH]; [reflexivity|]. cbn [List.filter].
  destruct (f a) eqn:E; [|exact IH]. cbn [List.filter]. rewrite E, IH. reflexivity.
Qed.

Lemma markAsFavorite_member (recipeId : Z) (isFavorite : bool) (f : Favorites) :
  recipeId ∈ favorites (markAsFavorite recipeId isFavorite f) <-> isFavorite = true.
Proof.
  unfold markAsFavorite, addFavorite, removeFavorite. destruct isFavorite.
  - destruct (bool_decide (recipeId ∈ favorites f)) eqn:E; cbn [negb favorites].
    + apply bool_decide_eq_true in E. tauto.
    + split; [reflexivity|]. intros _. apply elem_of_app. right. left.
  - cbn [favorites]. rewrite elem_of_filter_negb. split; [tauto|discriminate].
Qed.

(** Marking and unmarking a favourite. Afterwards the recipe is a
    favourite exactly when it was marked as one; no other recipe enters or
    leaves the favourites; a list without repetitions stays so; whenever
    the list changes, [localStorage] holds the new list; and doing the
    same again changes nothing. *)
Theorem markAsFavorite_effect (recipeId : Z) (isFavorite : bool) (f : Favorites) :
  let f' := markAsFavorite recipeId isFavorite f in
  (recipeId ∈ favorites f' <-> isFavorite = true)
  /\ (forall other, other <> recipeId -> other ∈ favorites f' <-> other ∈ favorites f)
  /\ (NoDup (favorites f) -> NoDup (favorites f'))
  /\ (favorites f' <> favorites f -> recipeFavorites f' = Some (favorites f'))
  /\ markAsFavorite recipeId isFavorite f' = f'.
Proof.
  intros f'. subst f'. unfold markAsFavorite, addFavorite, removeFavorite.
  destruct isFavorite.
  - destruct (bool_decide (recipeId ∈ favorites f)) eqn:E; cbn [negb favorites recipeFavorites].
    + apply bool_decide_eq_true in E. rewrite (bool_decide_eq_true_2 _ E). cbn [negb].
      repeat split; try tauto; try congruence.
    + apply bool_decide_eq_false in E.
      rewrite bool_decide_eq_true_2 by (apply elem_of_app; right; left). cbn [negb].
      split; [split; [reflexivity|intros _; apply elem_of_app; right; left]|].
      split; [|split; [|split; reflexivity]].
      * intros other Hne. rewrite elem_of_app, list_elem_of_singleton. tauto.
      * intros Hnd. apply NoDup_app. split; [exact Hnd|]. split; [|apply NoDup_singleton].
        intros x Hx Hx'. apply list_elem_of_singleton in Hx'. subst. contradiction.
  - cbn [favorites recipeFavorites].
    split; [rewrite elem_of_filter_negb; split; [tauto|discriminate]|].
    split; [intros other Hne; rewrite elem_of_filter_negb; tauto|].
    split; [apply NoDup_filter_list|]. split; [reflexivity|].
    rewrite filter_filter_same. reflexivity.
Qed.

(** [setDarkMode(isDark)] leaves the page in the mode asked for. When the
    page is already in that mode nothing is touched, not even
    [localStorage]; otherwise the theme is toggled once, stored, and the
    sun icon is hidden exactly in dark mode, the moon icon exactly in light
    mode. Asking twice is asking once. *)
Theorem setDarkMode_effect (isDark : bool) (t : Theme) :
  let t' := setDarkMode isDark t in
  dark t' = isDark
  /\ (dark t = isDark -> t' = t)
  /\ (dark t <> isDark ->
        theme t' = Some (if isDark then "dark" else "light")
        /\ sun_hidden t' = isDark /\ moon_hidden t' = negb isDark)
  /\ setDarkMode isDark t' = t'.
Proof.
  destruct t as [[|] th sun moon], isDark; cbn; repeat split; congruence.
Qed.

Lemma startsWith_true search s :
  Tts.startsWith search s = true <-> exists rest, s = search ++ rest.
Proof.
  split.
  - revert s. induction search as [|a search IH]; intros s H; [exists s; reflexivity|].
    destruct s as [|b s]; [discriminate|]. cbn in H. apply andb_true_iff in H.
    destruct H as [Hab H]. apply Ascii.eqb_eq in Hab. subst b.
    destruct (IH s H) as [rest ->]. exists rest. reflexivity.
  - intros [rest ->]. apply startsWith_app.
Qed.

Lemma includes_true s search :
  includes s search = true <-> exists before after, s = before ++ search ++ after.
Proof.
  split.
  - induction s as [|c s IH]; cbn [includes]; intros H; apply orb_true_iff in H.
    + destruct H as [H|H]; [|discriminate]. apply startsWith_true in H.
      destruct H as [rest H]. exists [], rest. exact H.
    + destruct H as [H|H].
      * apply startsWith_true in H. destruct H as [rest H]. exists [], rest. exact H.
      * destruct (IH H) as [before [after ->]]. exists (c :: before), after. reflexivity.
  - intros [before [after ->]]. induction before as [|c before IH].
    + cbn [app]. destruct (search ++ after) eqn:E; cbn [includes];
        rewrite <- E, startsWith_app; reflexivity.
    + cbn [app includes]. rewrite IH. apply orb_true_r.
Qed.

Lemma includes_trans s m q : includes s m = true -> includes m q = true -> includes s q = true.
Proof.
  rewrite !includes_true. intros [a [b ->]] [a' [b' ->]].
  exists (a ++ a'), (b' ++ b). rewrite <- !app_assoc. reflexivity.
Qed.

Lemma includes_lower s q :
  includes s q = true -> includes (toLowerCase s) (toLowerCase q) = true.
Proof.
  rewrite !includes_true. intros [a [b ->]].
  exists (toLowerCase a), (toLowerCase b). unfold toLowerCase. rewrite !fmap_app. reflexivity.
Qed.

Lemma existsb_impl {A} (f g : A -> bool) (l : list A) :
  (forall x, f x = true -> g x = true) -> existsb f l = true -> existsb g l = true.
Proof.
  intros H. rewrite !existsb_exists. intros [x [Hin Hf]]. exists x. split; [exact Hin|auto].
Qed.

Section Table.
Variable recipes : list Recipe.

(** Searching. The empty query finds every recipe, in the order of the
    table. A query that contains another one finds no recipe the other
    does not find: typing on only narrows the list. And the search
    disregards letter case: a recipe is found by any piece of its title,
    whatever the case the piece is typed in. *)
Theorem searchRecipes_narrows :
  searchRecipes recipes [] = recipes
  /\ (forall query longer r,
        includes longer query = true ->
        r ∈ searchRecipes recipes longer -> r ∈ searchRecipes recipes query)
  /\ (forall r before piece after typed,
        r ∈ recipes ->
        title r = before ++ piece ++ after ->
        toLowerCase typed = toLowerCase piece ->
        r ∈ searchRecipes recipes typed).
Proof.
  split; [|split].
  - unfold searchRecipes. cbn. induction recipes as [|r rs IH]; [reflexivity|].
    cbn [List.filter]. assert (H : forall s, includes s [] = true) by (intros []; reflexivity).
    rewrite H. cbn. f_equal. exact IH.
  - intros query longer r Hq. unfold searchRecipes.
    rewrite !list_elem_of_In, !filter_In. intros [Hin Hm]. split; [exact Hin|].
    pose proof (includes_lower _ _ Hq) as Hl.
    assert (Hstep : forall s, includes s (toLowerCase longer) = true ->
                              includes s (toLowerCase query) = true)
      by (intros s Hs; exact (includes_trans _ _ _ Hs Hl)).
    cbv zeta in *.
    rewrite !orb_true_iff in Hm. rewrite !orb_true_iff.
    destruct Hm as [[[[Hm|Hm]|Hm]|Hm]|Hm].
    + left; left; left; left. apply Hstep, Hm.
    + left; left; left; right. apply Hstep, Hm.
    + left; left; right. revert Hm. apply existsb_impl. intros x. apply Hstep.
    + left; right. apply Hstep, Hm.
    + right. revert Hm. apply existsb_impl. intros x. apply Hstep.
  - intros r before piece after typed Hin Htitle Htyped. unfold searchRecipes.
    rewrite list_elem_of_In, filter_In. split; [apply list_elem_of_In, Hin|].
    cbv zeta. rewrite Htyped, Htitle.
    assert (H : includes (toLowerCase (before ++ piece ++ after)) (toLowerCase piece) = true).
    { apply includes_lower, includes_true. eauto. }
    rewrite H. reflexivity.
Qed.

(** [getRecipe] answers with the first recipe of the table that has the
    identifier, the one before which no recipe has it, also when the
    identifier is repeated in the table; and with nothing exactly when no
    recipe has it. When the identifiers of the table are all different,
    every recipe is found under its own identifier. *)
Theorem getRecipe_finds (recipeId : Z) :
  (getRecipe recipes recipeId = None <-> forall r, r ∈ recipes -> id r <> recipeId)
  /\ (forall r,
        getRecipe recipes recipeId = Some r
        <-> exists before after,
              recipes = before ++ r :: after
              /\ id r = recipeId
              /\ forall x, x ∈ before -> id x <> recipeId)
  /\ (forall r, getRecipe recipes recipeId = Some r -> r ∈ recipes /\ id r = recipeId)
  /\ (NoDup (id <$> recipes) ->
      forall r, r ∈ recipes -> getRecipe recipes (id r) = Some r).
Proof.
  unfold getRecipe. split; [|split; [|split]].
  - rewrite find_nowhere. split; intros H r Hr.
    + apply Z.eqb_neq. exact (H r Hr).
    + apply Z.eqb_neq. exact (H r Hr).
  - intros r. split.
    + intros H. destruct (find_is_first _ _ _ H) as (before & after & Hsplit & Hr & Hnone).
      exists before, after. split; [exact Hsplit|]. split; [apply Z.eqb_eq, Hr|].
      intros x Hx. apply Z.eqb_neq, Hnone, Hx.
    + intros (before & after & Hsplit & Hr & Hnone). rewrite Hsplit at 1.
      apply find_at_first; [apply Z.eqb_eq, Hr|].
      intros x Hx. apply Z.eqb_neq, Hnone, Hx.
  - intros r H. apply find_first in H. destruct H as [Hin H]. apply Z.eqb_eq in H. auto.
  - induction recipes as [|a l IH]; intros Hnd r Hr; [inversion Hr|].
    cbn [find]. cbn in Hnd. apply NoDup_cons in Hnd. destruct Hnd as [Hnot Hnd].
    apply elem_of_cons in Hr. destruct Hr as [->|Hr]; [rewrite Z.eqb_refl; reflexivity|].
    destruct (Z.eqb (id a) (id r)) eqn:E; [|apply IH; assumption].
    apply Z.eqb_eq in E. exfalso. apply Hnot. rewrite E.
    apply list_elem_of_fmap. exists r. split; [reflexivity|exact Hr].
Qed.

(** What [list_favorites] reports after [markAsFavorite]: a recipe of the
    table that was just marked is listed with its title, one that was
    just unmarked is not listed under any title, and the list follows the
    order of the table, not the order in which favourites were added. *)
Theorem list_favorites_after_mark (r : Recipe) (f : Favorites) :
  r ∈ recipes ->
  ((id r, title r) ∈ list_favorites recipes (favorites (markAsFavorite (id r) true f)))
  /\ (forall t, (id r, t) ∉ list_favorites recipes (favorites (markAsFavorite (id r) false f)))
  /\ (forall favs, sublist (list_favorites recipes favs) ((fun x => (id x, title x)) <$> recipes)).
Proof.
  intros Hr. split; [|split].
  - unfold list_favorites. apply list_elem_of_fmap. exists r. split; [reflexivity|].
    apply list_elem_of_In, filter_In. split; [apply list_elem_of_In, Hr|].
    apply bool_decide_eq_true. apply markAsFavorite_member. reflexivity.
  - intros t Hin. unfold list_favorites in Hin. apply list_elem_of_fmap in Hin.
    destruct Hin as [x [Hx Hin]]. inversion Hx as [[Hid Ht]].
    apply list_elem_of_In, filter_In in Hin. destruct Hin as [_ Hin].
    apply bool_decide_eq_true in Hin. rewrite <- Hid in Hin.
    apply markAsFavorite_member in Hin. discriminate.
  - intros favs. unfold list_favorites. apply fmap_sublist.
    clear Hr. induction recipes as [|a l IH]; [constructor|]. cbn [List.filter].
    destruct (bool_decide _); [apply sublist_skip|apply sublist_cons]; exact IH.
Qed.

End Table.

End HostApplication.

Section OrchestrationMore.
Import Js State Agent.
Context {App : Type} (tools : Tools.Implementations App).

Lemma prop_after_update_other (updates : list (string * Value)) (es : list Effect)
    (a : Agent App) (key : string) :
  (list_to_map updates : Obj) !! key = None ->
  prop (getState (store (perform es (update updates a)))) key
  = prop (getState (store a)) key.
Proof.
  intros H.
  change (store (perform es (update updates a)))
    with (updateState (list_to_map updates) (store a)).1.
  unfold getState, prop.
  rewrite !spread_empty, state_updateState, lookup_spread, H. reflexivity.
Qed.

Lemma update_as_perform (updates : list (string * Value)) (a : Agent App) :
  update updates a = perform [] (update updates a).
Proof.
  unfold perform. destruct (update updates a). cbn. rewrite app_nil_r. reflexivity.
Qed.

Lemma effects_update (updates : list (string * Value)) (a : Agent App) :
  exists deliveries,
    effects (update updates a) = effects a ++ deliveries
    /\ forallb is_stateChanged deliveries = true.
Proof.
  eexists. split; [reflexivity|].
  induction (notifications _ _) as [|d ds IH]; [reflexivity|exact IH].
Qed.

Lemma clients_handle spoken e h (a : Agent App) :
  clients (handle spoken e h a) = clients a.
Proof.
  destruct h, e as [| | |text failure|calls|name args result|message details];
    try reflexivity.
  cbn [handle]. unfold _handleGeminiResponse.
  destruct text as [[|c rest]|];
    [destruct failure as [t|]; [destruct (truthy_thrown t)|]; reflexivity|
    |destruct failure as [t|]; [destruct (truthy_thrown t)|]; reflexivity].
  destruct (spoken (String c rest)); reflexivity.
Qed.

Lemma clients_deliver spoken hs events (a : Agent App) :
  clients (deliver spoken hs events a) = clients a.
Proof.
  unfold deliver. revert a. induction events as [|e events IH]; intros a; [reflexivity|].
  cbn [foldl]. rewrite IH. clear IH. revert a.
  induction hs as [|h hs IH]; intros a; [reflexivity|].
  cbn [foldl]. rewrite IH. apply clients_handle.
Qed.


(** Enable attempts that fail. Without an API key the attempt stops
    early: only [lastError] changes and no client is created. When the
    client constructor throws, or when the promise of the greeting rejects,
    the [catch] block leaves the agent disabled with [geminiClient] null
    and the failure in [lastError]. In the second case the client that was
    built and subscribed to stays as it is: nothing destroys it. *)
Theorem failed_enable_leaves_the_agent_disabled (env : Environment) (a : Agent App) :
  truthy (isAgentEnabled a) = false ->
  let after := _handleAgentToggleClick tools env a in
  ((agentApiKey a = None \/ agentApiKey a = Some "") ->
     lastError after = str "API Key missing."
     /\ isAgentEnabled after = isAgentEnabled a
     /\ geminiClient after = geminiClient a
     /\ clients after = clients a)
  /\ (forall c key error,
        agentApiKey a = Some (String c key) -> construction env = Throw error ->
        isAgentEnabled after = boolean false
        /\ geminiClient after = null
        /\ lastError after = str ("Gemini init failed: " +:+ to_String error)
        /\ clients after = clients a)
  /\ (forall c key error,
        agentApiKey a = Some (String c key) -> construction env = Normal ->
        spoken env GREETING_MESSAGE = Rejected error ->
        isAgentEnabled after = boolean false
        /\ geminiClient after = null
        /\ lastError after = str ("Gemini init failed: " +:+ to_String error)
        /\ exists object,
             clients after !! Pos.of_nat (3 + size (clients a)) = Some object
             /\ listeners object = [on_thinking; on_responseComplete; on_error]
             /\ Gemini.chat (client object)
                = Gemini.chat (Gemini.initializeChat (startChat env)
                                 (Gemini.constructor (application a)))).
Proof.
  intros Hoff after. subst after.
  unfold _handleAgentToggleClick, isAgentEnabled, geminiClient, lastError in *.
  rewrite Hoff. cbn [negb perform agentApiKey agentModelName clients application].
  assert (Hfailed : forall error (b : Agent App),
    let r := enable_failed error b in
    prop (getState (store r)) "isAgentEnabled" = boolean false
    /\ prop (getState (store r)) "geminiClient" = null
    /\ prop (getState (store r)) "lastError"
       = str ("Gemini init failed: " +:+ to_String error)
    /\ clients r = clients b).
  { intros error b r. subst r. unfold enable_failed.
    rewrite (update_as_perform [("isAgentEnabled", _); _]).
    split; [apply prop_after_update; reflexivity|].
    split; [apply prop_after_update; reflexivity|].
    split; [|reflexivity].
    rewrite prop_after_update_other by reflexivity.
    change (store (perform _ (update [("lastError", ?v)] b)))
      with (store (perform [] (update [("lastError", v)] b))).
    apply prop_after_update. reflexivity. }
  split; [|split].
  - intros Hkey.
    assert (Hgoal : forall x : Agent App,
      agentApiKey x = agentApiKey a -> clients x = clients a -> store x = store a ->
      let r := perform [showCaption "Error: API Key missing" (Some 3000%N); playErrorEarcon]
                 (update [("lastError", str "API Key missing.")] x) in
      prop (getState (store r)) "lastError" = str "API Key missing."
      /\ prop (getState (store r)) "isAgentEnabled" = prop (getState (store a)) "isAgentEnabled"
      /\ prop (getState (store r)) "geminiClient" = prop (getState (store a)) "geminiClient"
      /\ clients r = clients a).
    { intros x _ Hc Hs r. subst r.
      split; [apply prop_after_update; reflexivity|].
      rewrite !prop_after_update_other by reflexivity. rewrite Hs.
      split; [reflexivity|]. split; [reflexivity|exact Hc]. }
    destruct Hkey as [-> | ->]; apply Hgoal; reflexivity.
  - intros c key error Hkey Hthrow. rewrite Hkey, Hthrow.
    match goal with
    | |- context [enable_failed error ?b] => destruct (Hfailed error b) as [H1 [H2 [H3 H4]]]
    end.
    repeat split; assumption.
  - intros c key error Hkey Hbuilt Hgreeting. rewrite Hkey, Hbuilt, Hgreeting.
    match goal with
    | |- context [enable_failed error ?b] => destruct (Hfailed error b) as [H1 [H2 [H3 H4]]]
    end.
    split; [exact H1|]. split; [exact H2|]. split; [exact H3|].
    rewrite H4. eexists. split; [|split].
    + change (clients (perform ?es ?x)) with (clients x).
      change (clients (update ?u ?x)) with (clients x).
      rewrite clients_deliver. cbn [clients set_clients]. apply lookup_insert_eq.
    + reflexivity.
    + reflexivity.
Qed.

Lemma thinking_loop_calls_app (es es' : list Effect) :
  thinking_loop_calls (es ++ es') = thinking_loop_calls es ++ thinking_loop_calls es'.
Proof. apply List.filter_app. Qed.

Lemma thinking_loop_calls_deliveries (ds : list Effect) :
  forallb is_stateChanged ds = true -> thinking_loop_calls ds = [].
Proof.
  induction ds as [|d ds IH]; [reflexivity|]. cbn [forallb]. intros H.
  apply andb_true_iff in H. destruct H as [Hd H]. destruct d; try discriminate.
  cbn. apply IH, H.
Qed.

Lemma deliver_app spoken hs events events' (a : Agent App) :
  deliver spoken hs (events ++ events') a
  = deliver spoken hs events' (deliver spoken hs events a).
Proof. unfold deliver. apply foldl_app. Qed.

Lemma effects_handle spoken e h (a : Agent App) :
  exists es, effects (handle spoken e h a) = effects a ++ es.
Proof.
  destruct h, e as [| | |text failure|calls|name args result|message details];
    try (exists []; rewrite app_nil_r; reflexivity); cbn [handle];
    unfold _handleGeminiResponse; try destruct text as [[|c rest]|];
    try (destruct failure as [t|]; [destruct (truthy_thrown t)|]);
    try destruct (spoken (String c rest));
    eexists; unfold _handleGeminiThinking, _handleGeminiError, update;
    cbn [perform effects set_store store]; rewrite <- ?app_assoc; reflexivity.
Qed.

Lemma effects_deliver spoken hs events (a : Agent App) :
  exists es, effects (deliver spoken hs events a) = effects a ++ es.
Proof.
  unfold deliver. revert a. induction events as [|e events IH]; intros a.
  - exists []. rewrite app_nil_r. reflexivity.
  - cbn [foldl].
    assert (H : exists es, effects (foldl (fun acc' h => handle spoken e h acc') a hs)
                           = effects a ++ es).
    { clear IH. revert a. induction hs as [|h hs IH]; intros a.
      - exists []. rewrite app_nil_r. reflexivity.
      - cbn [foldl]. destruct (IH (handle spoken e h a)) as [es H].
        destruct (effects_handle spoken e h a) as [es' H'].
        exists (es' ++ es). rewrite H, H', app_assoc. reflexivity. }
    destruct H as [es H]. destruct (IH (foldl (fun acc' h => handle spoken e h acc') a hs)) as [es' H'].
    exists (es ++ es'). rewrite H', H, app_assoc. reflexivity.
Qed.

Lemma quiet_after_error message (a : Agent App) :
  quiet_since a (_handleGeminiError message a).
Proof.
  unfold quiet_since, _handleGeminiError. split.
  - rewrite (update_as_perform [("isAgentThinking", _); _]).
    change (store (perform ?es (perform [] ?x))) with (store (perform [] x)).
    apply prop_after_update. reflexivity.
  - destruct (effects_update [("isAgentThinking", boolean false); ("lastError", str message)]
                (perform [stopThinkingLoop] a)) as [ds [Hd Hall]].
    eexists. split.
    + cbn [perform effects]. rewrite Hd. cbn [perform effects].
      rewrite <- !app_assoc. reflexivity.
    + rewrite !thinking_loop_calls_app, (thinking_loop_calls_deliveries ds Hall).
      reflexivity.
Qed.

Lemma lastError_after_error message (a : Agent App) :
  lastError (_handleGeminiError message a) = str message.
Proof.
  unfold lastError, _handleGeminiError.
  rewrite (update_as_perform [("isAgentThinking", _); _]).
  change (store (perform ?es (perform [] ?x))) with (store (perform [] x)).
  apply prop_after_update. reflexivity.
Qed.

Lemma quiet_since_later (a b c : Agent App) :
  (exists es, effects b = effects a ++ es) -> quiet_since b c -> quiet_since a c.
Proof.
  intros [es H] [Hflag [es' [H' Hlast]]]. split; [exact Hflag|].
  exists (es ++ es'). split; [rewrite H', H, app_assoc; reflexivity|].
  rewrite thinking_loop_calls_app, last_app, Hlast. reflexivity.
Qed.

Lemma quiet_after_response spoken text failure (a : Agent App) :
  quiet_since a (_handleGeminiResponse spoken text failure a).
Proof.
  unfold _handleGeminiResponse.
  set (a1 := update [("isAgentThinking", boolean false)] (perform [stopThinkingLoop] a)).
  assert (H1 : quiet_since a a1).
  { split.
    - subst a1. rewrite update_as_perform. apply prop_after_update. reflexivity.
    - destruct (effects_update [("isAgentThinking", boolean false)]
                  (perform [stopThinkingLoop] a)) as [ds [Hd Hall]].
      eexists. split.
      + subst a1. rewrite Hd. cbn [perform effects]. rewrite <- !app_assoc. reflexivity.
      + rewrite !thinking_loop_calls_app, (thinking_loop_calls_deliveries ds Hall).
        reflexivity. }
  assert (Hquiet : forall es (b : Agent App),
            thinking_loop_calls es = [] -> quiet_since a b -> quiet_since a (perform es b)).
  { intros es b Hes [Hflag [es' [H' Hlast]]]. split; [exact Hflag|].
    exists (es' ++ es). split; [cbn [perform effects]; rewrite H', app_assoc; reflexivity|].
    rewrite thinking_loop_calls_app, Hes, app_nil_r. exact Hlast. }
  assert (Hother : forall updates (b : Agent App),
            (list_to_map updates : Obj) !! "isAgentThinking" = None ->
            quiet_since a b -> quiet_since a (update updates b)).
  { intros updates b Hnone [Hflag [es' [H' Hlast]]]. split.
    - rewrite update_as_perform, prop_after_update_other by exact Hnone. exact Hflag.
    - destruct (effects_update updates b) as [ds [Hd Hall]].
      exists (es' ++ ds). split; [rewrite Hd, H', app_assoc; reflexivity|].
      rewrite thinking_loop_calls_app, (thinking_loop_calls_deliveries ds Hall), app_nil_r.
      exact Hlast. }
  destruct text as [[|c rest]|].
  - destruct failure as [t|]; [destruct (truthy_thrown t)|].
    + apply (quiet_since_later a a1); [destruct H1 as [_ [es [H _]]]; eauto|].
      apply quiet_after_error.
    + apply Hquiet; [reflexivity|exact H1].
    + apply Hquiet; [reflexivity|exact H1].
  - destruct (spoken (String c rest)).
    + apply Hquiet; [reflexivity|exact H1].
    + apply Hother; [reflexivity|]. apply Hquiet; [reflexivity|exact H1].
  - destruct failure as [t|]; [destruct (truthy_thrown t)|].
    + apply (quiet_since_later a a1); [destruct H1 as [_ [es [H _]]]; eauto|].
      apply quiet_after_error.
    + apply Hquiet; [reflexivity|exact H1].
    + apply Hquiet; [reflexivity|exact H1].
Qed.

Lemma quiet_after_closing_event spoken e (a : Agent App) :
  Gemini.is_responseComplete e = true \/ (exists message details, e = Gemini.error message details) ->
  quiet_since a
    (foldl (fun acc h => handle spoken e h acc) a [on_thinking; on_responseComplete; on_error]).
Proof.
  intros [H | [message [details ->]]].
  - destruct e; try discriminate. cbn [foldl handle]. apply quiet_after_response.
  - cbn [foldl handle]. apply quiet_after_error.
Qed.

(** The thinking indicator ends with the turn. When the [sendMessage]
    had no session to use, or when the endpoint at some point answers with
    something else than a request for tools, then once the events of the
    turn have been handled the flag [isAgentThinking] is down and the last
    call made on the thinking sound stops it, whatever the model replied,
    whatever the tools did, and whatever the error a failed turn reports
    (truthy or not). While the first reply has not come, the flag is up
    and the last call made on the thinking sound has started it. The
    closing event of a failed turn is handled as an error only when the
    reason it carries is truthy: [lastError] then names it and the error
    caption is the last call; a reason that is not truthy ([undefined],
    an empty string, ...) is handled as an empty response: [lastError] is
    left as it was, and the caption is removed and the ready earcon
    played last. *)
Theorem thinking_ends_with_the_turn
    (config : Gemini.GeminiClientConfig App)
    (completion : list Gemini.Settlement -> list Gemini.Settlement)
    (c : Gemini.Client App) (pending : Gemini.Endpoint) (userInput : string)
    (spoken : string -> Settled unit) (a : Agent App) :
  let c' := Gemini.sendMessage config completion pending userInput c in
  let news := events_since (length (Gemini.emitted c)) c' in
  let after := deliver spoken [on_thinking; on_responseComplete; on_error] news a in
  (Gemini.chat c = None \/ Gemini.concludes pending -> quiet_since a after)
  /\ (is_Some (Gemini.chat c) -> pending = [] ->
      prop (getState (store after)) "isAgentThinking" = boolean true
      /\ exists es,
           effects after = effects a ++ es
           /\ last (thinking_loop_calls es) = Some startThinkingLoop)
  /\ (forall e : Thrown,
        let closed :=
          deliver spoken [on_thinking; on_responseComplete; on_error]
            [Gemini.responseComplete None (Some e)] a in
        (truthy_thrown e = true ->
         lastError closed = str ("Gemini response error: " +:+ to_String e)
         /\ last (effects closed)
            = Some (showCaption ("Error: Gemini response error: " +:+ to_String e)
                      (Some 6000%N)))
        /\ (truthy_thrown e = false ->
            lastError closed = lastError a
            /\ exists es,
                 effects closed = effects a ++ es ++ [removeCaption; playReadyEarcon])).
Proof.
  intros c' news after. subst after news. unfold events_since. split; [|split].
  3:{ intros e. cbv zeta. cbn [deliver foldl handle].
      unfold _handleGeminiResponse, lastError. split; intros He; rewrite He.
      - split; [apply lastError_after_error|].
        unfold _handleGeminiError. cbn [perform effects]. rewrite last_app. reflexivity.
      - split.
        + rewrite prop_after_update_other by reflexivity. reflexivity.
        + destruct (effects_update [("isAgentThinking", boolean false)]
                      (perform [stopThinkingLoop] a)) as [ds [Hd _]].
          exists ([stopThinkingLoop] ++ ds). cbn [perform effects]. rewrite Hd.
          cbn [perform effects]. rewrite <- !app_assoc. reflexivity. }
  - intros Hends. destruct (Gemini.chat c) as [session|] eqn:Hchat.
    + destruct Hends as [Hends|Hends]; [discriminate|].
      destruct (sendMessage_turn config completion c session pending userInput Hchat Hends)
        as [middle [text [failure [Hem _]]]].
      fold c' in Hem. rewrite Hem, drop_app_length.
      rewrite (app_assoc [Gemini.thinking] middle), deliver_app.
      apply (quiet_since_later a
               (deliver spoken [on_thinking; on_responseComplete; on_error]
                  ([Gemini.thinking] ++ middle) a));
        [apply effects_deliver|].
      apply quiet_after_closing_event. left. reflexivity.
    + subst c'. unfold Gemini.sendMessage. rewrite Hchat. cbn [Gemini.emit Gemini.emitted].
      rewrite drop_app_length.
      apply (quiet_after_closing_event spoken _ a). right. eauto.
  - intros [session Hchat] ->. subst c'. unfold Gemini.sendMessage. rewrite Hchat.
    cbn [Gemini.emit Gemini.set_chat Gemini.emitted]. rewrite drop_app_length.
    cbn [deliver foldl handle]. unfold _handleGeminiThinking. split.
    + apply prop_after_update. reflexivity.
    + destruct (effects_update [("isAgentThinking", boolean true)] a) as [ds [Hd Hall]].
      exists (ds ++ [startThinkingLoop]). split.
      * cbn [perform effects]. rewrite Hd, <- app_assoc. reflexivity.
      * rewrite thinking_loop_calls_app, (thinking_loop_calls_deliveries ds Hall).
        reflexivity.
Qed.

Lemma coherent_same (a b : Agent App) :
  store b = store a -> clients b = clients a -> coherent a -> coherent b.
Proof.
  unfold coherent, isAgentEnabled, geminiClient. intros -> ->. exact (fun H => H).
Qed.

Lemma coherent_perform es (a : Agent App) : coherent a -> coherent (perform es a).
Proof. apply coherent_same; reflexivity. Qed.

(** An update that leaves [isAgentEnabled] and [geminiClient] alone, and
    writes at most a boolean to [isMicOpen]. *)
Lemma coherent_update updates (a : Agent App) :
  (list_to_map updates : Obj) !! "isAgentEnabled" = None ->
  (list_to_map updates : Obj) !! "geminiClient" = None ->
  ((list_to_map updates : Obj) !! "isMicOpen" = None
   \/ exists b, (list_to_map updates : Obj) !! "isMicOpen" = Some (boolean b)) ->
  coherent a -> coherent (update updates a).
Proof.
  intros He Hc Hm [Hsync [open Hopen]]. rewrite update_as_perform.
  unfold coherent, isAgentEnabled, geminiClient.
  rewrite !prop_after_update_other by assumption. split; [exact Hsync|].
  destruct Hm as [Hm|[b Hm]].
  - rewrite prop_after_update_other by assumption. eauto.
  - exists b. apply prop_after_update. exact Hm.
Qed.

Lemma coherent_enable_failed error (a : Agent App) :
  coherent a -> coherent (enable_failed error a).
Proof.
  intros [_ [open Hopen]]. unfold enable_failed.
  rewrite (update_as_perform [("isAgentEnabled", _); _]).
  split.
  - left. split; apply prop_after_update; reflexivity.
  - exists open. rewrite prop_after_update_other by reflexivity.
    change (store (perform _ (update [("lastError", ?v)] a)))
      with (store (perform [] (update [("lastError", v)] a))).
    rewrite prop_after_update_other by reflexivity. exact Hopen.
Qed.

Lemma coherent_handle spoken e h (a : Agent App) :
  coherent a -> coherent (handle spoken e h a).
Proof.
  intros H.
  assert (Herror : forall message (b : Agent App),
            coherent b -> coherent (_handleGeminiError message b)).
  { intros message b Hb. unfold _handleGeminiError.
    apply coherent_perform, coherent_update; try reflexivity; [left; reflexivity|].
    apply coherent_perform, Hb. }
  destruct h, e as [| | |text failure|calls|name args result|message details];
    try exact H; cbn [handle].
  - unfold _handleGeminiThinking.
    apply coherent_perform, coherent_update; try reflexivity; [left; reflexivity|exact H].
  - unfold _handleGeminiResponse.
    assert (H1 : coherent (update [("isAgentThinking", boolean false)]
                             (perform [stopThinkingLoop] a))).
    { apply coherent_update; try reflexivity; [left; reflexivity|].
      apply coherent_perform, H. }
    destruct text as [[|c rest]|].
    + destruct failure as [t|]; [destruct (truthy_thrown t)|];
        [apply Herror, H1|apply coherent_perform, H1|apply coherent_perform, H1].
    + destruct (spoken (String c rest)); [apply coherent_perform, H1|].
      apply coherent_update; try reflexivity; [left; reflexivity|].
      apply coherent_perform, H1.
    + destruct failure as [t|]; [destruct (truthy_thrown t)|];
        [apply Herror, H1|apply coherent_perform, H1|apply coherent_perform, H1].
  - apply Herror, H.
Qed.

Lemma coherent_deliver spoken hs events (a : Agent App) :
  coherent a -> coherent (deliver spoken hs events a).
Proof.
  unfold deliver. revert a. induction events as [|e events IH]; intros a H; [exact H|].
  cbn [foldl]. apply IH. clear IH. revert a H.
  induction hs as [|h hs IH]; intros a H; [exact H|].
  cbn [foldl]. apply IH, coherent_handle, H.
Qed.

Lemma prop_update_frame updates (a : Agent App) key :
  key ∉ updates.*1 ->
  prop (getState (store (update updates a))) key = prop (getState (store a)) key.
Proof.
  intros H. rewrite update_as_perform. apply prop_after_update_other.
  apply not_elem_of_list_to_map_1, H.
Qed.

(** The handlers of the client events write [isAgentThinking] and
    [lastError] only. *)
Lemma slot_handle_other spoken e h (a : Agent App) key :
  key <> "isAgentThinking" -> key <> "lastError" ->
  prop (getState (store (handle spoken e h a))) key = prop (getState (store a)) key.
Proof.
  intros H1 H2.
  assert (Hone : key ∉ [("isAgentThinking", boolean false)].*1)
    by (cbn; intros H; apply list_elem_of_singleton in H; contradiction).
  assert (Hlast : forall v : Value, key ∉ [("lastError", v)].*1)
    by (intros v H; apply list_elem_of_singleton in H; contradiction).
  assert (Herror : forall message (b : Agent App),
            prop (getState (store (_handleGeminiError message b))) key
            = prop (getState (store b)) key).
  { intros message b. unfold _handleGeminiError.
    change (store (perform ?es ?x)) with (store x). rewrite prop_update_frame; [reflexivity|].
    cbn. intros H. repeat (apply elem_of_cons in H; destruct H as [H|H]; [contradiction|]).
    inversion H. }
  destruct h, e as [| | |text failure|calls|name args result|message details];
    try reflexivity; cbn [handle].
  - unfold _handleGeminiThinking. change (store (perform ?es ?x)) with (store x).
    rewrite prop_update_frame; [reflexivity|].
    cbn. intros H. apply list_elem_of_singleton in H. contradiction.
  - unfold _handleGeminiResponse.
    destruct text as [[|c rest]|];
      [destruct failure as [t|]; [destruct (truthy_thrown t)|]|
      |destruct failure as [t|]; [destruct (truthy_thrown t)|]];
      try destruct (spoken (String c rest));
      rewrite ?Herror;
      repeat first [ progress change (store (perform ?es ?x)) with (store x)
                   | rewrite prop_update_frame by (exact Hone || apply Hlast) ];
      reflexivity.
  - apply Herror.
Qed.

Lemma slot_deliver_other spoken hs events (a : Agent App) key :
  key <> "isAgentThinking" -> key <> "lastError" ->
  prop (getState (store (deliver spoken hs events a))) key = prop (getState (store a)) key.
Proof.
  intros H1 H2. unfold deliver. revert a.
  induction events as [|e events IH]; intros a; [reflexivity|].
  cbn [foldl]. rewrite IH. clear IH. revert a.
  induction hs as [|h hs IH]; intros a; [reflexivity|].
  cbn [foldl]. rewrite IH. apply slot_handle_other; assumption.
Qed.

Lemma coherent_toggle env (a : Agent App) :
  coherent a -> coherent (_handleAgentToggleClick tools env a).
Proof.
  intros H. pose proof H as [Hsync [open Hopen]]. unfold _handleAgentToggleClick.
  destruct (truthy (prop (getState (store a)) "isAgentEnabled")) eqn:Hon; cbn [negb].
  - apply coherent_perform. rewrite update_as_perform. split.
    + left. split; apply prop_after_update; reflexivity.
    + exists false. apply prop_after_update. reflexivity.
  - cbn [perform agentApiKey agentModelName clients application].
    destruct (agentApiKey a) as [[|c key]|].
    + apply coherent_perform, coherent_update; try reflexivity; [left; reflexivity|].
      apply coherent_perform, H.
    + destruct (construction env) as [|error].
      * match goal with
        | |- coherent (match spoken env GREETING_MESSAGE with
                       | Resolved _ => ?x
                       | Rejected error => enable_failed error ?x
                       end) =>
            assert (Hx : coherent x); [|destruct (spoken env GREETING_MESSAGE);
                                         [exact Hx|apply coherent_enable_failed, Hx]]
        end.
        apply coherent_perform. rewrite update_as_perform. split.
        -- right. split; [apply prop_after_update; reflexivity|].
           eexists _, _. split; [apply prop_after_update; reflexivity|].
           change (clients (perform [] (update ?u ?x))) with (clients x).
           rewrite clients_deliver. cbn [clients set_clients].
           split; [apply lookup_insert_eq|reflexivity].
        -- exists open. rewrite prop_after_update_other by reflexivity.
           rewrite slot_deliver_other by discriminate. exact Hopen.
      * apply coherent_enable_failed, coherent_perform, H.
    + apply coherent_perform, coherent_update; try reflexivity; [left; reflexivity|].
      apply coherent_perform, H.
Qed.

(** The [catch] block of the enabling branch writes three slots. *)
Lemma enable_failed_slots error (a : Agent App) :
  isAgentEnabled (enable_failed error a) = boolean false
  /\ geminiClient (enable_failed error a) = null
  /\ lastError (enable_failed error a) = str ("Gemini init failed: " +:+ to_String error)
  /\ clients (enable_failed error a) = clients a
  /\ forall key, key <> "isAgentEnabled" -> key <> "geminiClient" -> key <> "lastError" ->
       prop (getState (store (enable_failed error a))) key = prop (getState (store a)) key.
Proof.
  unfold enable_failed, isAgentEnabled, geminiClient, lastError.
  rewrite (update_as_perform [("isAgentEnabled", _); _]).
  split; [apply prop_after_update; reflexivity|].
  split; [apply prop_after_update; reflexivity|].
  split; [|split; [reflexivity|]].
  - rewrite prop_after_update_other by reflexivity.
    change (store (perform _ (update [("lastError", ?v)] a)))
      with (store (perform [] (update [("lastError", v)] a))).
    apply prop_after_update. reflexivity.
  - intros key H1 H2 H3. rewrite prop_after_update_other.
    + change (store (perform _ (update [("lastError", ?v)] a)))
        with (store (update [("lastError", v)] a)).
      apply prop_update_frame. cbn. intros H. apply list_elem_of_singleton in H. contradiction.
    + apply not_elem_of_list_to_map_1. cbn. intros H.
      repeat (apply elem_of_cons in H; destruct H as [H|H]; [contradiction|]). inversion H.
Qed.

(** The enabling branch leaves the slots it does not name as they were,
    [isAgentThinking] and [lastError] apart. *)
Lemma enabling_keeps_slot env (a : Agent App) key :
  truthy (isAgentEnabled a) = false ->
  key <> "isAgentEnabled" -> key <> "geminiClient" -> key <> "lastError" ->
  key <> "isAgentThinking" ->
  prop (getState (store (_handleAgentToggleClick tools env a))) key
  = prop (getState (store a)) key.
Proof.
  intros Hoff H1 H2 H3 H4. unfold _handleAgentToggleClick, isAgentEnabled in *.
  rewrite Hoff. cbn [negb perform agentApiKey agentModelName clients application].
  assert (Hlast : forall v : Value, key ∉ [("lastError", v)].*1)
    by (intros v H; apply list_elem_of_singleton in H; contradiction).
  assert (Hmissing : forall (b : Agent App),
            prop (getState (store (perform [showCaption "Error: API Key missing" (Some 3000%N);
                                            playErrorEarcon]
                                     (update [("lastError", str "API Key missing.")] b)))) key
            = prop (getState (store b)) key).
  { intros b. change (store (perform ?es ?x)) with (store x). apply prop_update_frame, Hlast. }
  destruct (agentApiKey a) as [[|c k]|]; try (rewrite Hmissing; reflexivity).
  destruct (construction env) as [|error].
  - match goal with
    | |- prop (getState (store (match spoken env GREETING_MESSAGE with
                                | Resolved _ => ?x
                                | Rejected error => enable_failed error ?x
                                end))) key = _ =>
        assert (Hx : prop (getState (store x)) key = prop (getState (store a)) key);
        [|destruct (spoken env GREETING_MESSAGE);
          [exact Hx|rewrite (proj2 (proj2 (proj2 (proj2 (enable_failed_slots _ x)))))
                      by assumption; exact Hx]]
    end.
    change (store (perform ?es ?x)) with (store x). rewrite prop_update_frame.
    + rewrite slot_deliver_other by assumption. reflexivity.
    + cbn. intros H.
      repeat (apply elem_of_cons in H; destruct H as [H|H]; [contradiction|]). inversion H.
  - rewrite (proj2 (proj2 (proj2 (proj2 (enable_failed_slots error _))))) by assumption.
    reflexivity.
Qed.

End OrchestrationMore.

Section CaptionsOnScreen.
Import Js Captions.
Context {Number : Type} (zero : Number) (plus minus : Number -> Number -> Number)
  (print : Number -> string).

#[local] Abbreviation Service := (@CaptionsService Number).
#[local] Abbreviation step := (@Captions.step Number plus minus print).
#[local] Abbreviation run := (@Captions.run Number plus minus print).

Lemma sound_constructor : sound (constructor zero).
Proof. split; cbn; try reflexivity; try discriminate. Qed.

Lemma filter_out_only {A} `{EqDecision A} (x : A) : filter (fun y => y <> x) [x] = [].
Proof. rewrite filter_cons. destruct (decide (x <> x)); [contradiction|reflexivity]. Qed.

Lemma filter_out_timer (t el : nat) :
  filter (fun entry : nat * nat => entry.1 <> t) [(t, el)] = [].
Proof.
  rewrite filter_cons. cbn. destruct (decide (t <> t)); [contradiction|reflexivity].
Qed.

Lemma sound_removeCaption (s : Service) : sound s -> sound (removeCaption s).
Proof.
  intros [Hbody Htimers Hdrag Hcap Hcur]. unfold removeCaption.
  destruct (currentCaptionElement s) as [el|] eqn:E,
           (currentCaptionTimeoutId s) as [t|] eqn:Et;
    split; cbn; try reflexivity; try discriminate;
    rewrite ?Hbody, ?Htimers, ?filter_out_only, ?filter_out_timer; reflexivity.
Qed.

Lemma removeCaption_fields (s : Service) :
  sound s ->
  currentCaptionElement (removeCaption s) = None
  /\ currentCaptionTimeoutId (removeCaption s) = None
  /\ body (removeCaption s) = []
  /\ timers (removeCaption s) = []
  /\ length (elements (removeCaption s)) = length (elements s)
  /\ persistedLeft (removeCaption s) = persistedLeft s
  /\ persistedTop (removeCaption s) = persistedTop s.
Proof.
  intros Hs. pose proof (sound_removeCaption s Hs) as [Hbody Htimers _ _ _].
  pose proof Hs as [Hbody0 Htimers0 _ _ _].
  unfold removeCaption in *.
  destruct (currentCaptionElement s) as [el|] eqn:E; cbn in *;
    repeat split; try assumption; try reflexivity.
  apply length_alter.
Qed.

Lemma removeCaption_drag (s : Service) :
  isDragging (removeCaption s) = false /\ dragListeners (removeCaption s) = false.
Proof.
  unfold removeCaption. destruct (currentCaptionElement s); split; reflexivity.
Qed.

Lemma sound_showCaption caption milliseconds (s : Service) :
  sound s -> sound (showCaption caption milliseconds s).
Proof.
  intros Hs. destruct (removeCaption_fields s Hs) as (Hcur & Hid & Hbody & Htimers & _).
  destruct (removeCaption_drag s) as [Hdrag Hlisteners].
  unfold showCaption. set (s1 := removeCaption s) in *.
  split; cbn.
  - rewrite Hbody. reflexivity.
  - rewrite Htimers, Hid. destruct (timed milliseconds); reflexivity.
  - rewrite Hdrag, Hlisteners. reflexivity.
  - rewrite Hdrag. discriminate.
  - intros el Hel. inversion Hel; subst el. rewrite lookup_app_r by reflexivity.
    rewrite Nat.sub_diag. destruct (given _ && given _); eexists; split; reflexivity.
Qed.

Lemma sound_onMouseDown event rect (s : Service) :
  sound s -> sound (_onMouseDown print event rect s).
Proof.
  intros Hs. pose proof Hs as [Hbody Htimers Hdrag Hcap Hcur]. unfold _onMouseDown.
  destruct (currentCaptionElement s) as [el|] eqn:E; [|exact Hs].
  split; cbn; rewrite ?E; try assumption; try reflexivity.
  - eauto.
  - intros el0 Hel0. inversion Hel0; subst el0.
    destruct (Hcur el eq_refl) as [e [He Hl]].
    exists (restyle (px print rect.1) (px print rect.2) "none" e).
    split; [|exact Hl]. rewrite list_lookup_alter_eq, He. reflexivity.
Qed.

Lemma sound_onMouseMove event (s : Service) :
  sound s -> sound (_onMouseMove plus minus print event s).
Proof.
  intros Hs. pose proof Hs as [Hbody Htimers Hdrag Hcap Hcur]. unfold _onMouseMove.
  destruct (isDragging s) eqn:Ed; [|exact Hs].
  destruct (currentCaptionElement s) as [el|] eqn:E; [|exact Hs].
  split; cbn; rewrite ?E, ?Ed; try assumption; try reflexivity.
  intros el0 Hel0. inversion Hel0; subst el0.
  destruct (Hcur el eq_refl) as [e [He Hl]].
  eexists. split; [rewrite list_lookup_alter_eq, He; reflexivity|exact Hl].
Qed.

Lemma sound_onMouseUp (s : Service) : sound s -> sound (_onMouseUp s).
Proof.
  intros Hs. pose proof Hs as [Hbody Htimers Hdrag Hcap Hcur]. unfold _onMouseUp.
  destruct (isDragging s) eqn:Ed; [|exact Hs].
  split; cbn; try assumption; try reflexivity. discriminate.
Qed.

Lemma sound_step (s : Service) (i : Input) : sound s -> sound (step s i).
Proof.
  intros Hs. destruct i as [caption ms| |timer|target event rect|event|]; cbn [Captions.step].
  - apply sound_showCaption, Hs.
  - apply sound_removeCaption, Hs.
  - pose proof Hs as [Hbody Htimers Hdrag Hcap Hcur].
    destruct (list_find _ (timers s)) as [[i [t el]]|] eqn:Ef; [|exact Hs].
    apply list_find_Some in Ef. destruct Ef as (Hi & Ht & _). cbn in Ht. subst t.
    rewrite Htimers in Hi.
    destruct (currentCaptionTimeoutId s) as [t|] eqn:Et; [|destruct i; discriminate].
    destruct (currentCaptionElement s) as [el0|] eqn:E; [|destruct i; discriminate].
    destruct i as [|i]; [|destruct i; discriminate]. inversion Hi; subst t el0.
    unfold timeout_callback. cbn [currentCaptionElement].
    rewrite bool_decide_eq_true_2 by reflexivity.
    unfold removeCaption. cbn.
    split; cbn; try reflexivity; try discriminate.
    + rewrite Hbody. apply filter_out_only.
    + rewrite Htimers, filter_out_timer. reflexivity.
  - destruct (_ && _); [apply sound_onMouseDown, Hs|exact Hs].
  - destruct (dragListeners s); [apply sound_onMouseMove, Hs|exact Hs].
  - destruct (dragListeners s); [apply sound_onMouseUp, Hs|exact Hs].
Qed.

(** The service stays sound, whatever is asked of it and whatever the
    browser delivers, in any order: at most one caption is on the page and
    it is the current one; at most one timer can still come due and it
    belongs to that caption, so that a timer never removes a caption shown
    after the one it was set for; and the document carries the handlers of
    the drag exactly while a caption is being dragged. *)
Theorem captions_stay_sound (inputs : list Input) :
  let s := run inputs (constructor zero) in
  sound s /\ length (onScreen s) <= 1 /\ length (timers s) <= 1.
Proof.
  cbv zeta.
  assert (H : sound (run inputs (constructor zero))).
  { unfold Captions.run. generalize (sound_constructor). generalize (constructor zero).
    induction inputs as [|i inputs IH]; intros s Hs; [exact Hs|].
    cbn [foldl]. apply IH, sound_step, Hs. }
  split; [exact H|]. destruct H as [Hbody Htimers _ _ _]. split.
  - unfold onScreen. rewrite Hbody. destruct (currentCaptionElement _); cbn; [|lia].
    destruct (_ !! _); cbn; lia.
  - rewrite Htimers.
    destruct (currentCaptionTimeoutId _), (currentCaptionElement _); cbn; lia.
Qed.

(** A caption that is being shown, with the timer it may have. *)
Lemma shown_step caption (t : option nat) el (x : Service) (i : Input) :
  passive i = true ->
  (forall timer, t = Some timer -> i <> timeout timer) ->
  sound x /\ currentCaptionElement x = Some el
  /\ (exists e, elements x !! el = Some e /\ textContent e = caption)
  /\ currentCaptionTimeoutId x = t ->
  sound (step x i) /\ currentCaptionElement (step x i) = Some el
  /\ (exists e, elements (step x i) !! el = Some e /\ textContent e = caption)
  /\ currentCaptionTimeoutId (step x i) = t.
Proof.
  intros Hpassive Hnot (Hx & Hcur & [e [He Htext]] & Hid).
  split; [apply sound_step, Hx|].
  pose proof Hx as [Hbody Htimers _ _ _].
  destruct i as [c ms| |timer|target event rect|event|]; try discriminate; cbn [Captions.step].
  - destruct (list_find _ (timers x)) as [[i [t' el']]|] eqn:Ef; [|eauto 6].
    exfalso. apply list_find_Some in Ef. destruct Ef as (Hi & Ht & _). cbn in Ht. subst t'.
    rewrite Htimers, Hid, Hcur in Hi. destruct t as [t|]; [|destruct i; discriminate].
    destruct i as [|i]; [|destruct i; discriminate]. inversion Hi; subst.
    apply (Hnot timer); reflexivity.
  - destruct (_ && _); [|eauto 6]. unfold _onMouseDown. rewrite Hcur. cbn.
    split; [reflexivity|]. split; [|exact Hid].
    eexists. split; [rewrite list_lookup_alter_eq, He; reflexivity|exact Htext].
  - destruct (dragListeners x); [|eauto 6]. unfold _onMouseMove.
    destruct (isDragging x); [|eauto 6]. rewrite Hcur. cbn.
    split; [reflexivity|]. split; [|exact Hid].
    eexists. split; [rewrite list_lookup_alter_eq, He; reflexivity|exact Htext].
  - destruct (dragListeners x); [|eauto 6]. unfold _onMouseUp.
    destruct (isDragging x); [|eauto 6]. cbn. eauto 6.
Qed.

Lemma timeouts_removeCaption (s : Service) : timeouts (removeCaption s) = timeouts s.
Proof. unfold removeCaption. destruct (currentCaptionElement s); reflexivity. Qed.

(** How long a caption stays. Once shown, a caption is the one on the
    screen for as long as no other is shown, none is removed, and its own
    timer has not come due: other timers, and presses, moves and releases
    of the pointer leave it there. A caption shown without a duration (or
    with a duration of zero) has no timer at all; one shown with a
    duration goes when its timer comes due. *)
Theorem caption_stays_until_its_time
    (caption : string) (milliseconds : option N) (inputs : list Input) (s : Service) :
  sound s ->
  forallb passive inputs = true ->
  (timed milliseconds = true -> timeout (timeouts s) ∉ inputs) ->
  let shown := showCaption caption milliseconds s in
  onScreen (run inputs shown) = [caption]
  /\ (timed milliseconds = false -> timers (run inputs shown) = [])
  /\ (timed milliseconds = true ->
        onScreen (step (run inputs shown) (timeout (timeouts s))) = []).
Proof.
  intros Hs Hpassive Hnot shown.
  set (t := if timed milliseconds then Some (timeouts s) else None).
  set (el := length (elements (removeCaption s))).
  assert (Hshown : sound shown /\ currentCaptionElement shown = Some el
                   /\ (exists e, elements shown !! el = Some e /\ textContent e = caption)
                   /\ currentCaptionTimeoutId shown = t).
  { split; [apply sound_showCaption, Hs|]. split; [reflexivity|].
    destruct (removeCaption_fields s Hs) as (_ & Hid & _). split.
    - subst shown el. unfold showCaption. cbn [elements].
      rewrite lookup_app_r by reflexivity. rewrite Nat.sub_diag.
      destruct (given _ && given _); eexists; split; reflexivity.
    - subst shown t. unfold showCaption. cbn [currentCaptionTimeoutId].
      rewrite Hid, timeouts_removeCaption. reflexivity. }
  assert (Hrun : sound (run inputs shown) /\ currentCaptionElement (run inputs shown) = Some el
                 /\ (exists e, elements (run inputs shown) !! el = Some e
                               /\ textContent e = caption)
                 /\ currentCaptionTimeoutId (run inputs shown) = t).
  { clear Hs. revert Hshown. generalize shown. clear shown.
    induction inputs as [|i inputs IH]; intros x Hx; [exact Hx|].
    cbn [forallb] in Hpassive. apply andb_true_iff in Hpassive. destruct Hpassive as [Hi Hrest].
    unfold Captions.run. cbn [foldl]. apply IH; [exact Hrest| |].
    - intros Htimed Hin. apply (Hnot Htimed). right. exact Hin.
    - apply (shown_step caption t el x i Hi); [|exact Hx].
      intros timer Ht ->. subst t. destruct (timed milliseconds) eqn:Htimed; [|discriminate].
      inversion Ht; subst timer. apply (Hnot eq_refl). left. }
  destruct Hrun as (Hsound & Hcur & [e [He Htext]] & Hid).
  pose proof Hsound as [Hbody Htimers _ _ _].
  split; [|split].
  - unfold onScreen. rewrite Hbody, Hcur. cbn. rewrite He. cbn. rewrite Htext. reflexivity.
  - intros Htimed. rewrite Htimers, Hid. subst t. rewrite Htimed. reflexivity.
  - intros Htimed. cbn [Captions.step]. rewrite Htimers, Hid, Hcur. subst t. rewrite Htimed.
    cbn. rewrite decide_True by reflexivity. cbn.
    unfold timeout_callback. cbn [currentCaptionElement].
    rewrite bool_decide_eq_true_2 by reflexivity.
    unfold removeCaption, onScreen. cbn. rewrite Hbody, Hcur.
    rewrite filter_out_only. reflexivity.
Qed.

Lemma given_px (n : Number) : given (Some (px print n)) = true.
Proof. unfold px. destruct (print n); reflexivity. Qed.

Lemma run_app inputs inputs' (s : Service) :
  run (inputs ++ inputs') s = run inputs' (run inputs s).
Proof. apply foldl_app. Qed.

(** A caption in the middle of a drag that began with [press] on a caption
    found at [rect]. *)
Lemma dragging_moves press rect el (moves : list Pointer) (x : Service) :
  currentCaptionElement x = Some el -> isDragging x = true -> dragListeners x = true ->
  startX x = clientX press -> startY x = clientY press ->
  initialLeft x = rect.1 -> initialTop x = rect.2 ->
  (exists e, elements x !! el = Some e
             /\ (left e, top e) = dropped_at plus minus print press rect []) ->
  let y := run (mousemove <$> moves) x in
  currentCaptionElement y = Some el /\ isDragging y = true /\ dragListeners y = true
  /\ persistedLeft y = persistedLeft x /\ persistedTop y = persistedTop x
  /\ length (elements y) = length (elements x)
  /\ exists e, elements y !! el = Some e
               /\ (left e, top e) = dropped_at plus minus print press rect moves.
Proof.
  intros Hcur Hdrag Hlisten Hx Hy Hl Ht Hel.
  induction moves as [|m moves IH] using rev_ind; [cbn; auto 10|].
  rewrite fmap_app, run_app. cbv zeta in *.
  destruct IH as (Hcur' & Hdrag' & Hlisten' & Hpl & Hpt & Hlen & [e [He _]]).
  set (y := run (mousemove <$> moves) x) in *.
  assert (Hsx : startX y = clientX press /\ startY y = clientY press
                /\ initialLeft y = rect.1 /\ initialTop y = rect.2).
  { subst y. clear -Hx Hy Hl Ht. induction moves as [|m' moves IH] using rev_ind; [auto|].
    rewrite fmap_app, run_app. cbn. destruct (dragListeners _); [|exact IH].
    unfold _onMouseMove.
    destruct (isDragging (run (mousemove <$> moves) x)),
             (currentCaptionElement (run (mousemove <$> moves) x)); exact IH. }
  destruct Hsx as (Hsx & Hsy & Hil & Hit).
  cbn. rewrite Hlisten'. unfold _onMouseMove. rewrite Hdrag', Hcur'. cbn.
  rewrite length_alter.
  repeat (split; [assumption || reflexivity|]).
  eexists. split; [rewrite list_lookup_alter_eq, He; reflexivity|].
  unfold dropped_at. rewrite last_snoc. cbn. rewrite Hsx, Hsy, Hil, Hit. reflexivity.
Qed.

(** The position of a caption persists. When the caption on the screen is
    dragged (a press on it, any moves of the pointer, a release) the
    service remembers where it was dropped, and the next caption appears
    at that very place, its centring transform removed, instead of the
    default place at the top of the page. *)
Theorem next_caption_appears_where_the_last_was_dropped
    (s : Service) (el : nat) (press : Pointer) (rect : Number * Number)
    (moves : list Pointer) (caption : string) (milliseconds : option N) :
  sound s ->
  currentCaptionElement s = Some el ->
  let dropped := run ([mousedown el press rect] ++ (mousemove <$> moves) ++ [mouseup]) s in
  let next := showCaption caption milliseconds dropped in
  let place := dropped_at plus minus print press rect moves in
  (persistedLeft dropped, persistedTop dropped) = (Some place.1, Some place.2)
  /\ isDragging dropped = false
  /\ exists new e,
       currentCaptionElement next = Some new /\ new <> el
       /\ elements next !! new = Some e
       /\ textContent e = caption
       /\ (left e, top e, transform e) = (place.1, place.2, "none").
Proof.
  intros Hs Hcur dropped next place.
  pose proof Hs as [Hbody Htimers Hdrag Hcap Hlistens].
  destruct (Hlistens el Hcur) as [e0 [He0 Hl0]].
  set (pressed := step s (mousedown el press rect)).
  assert (Hpressed : pressed = _onMouseDown print press rect s).
  { subst pressed. cbn [Captions.step]. rewrite Hbody, Hcur, He0. cbn. rewrite Hl0.
    rewrite bool_decide_eq_true_2 by (left). reflexivity. }
  assert (Hfields : currentCaptionElement pressed = Some el /\ isDragging pressed = true
                    /\ dragListeners pressed = true
                    /\ startX pressed = clientX press /\ startY pressed = clientY press
                    /\ initialLeft pressed = rect.1 /\ initialTop pressed = rect.2
                    /\ length (elements pressed) = length (elements s)
                    /\ exists e, elements pressed !! el = Some e
                         /\ (left e, top e) = dropped_at plus minus print press rect []).
  { rewrite Hpressed. unfold _onMouseDown. rewrite Hcur. cbn. rewrite length_alter.
    repeat (split; [reflexivity|]).
    eexists. split; [rewrite list_lookup_alter_eq, He0; reflexivity|reflexivity]. }
  destruct Hfields as (H1 & H2 & H3 & H4 & H5 & H6 & H7 & Hlen & H8).
  destruct (dragging_moves press rect el moves pressed H1 H2 H3 H4 H5 H6 H7 H8)
    as (Hc & Hd & Hl & _ & _ & Hlen' & [e [He Hplace]]).
  set (moved := run (mousemove <$> moves) pressed) in *.
  assert (Hdropped : dropped = _onMouseUp moved).
  { subst dropped. rewrite run_app. fold pressed. change (run [mousedown el press rect] s) with pressed.
    rewrite run_app. fold moved. cbn. rewrite Hl. reflexivity. }
  assert (Hleft : left e = place.1) by (subst place; rewrite <- Hplace; reflexivity).
  assert (Htop : top e = place.2) by (subst place; rewrite <- Hplace; reflexivity).
  assert (Hpersisted : persistedLeft dropped = Some place.1 /\ persistedTop dropped = Some place.2
                       /\ isDragging dropped = false
                       /\ length (elements dropped) = length (elements s)
                       /\ currentCaptionElement dropped = Some el).
  { rewrite Hdropped. unfold _onMouseUp. rewrite Hd. cbn. rewrite Hc. cbn. rewrite He.
    rewrite Hleft, Htop, Hlen', Hlen. auto. }
  destruct Hpersisted as (Hpl & Hpt & Hnd & Hlen'' & Hcd).
  split; [rewrite Hpl, Hpt; reflexivity|]. split; [exact Hnd|].
  assert (Hgiven : given (Some place.1) && given (Some place.2) = true).
  { subst place. unfold dropped_at. destruct (last moves); cbn [fst snd];
      rewrite !given_px; reflexivity. }
  assert (Hrm : persistedLeft (removeCaption dropped) = Some place.1
                /\ persistedTop (removeCaption dropped) = Some place.2
                /\ length (elements (removeCaption dropped)) = length (elements s)).
  { unfold removeCaption. rewrite Hcd. cbn. rewrite length_alter. auto. }
  destruct Hrm as (Hrl & Hrt & Hrlen).
  exists (length (elements (removeCaption dropped))).
  subst next. unfold showCaption. cbn [currentCaptionElement elements].
  rewrite lookup_app_r by reflexivity. rewrite Nat.sub_diag, Hrl, Hrt, Hgiven.
  eexists. split; [reflexivity|]. split.
  - rewrite Hrlen. apply lookup_lt_Some in He0. lia.
  - repeat split.
Qed.

End CaptionsOnScreen.

Section MicrophoneAndKeyboard.
Import Js State Controls.
Context {App : Type} (tools : Tools.Implementations App).

#[local] Abbreviation Orch := (Orchestrator App).

Lemma orderly_log cs (s : Orch) : orderly s -> orderly (log cs s).
Proof. intros [? ? ? ?]. split; assumption. Qed.

Lemma orderly_set_stops waiting (s : Orch) : orderly s -> orderly (set_stops waiting s).
Proof. intros [? ? ? ?]. split; assumption. Qed.

Lemma orderly_set_greetings n (s : Orch) : orderly s -> orderly (set_greetings n s).
Proof. intros [? ? ? ?]. split; assumption. Qed.

Lemma orderly_set_sttService stt (s : Orch) :
  Stt.consistent stt -> orderly s -> orderly (set_sttService stt s).
Proof. intros Hstt [? ? ? ?]. split; assumption. Qed.

Lemma orderly_lift (f : Agent.Agent App -> Agent.Agent App) (s : Orch) :
  (Agent.coherent (agent s) -> Agent.coherent (f (agent s))) ->
  orderly s -> orderly (lift f s).
Proof.
  intros Hf [He Hc Ht Hs]. split; try assumption; [reflexivity|].
  apply (coherent_same (f (agent s))); [reflexivity|reflexivity|]. apply Hf, Hc.
Qed.

Lemma orderly_cleared (s : Orch) :
  orderly s ->
  orderly (match micStopTimeoutId s with
           | Some id => set_micStopTimeoutId None (clear id s)
           | None => s
           end).
Proof.
  intros H. pose proof H as [He Hc Ht Hs].
  destruct (micStopTimeoutId s) as [id|] eqn:E; [|exact H].
  split; try assumption. left. cbn.
  destruct Ht as [->|[id' [-> Hid]]]; [reflexivity|].
  assert (id' = id) by congruence. subst id'.
  rewrite filter_cons. destruct (decide (id <> id)); [contradiction|reflexivity].
Qed.

Lemma orderly_arm (s : Orch) :
  orderly s ->
  orderly (arm MIC_RELEASE_DELAY_MS
             (match micStopTimeoutId s with
              | Some id => clear id s
              | None => s
              end)).
Proof.
  intros [He Hc Ht Hs].
  assert (Hempty : timers (match micStopTimeoutId s with
                           | Some id => clear id s
                           | None => s
                           end) = []).
  { destruct (micStopTimeoutId s) as [id|] eqn:E.
    - cbn. destruct Ht as [->|[id' [-> Hid]]]; [reflexivity|].
      assert (id' = id) by congruence. subst id'.
      rewrite filter_cons. destruct (decide (id <> id)); [contradiction|reflexivity].
    - destruct Ht as [->|[id' [_ Hid]]]; [reflexivity|discriminate]. }
  split.
  - destruct (micStopTimeoutId s); exact He.
  - destruct (micStopTimeoutId s); exact Hc.
  - right. eexists. unfold arm. cbn [timers micStopTimeoutId log]. rewrite Hempty.
    split; reflexivity.
  - destruct (micStopTimeoutId s); exact Hs.
Qed.

Lemma coherent_mic (b : bool) (a : Agent.Agent App) :
  Agent.coherent a -> Agent.coherent (Agent.update [("isMicOpen", boolean b)] a).
Proof. apply coherent_update; try reflexivity. right. exists b. reflexivity. Qed.

Lemma orderly_startRecording started (s : Orch) :
  orderly s -> orderly (_startRecording started s).
Proof.
  intros H. unfold _startRecording.
  destruct (negb (isAgentEnabled s) || isMicOpen s); [exact H|].
  assert (Hstt : Stt.consistent (Stt.start started (sttService s)).1).
  { apply (consistent_step (sttService s) (Stt.call_start started)), H. }
  cbn [sttService log].
  destruct (Stt.start started (sttService s)) as [stt [|e]]; cbn [fst] in Hstt.
  - apply orderly_lift; [apply coherent_mic|].
    apply orderly_set_sttService; [exact Hstt|]. apply orderly_log, H.
  - apply orderly_set_sttService; [exact Hstt|]. apply orderly_log, H.
Qed.

Lemma orderly_stopRecording stopped (s : Orch) :
  orderly s -> orderly (_stopRecording stopped s).
Proof.
  intros H. unfold _stopRecording.
  destruct (negb (isAgentEnabled s) || negb (isMicOpen s)); [exact H|].
  set (s1 := lift _ (log [playMicOffEarcon] s)).
  assert (H1 : orderly s1).
  { subst s1. apply orderly_lift; [apply coherent_mic|]. apply orderly_log, H. }
  assert (Hstt : Stt.consistent (Stt.stop stopped (sttService s1)).1).
  { apply (consistent_step (sttService s1) (Stt.call_stop stopped)), H1. }
  destruct (Stt.stop stopped (sttService s1)) as [stt returned]; cbn [fst] in Hstt.
  apply orderly_set_stops, orderly_set_sttService; [exact Hstt|]. apply orderly_log, H1.
Qed.

Lemma orderly_transcript_failed error (s : Orch) :
  orderly s -> orderly (transcript_failed error s).
Proof.
  intros H. unfold transcript_failed. apply orderly_lift; [|exact H].
  intros Hc. apply coherent_perform, coherent_update; try reflexivity; [left; reflexivity|].
  exact Hc.
Qed.

Lemma orderly_transcript_settled geminiClient how (s : Orch) :
  orderly s -> orderly (transcript_settled geminiClient how s).
Proof.
  intros H. unfold transcript_settled. destruct how as [transcript|error].
  - destruct (negb (bool_decide (transcript = "")) && Agent.truthy geminiClient).
    + destruct geminiClient; try (apply orderly_transcript_failed, orderly_log, H).
      apply orderly_log, orderly_log, H.
    + destruct (bool_decide (transcript = "")); [apply orderly_log, H|exact H].
  - apply orderly_transcript_failed, H.
Qed.

Lemma orderly_reactions (s : Orch) : orderly s -> orderly (reactions s).
Proof.
  intros H. unfold reactions.
  generalize (omap (fun waiting : Stt.Returned * Value =>
                      (fun how => (waiting.2, how)) <$> outcome (sttService s) waiting.1)
                (stops s)).
  intros ready.
  assert (H0 : orderly (set_stops (filter (fun waiting : Stt.Returned * Value =>
                                             outcome (sttService s) waiting.1 = None)
                                     (stops s)) s))
    by (apply orderly_set_stops, H).
  revert H0. generalize (set_stops (filter (fun waiting : Stt.Returned * Value =>
                                              outcome (sttService s) waiting.1 = None)
                                      (stops s)) s).
  induction ready as [|r ready IH]; intros x Hx; [exact Hx|].
  cbn [foldl]. apply IH, orderly_transcript_settled, Hx.
Qed.

Lemma orderly_toggle construction startChat aborted (s : Orch) :
  orderly s -> orderly (_handleAgentToggleClick tools construction startChat aborted s).
Proof.
  intros H. unfold _handleAgentToggleClick.
  set (env := {| Agent.construction := construction |}).
  assert (H1 : orderly (lift (Agent._handleAgentToggleClick tools env) s))
    by (apply orderly_lift; [apply coherent_toggle|exact H]).
  destruct (isAgentEnabled s).
  - destruct (Stt.getIsListening (sttService s)); [|exact H1].
    apply orderly_set_sttService; [|exact H1].
    apply (consistent_step (sttService s) (Stt.call_abort aborted)), H.
  - destruct (Agent.agentApiKey (agent s)) as [[|c key]|]; try exact H1.
    destruct construction; [apply orderly_set_greetings, H1|exact H1].
Qed.

Lemma orderly_handler (s : Orch) (i : Input) : orderly s -> orderly (handler tools s i).
Proof.
  intros H.
  destruct i as [construction startChat aborted|how|touchstart started|stopped
                |event speaking construction startChat aborted started|event
                |id stopped|event|client event spoken]; cbn [handler].
  - apply orderly_toggle, H.
  - unfold greeting_settled. destruct (greetings s) as [|n]; [exact H|].
    destruct how as [|error]; [apply orderly_set_greetings, H|].
    apply orderly_lift; [apply coherent_enable_failed|apply orderly_set_greetings, H].
  - unfold _handleMicPress.
    assert (H1 : orderly (if touchstart then log [preventDefault] s else s))
      by (destruct touchstart; [apply orderly_log, H|exact H]).
    destruct (negb _ || _); [exact H1|apply orderly_startRecording, H1].
  - unfold _handleMicRelease. apply orderly_cleared.
    destruct (isAgentEnabled s && isMicOpen s); [apply orderly_stopRecording, H|exact H].
  - unfold keydownListener.
    set (s1 := if bool_decide (event_key event = "Escape") && speaking then _ else s).
    assert (H1 : orderly s1)
      by (subst s1; destruct (_ && speaking); [apply orderly_log, H|exact H]).
    set (s2 := if matches_keydown event (toggleAgent s1) && negb (event_repeat event)
               then _ else s1).
    assert (H2 : orderly s2).
    { subst s2. destruct (_ && negb _); [|exact H1].
      apply orderly_toggle, orderly_log, H1. }
    destruct (matches_keydown event (toggleMic s2) && negb (event_repeat event)); [|exact H2].
    destruct (isAgentEnabled s2 && negb (isMicOpen s2)); [|exact H2].
    apply orderly_startRecording.
    apply (orderly_cleared (log [preventDefault] s2)), orderly_log, H2.
  - unfold keyupListener. destruct (matches_keyup event (toggleMic s)); [|exact H].
    destruct (isAgentEnabled s && isMicOpen s); [|exact H].
    apply (orderly_arm (log [preventDefault] s)), orderly_log, H.
  - destruct (bool_decide (id ∈ timers s)) eqn:Hid; [|exact H].
    apply bool_decide_eq_true in Hid. apply orderly_stopRecording.
    destruct H as [He Hc Ht Hs]. split; try assumption. left. cbn.
    destruct Ht as [Ht|[id' [Ht _]]]; rewrite Ht in *; [inversion Hid|].
    apply list_elem_of_singleton in Hid. subst id'.
    rewrite filter_cons. destruct (decide (id <> id)); [contradiction|reflexivity].
  - apply orderly_set_sttService; [|exact H]. apply consistent_step, H.
  - destruct (Agent.clients (agent s) !! client) as [object|]; [|exact H].
    apply orderly_lift; [apply coherent_deliver|exact H].
Qed.

Lemma orderly_initialized apiKey modelName language keys (app : App) :
  orderly (initialized apiKey modelName language keys app).
Proof.
  split.
  - reflexivity.
  - split; [left; split; reflexivity|exists false; reflexivity].
  - left. reflexivity.
  - apply consistent_cleared; [apply tidy_constructor|reflexivity].
Qed.

Lemma orderly_run inputs (s : Orch) : orderly s -> orderly (run tools inputs s).
Proof.
  unfold run. revert s. induction inputs as [|i inputs IH]; intros s H; [exact H|].
  cbn [foldl]. apply IH. unfold step. apply orderly_reactions, orderly_handler, H.
Qed.

(** Whatever the user does with the two buttons and the keyboard, whatever
    the recognizer and the clients deliver and however the greeting
    settles, in any order: the agent is enabled exactly when the state
    holds a client, and then that client is on the heap with the three
    handlers of the orchestrator subscribed; [isMicOpen] holds a boolean;
    at most one timer of the keyboard delay is set, the one
    [micStopTimeoutId] remembers; and the promises of the speech capture
    service are kept in order. *)
Theorem orchestrator_stays_orderly (inputs : list Input)
    (apiKey : string) (modelName : option string) (language : string)
    (keys : Shortcut * Shortcut) (app : App) :
  let s := run tools inputs (initialized apiKey modelName language keys app) in
  orderly s
  /\ (isAgentEnabled s = true <-> slot "geminiClient" s <> null)
  /\ length (timers s) <= 1.
Proof.
  cbv zeta.
  assert (H : orderly (run tools inputs (initialized apiKey modelName language keys app)))
    by apply orderly_run, orderly_initialized.
  split; [exact H|]. destruct H as [_ [Hsync _] Ht _]. split.
  - unfold isAgentEnabled.
    unfold Agent.isAgentEnabled, Agent.geminiClient in Hsync. unfold slot.
    destruct Hsync as [[-> ->]|[-> [client [object [-> _]]]]]; cbn.
    + split; [discriminate|intros Hn; contradiction].
    + split; [discriminate|reflexivity].
  - destruct Ht as [->|[id [-> _]]]; cbn; lia.
Qed.

Lemma nothing_ready stt (waiting : list (Stt.Returned * Value)) :
  Forall (fun w => outcome stt w.1 = None) waiting ->
  omap (fun w : Stt.Returned * Value => (fun how => (w.2, how)) <$> outcome stt w.1) waiting
  = []
  /\ filter (fun w : Stt.Returned * Value => outcome stt w.1 = None) waiting = waiting.
Proof.
  induction 1 as [|w waiting Hw _ [IH1 IH2]]; [split; reflexivity|].
  cbn [omap list_omap]. rewrite filter_cons, Hw. cbn.
  change (omap ?f waiting) with (omap f waiting) in IH1.
  destruct (decide (None = None)); [|contradiction]. split; [exact IH1|].
  f_equal. exact IH2.
Qed.

Lemma reactions_none (x : Orch) :
  Forall (fun w => outcome (sttService x) w.1 = None) (stops x) -> reactions x = x.
Proof.
  intros H. destruct (nothing_ready _ _ H) as [H1 H2]. unfold reactions.
  rewrite H1, H2. destruct x; reflexivity.
Qed.

Lemma run_snoc inputs i (x : Orch) :
  run tools (inputs ++ [i]) x = step tools (run tools inputs x) i.
Proof. unfold run. rewrite foldl_app. reflexivity. Qed.

Lemma run_inputs_app inputs inputs' (x : Orch) :
  run tools (inputs ++ inputs') x = run tools inputs' (run tools inputs x).
Proof. apply foldl_app. Qed.

(** While no registered promise settles, the events of the recognizer
    change the speech capture service and nothing else. *)
Lemma run_recognizer (events : list Recognizer) (x : Orch) :
  (forall earlier, earlier `prefix_of` events ->
     Forall (fun w => outcome (Stt.run (fires <$> earlier) (sttService x)) w.1 = None)
       (stops x)) ->
  run tools (recognizer <$> events) x
  = set_sttService (Stt.run (fires <$> events) (sttService x)) x.
Proof.
  induction events as [|e events IH] using rev_ind; intros H.
  - destruct x; reflexivity.
  - rewrite fmap_app. cbn [fmap list_fmap]. rewrite run_snoc.
    rewrite IH by (intros earlier Hp; apply H; etrans; [exact Hp|apply prefix_app_r; reflexivity]).
    unfold step. cbn [handler sttService set_sttService].
    assert (Hrun : Stt.step (Stt.run (fires <$> events) (sttService x)) (fires e)
                   = Stt.run (fires <$> events ++ [e]) (sttService x)).
    { rewrite fmap_app. unfold Stt.run. rewrite foldl_app. reflexivity. }
    rewrite Hrun. apply reactions_none. cbn [sttService stops]. apply H. reflexivity.
Qed.

Lemma fires_results (events : list Stt.SpeechRecognitionEvent) :
  fires <$> (onresult <$> events) = Stt.fire_result <$> events.
Proof. induction events as [|e events IH]; [reflexivity|]. cbn. f_equal. exact IH. Qed.

Lemma enabled_of_slot (x : Orch) :
  slot "isAgentEnabled" x = boolean true -> isAgentEnabled x = true.
Proof. unfold isAgentEnabled. intros ->. reflexivity. Qed.

Lemma micOpen_of_slot (x : Orch) (open : bool) :
  slot "isMicOpen" x = boolean open -> isMicOpen x = open.
Proof. unfold isMicOpen. intros ->. reflexivity. Qed.

Lemma slot_mic_update (b : bool) (x : Orch) :
  slot "isMicOpen" (lift (Agent.update [("isMicOpen", boolean b)]) x) = boolean b
  /\ slot "isAgentEnabled" (lift (Agent.update [("isMicOpen", boolean b)]) x)
     = slot "isAgentEnabled" x
  /\ slot "geminiClient" (lift (Agent.update [("isMicOpen", boolean b)]) x)
     = slot "geminiClient" x.
Proof.
  unfold slot, lift. cbn [agent log set_agent forget Agent.store].
  rewrite (update_as_perform [("isMicOpen", boolean b)]).
  split; [apply prop_after_update; reflexivity|].
  split; apply prop_after_update_other; reflexivity.
Qed.

(** Pressing the button of the microphone on an enabled agent whose
    microphone is closed. *)
Lemma press_opens_the_microphone touchstart (s : Orch) :
  slot "isAgentEnabled" s = boolean true -> slot "isMicOpen" s = boolean false ->
  stops s = [] ->
  let x := step tools s (press_micButton touchstart Normal) in
  slot "isAgentEnabled" x = boolean true
  /\ slot "geminiClient" x = slot "geminiClient" s
  /\ slot "isMicOpen" x = boolean true
  /\ sttService x = (Stt.start Normal (sttService s)).1
  /\ stops x = []
  /\ greetings x = greetings s
  /\ exists cs, calls x = calls s ++ cs.
Proof.
  intros Hen Hmic Hstops x.
  set (s1 := if touchstart then log [preventDefault] s else s).
  assert (H1 : agent s1 = agent s /\ sttService s1 = sttService s /\ stops s1 = []
               /\ exists cs, calls s1 = calls s ++ cs).
  { subst s1. destruct touchstart; cbn; repeat split; try assumption; eauto.
    exists []. rewrite app_nil_r. reflexivity. }
  destruct H1 as (Ha1 & Hstt1 & Hstops1 & [cs1 Hcalls1]).
  set (y := lift (Agent.update [("isMicOpen", boolean true)])
              (set_sttService (Stt.start Normal (sttService s)).1
                 (log [playMicOnEarcon; effect Agent.ttsService_stop; sttService_start] s1))).
  assert (Hhandler : handler tools s (press_micButton touchstart Normal) = y).
  { cbn [handler]. unfold _handleMicPress. fold s1.
    assert (Hen1 : isAgentEnabled s1 = true)
      by (unfold isAgentEnabled, slot; rewrite Ha1; apply enabled_of_slot, Hen).
    assert (Hmic1 : isMicOpen s1 = false)
      by (unfold isMicOpen, slot; rewrite Ha1; apply (micOpen_of_slot s false), Hmic).
    rewrite Hen1, Hmic1. cbn [negb orb]. unfold _startRecording.
    rewrite Hen1, Hmic1. cbn [negb orb sttService log]. rewrite Hstt1.
    pose proof (start_Normal (sttService s)) as Hn.
    destruct (Stt.start Normal (sttService s)) as [stt done]. cbn [snd fst] in *.
    subst done. reflexivity. }
  assert (Hx : x = y).
  { subst x. unfold step. rewrite Hhandler. apply reactions_none.
    subst y. cbn [stops lift log set_agent set_sttService]. rewrite Hstops1. constructor. }
  rewrite Hx. subst y.
  destruct (slot_mic_update true
              (set_sttService (Stt.start Normal (sttService s)).1
                 (log [playMicOnEarcon; effect Agent.ttsService_stop; sttService_start] s1)))
    as (Hm & He & Hc).
  split; [rewrite He; unfold slot; cbn [agent set_sttService log]; rewrite Ha1; exact Hen|].
  split; [rewrite Hc; unfold slot; cbn [agent set_sttService log]; rewrite Ha1; reflexivity|].
  split; [exact Hm|]. split; [reflexivity|]. split; [exact Hstops1|].
  split; [subst s1; destruct touchstart; reflexivity|].
  cbn [calls lift log set_agent set_sttService]. rewrite Hcalls1.
  eexists. rewrite <- !app_assoc. reflexivity.
Qed.

Lemma cleared_fields (y : Orch) :
  let z := match micStopTimeoutId y with
           | Some id => set_micStopTimeoutId None (clear id y)
           | None => y
           end in
  agent z = agent y /\ sttService z = sttService y /\ stops z = stops y
  /\ exists cs, calls z = calls y ++ cs.
Proof.
  destruct (micStopTimeoutId y); cbn; repeat split; eauto.
  exists []. rewrite app_nil_r. reflexivity.
Qed.

(** Releasing the button while the microphone is open and the recognizer
    listens. *)
Lemma release_stops_the_recognizer client (x : Orch) :
  slot "isAgentEnabled" x = boolean true -> slot "geminiClient" x = ref client ->
  slot "isMicOpen" x = boolean true ->
  Stt.consistent (sttService x) ->
  Stt.isSupported (sttService x) = true -> Stt.isListening (sttService x) = true ->
  stops x = [] ->
  let y := step tools x (release_micButton Normal) in
  slot "isMicOpen" y = boolean false
  /\ slot "geminiClient" y = ref client
  /\ sttService y = (Stt.stop Normal (sttService x)).1
  /\ stops y = [(Stt.Pending (Stt.promises (sttService x)), ref client)]
  /\ exists cs, calls y = calls x ++ cs.
Proof.
  intros Hen Hcl Hmic Hc Hsup Hl Hstops y.
  destruct (stop_then_end (sttService x) [] Hc Hsup Hl) as (Hp & Hnone & _).
  cbn [fmap list_fmap Stt.run foldl] in Hnone.
  set (x1 := lift (Agent.update [("isMicOpen", boolean false)]) (log [playMicOffEarcon] x)).
  set (x2 := set_stops [(Stt.Pending (Stt.promises (sttService x)), ref client)]
               (set_sttService (Stt.stop Normal (sttService x)).1
                  (log [sttService_stop] x1))).
  assert (Hstop : _stopRecording Normal x = x2).
  { unfold _stopRecording. rewrite (enabled_of_slot x Hen), (micOpen_of_slot x true Hmic).
    cbn [negb orb]. fold x1. rewrite Hcl.
    change (sttService x1) with (sttService x). change (stops x1) with (stops x).
    rewrite Hstops.
    destruct (Stt.stop Normal (sttService x)) as [stt returned]. cbn [fst snd] in *.
    subst returned. reflexivity. }
  set (x3 := match micStopTimeoutId x2 with
             | Some id => set_micStopTimeoutId None (clear id x2)
             | None => x2
             end).
  assert (Hhandler : handler tools x (release_micButton Normal) = x3).
  { cbn [handler]. unfold _handleMicRelease.
    rewrite (enabled_of_slot x Hen), (micOpen_of_slot x true Hmic). cbn [andb].
    rewrite Hstop. reflexivity. }
  destruct (cleared_fields x2) as (Ha3 & Hstt3 & Hstops3 & [cs3 Hcalls3]). fold x3 in Ha3, Hstt3, Hstops3, Hcalls3.
  assert (Hy : y = x3).
  { subst y. unfold step. rewrite Hhandler. apply reactions_none.
    rewrite Hstops3, Hstt3. subst x2. cbn [stops sttService set_stops set_sttService].
    constructor; [exact Hnone|constructor]. }
  rewrite Hy. split; [|split].
  - unfold slot. rewrite Ha3. subst x2. cbn [agent set_stops set_sttService log].
    apply (slot_mic_update false (log [playMicOffEarcon] x)).
  - unfold slot. rewrite Ha3. subst x2. cbn [agent set_stops set_sttService log].
    destruct (slot_mic_update false (log [playMicOffEarcon] x)) as (_ & _ & Hg).
    unfold slot in Hg. fold x1 in Hg. rewrite Hg. exact Hcl.
  - split; [rewrite Hstt3; reflexivity|]. split; [rewrite Hstops3; reflexivity|].
    rewrite Hcalls3. subst x2 x1. cbn [calls set_stops set_sttService log lift set_agent].
    eexists. rewrite <- !app_assoc. reflexivity.
Qed.

(** The recognizer ends while one promise of [sttService.stop()] is
    awaited, and the [end] event resolves it. *)
Lemma end_delivers_the_transcript client p transcript (y : Orch) :
  stops y = [(Stt.Pending p, ref client)] ->
  Stt.settlement p (Stt.step (sttService y) Stt.fire_end) = Some (Resolved transcript) ->
  let z := step tools y (recognizer onend) in
  agent z = agent y
  /\ sttService z = Stt.step (sttService y) Stt.fire_end
  /\ stops z = []
  /\ calls z
     = calls y
       ++ (if bool_decide (transcript = "")
           then [effect (Agent.showCaption "Didn't catch that." (Some 10000%N))]
           else [effect (Agent.showCaption ("You said: " +:+ transcript) (Some 15000%N));
                 geminiClient_sendMessage client transcript]).
Proof.
  intros Hstops Hsettled z. subst z. unfold step. cbn [handler fires].
  unfold reactions. cbn [stops sttService set_sttService set_stops]. rewrite Hstops.
  cbn [omap list_omap outcome fst snd]. rewrite filter_cons. cbn [outcome fst].
  rewrite Hsettled. cbn [fmap option_fmap option_map omap list_omap].
  destruct (decide (Some (Resolved transcript) = None)) as [Hd|_]; [discriminate|].
  rewrite filter_nil. cbn [foldl fst snd]. unfold transcript_settled.
  destruct (bool_decide (transcript = "")) eqn:E; cbn [negb andb Agent.truthy];
    repeat split; cbn; rewrite <- ?app_assoc; reflexivity.
Qed.

(** Push to talk. On an enabled agent with the microphone closed and the
    recognizer idle, the user presses the button of the microphone,
    speaks, and releases it; the recognizer delivers results while the
    button is held and may deliver more after the release, then ends.
    What was heard from the press to the end, trimmed, is sent to the
    client the state held at the release, under the caption that quotes
    it; when nothing was heard, the caption says so and nothing is sent.
    The microphone is closed again and nothing is left pending. *)
Theorem push_to_talk_sends_what_was_heard
    (s : Orch) (client : positive) (touchstart : bool)
    (during after_release : list Stt.SpeechRecognitionEvent) :
  orderly s ->
  slot "isAgentEnabled" s = boolean true ->
  slot "geminiClient" s = ref client ->
  slot "isMicOpen" s = boolean false ->
  Stt.isSupported (sttService s) = true ->
  Stt.isListening (sttService s) = false ->
  stops s = [] ->
  let inputs :=
    [press_micButton touchstart Normal; recognizer onstart]
    ++ (recognizer ∘ onresult <$> during)
    ++ [release_micButton Normal]
    ++ (recognizer ∘ onresult <$> after_release)
    ++ [recognizer onend] in
  let final := run tools inputs s in
  let transcript := Stt.trim (Stt.heard (during ++ after_release) "") in
  slot "isMicOpen" final = boolean false
  /\ slot "geminiClient" final = ref client
  /\ Stt.isListening (sttService final) = false
  /\ stops final = []
  /\ exists before,
       calls final
       = calls s ++ before
         ++ (if bool_decide (transcript = "")
             then [effect (Agent.showCaption "Didn't catch that." (Some 10000%N))]
             else [effect (Agent.showCaption ("You said: " +:+ transcript) (Some 15000%N));
                   geminiClient_sendMessage client transcript]).
Proof.
  intros Hs Hen Hcl Hmic Hsup Hidle Hstops inputs final transcript.
  pose proof (capture_consistent _ Hs) as Hc0.
  (* the press *)
  destruct (press_opens_the_microphone touchstart s Hen Hmic Hstops)
    as (Hen1 & Hcl1 & Hmic1 & Hstt1 & Hstops1 & _ & [cs1 Hcalls1]).
  set (x1 := step tools s (press_micButton touchstart Normal)) in *.
  (* the recognizer starts and hears *)
  set (events2 := onstart :: (onresult <$> during)).
  assert (Hx2 : run tools (recognizer <$> events2) x1
                = set_sttService (Stt.run (fires <$> events2) (sttService x1)) x1).
  { apply run_recognizer. intros earlier _. rewrite Hstops1. constructor. }
  set (x2 := run tools (recognizer <$> events2) x1) in *.
  destruct (start_from_idle (sttService s) Hc0 Hsup Hidle)
    as (Hcl0 & Hsupl & Hll & Hfl & Hpl).
  set (listening := Stt.step (Stt.start Normal (sttService s)).1 Stt.fire_start) in *.
  set (b := Stt.run (Stt.fire_result <$> during) listening).
  assert (Hb : Stt.run (fires <$> events2) (sttService x1) = b).
  { subst events2 b listening. rewrite Hstt1. cbn [fmap list_fmap fires].
    rewrite fires_results. reflexivity. }
  rewrite Hb in Hx2.
  destruct (run_results during listening (proj1 Hcl0) Hsupl)
    as (Htb & Hsupb & Hlb & _ & _ & _ & Hpb).
  fold b in Htb, Hsupb, Hlb, Hpb.
  assert (Hcb : Stt.consistent b) by (apply consistent_run, Hcl0).
  assert (Hfb : Stt.finalTranscript b = Stt.heard during "").
  { subst b. rewrite finalTranscript_results by (apply Hcl0 || exact Hsupl).
    rewrite Hfl. reflexivity. }
  (* the release *)
  destruct (release_stops_the_recognizer client x2)
    as (Hmic3 & Hcl3 & Hstt3 & Hstops3 & [cs3 Hcalls3]);
    try (rewrite Hx2; cbn [sttService set_sttService stops]; assumption);
    try (rewrite Hx2; unfold slot; cbn [agent set_sttService]; assumption).
  { rewrite Hx2. unfold slot. cbn [agent set_sttService]. fold (slot "geminiClient" x1).
    rewrite Hcl1. exact Hcl. }
  { rewrite Hx2. cbn [sttService set_sttService]. rewrite Hlb. exact Hll. }
  set (x3 := step tools x2 (release_micButton Normal)) in *.
  assert (Hstt2 : sttService x2 = b) by (rewrite Hx2; reflexivity).
  rewrite Hstt2 in Hstt3, Hstops3.
  set (p := Stt.promises b) in *.
  set (c := (Stt.stop Normal b).1) in *.
  (* what is heard after the release *)
  set (events4 := onresult <$> after_release).
  assert (Hx4 : run tools (recognizer <$> events4) x3
                = set_sttService (Stt.run (fires <$> events4) (sttService x3)) x3).
  { apply run_recognizer. intros earlier [later Hearlier]. rewrite Hstops3, Hstt3.
    constructor; [|constructor]. cbn [outcome fst].
    assert (Hshape : fires <$> earlier
                     = Stt.fire_result <$> take (length earlier) after_release).
    { rewrite <- fires_results, fmap_take. fold events4. rewrite Hearlier.
      rewrite take_app_length. reflexivity. }
    rewrite Hshape.
    destruct (stop_then_end b (take (length earlier) after_release) Hcb Hsupb
                (eq_trans Hlb Hll)) as (_ & Hnone & _).
    exact Hnone. }
  set (x4 := run tools (recognizer <$> events4) x3) in *.
  set (d := Stt.run (Stt.fire_result <$> after_release) c).
  assert (Hd : Stt.run (fires <$> events4) (sttService x3) = d).
  { subst events4 d. rewrite Hstt3, fires_results. reflexivity. }
  rewrite Hd in Hx4.
  (* the end *)
  destruct (stop_then_end b after_release Hcb Hsupb (eq_trans Hlb Hll))
    as (_ & _ & Hsettled & Hsupd).
  fold p c d in Hsettled, Hsupd.
  assert (Hidle5 : Stt.isListening (Stt.step d Stt.fire_end) = false)
    by (cbn [Stt.step]; rewrite Hsupd; apply onEnd_idle).
  assert (Hfd : Stt.finalTranscript d = Stt.heard (during ++ after_release) "").
  { subst d. rewrite finalTranscript_results.
    - subst c. rewrite (proj1 (stop_keeps Normal b)), Hfb, heard_app. reflexivity.
    - apply (consistent_step b (Stt.call_stop Normal)), Hcb.
    - subst c. rewrite (proj2 (stop_keeps Normal b)). exact Hsupb. }
  rewrite Hfd in Hsettled. fold transcript in Hsettled.
  destruct (end_delivers_the_transcript client p transcript x4) as (Ha5 & Hstt5 & Hstops5 & Hcalls5).
  { rewrite Hx4. cbn [stops set_sttService]. exact Hstops3. }
  { rewrite Hx4. cbn [sttService set_sttService]. exact Hsettled. }
  set (x5 := step tools x4 (recognizer onend)) in *.
  assert (Hfinal : final = x5).
  { subst final inputs x5 x4 x3 x2 x1 events2 events4.
    rewrite !list_fmap_compose. unfold run, step. cbn [fmap list_fmap app foldl].
    repeat first [rewrite foldl_app | progress cbn [foldl app]]. reflexivity. }
  rewrite Hfinal.
  split; [unfold slot; rewrite Ha5, Hx4; cbn [agent set_sttService]; exact Hmic3|].
  split.
  { unfold slot. rewrite Ha5, Hx4. cbn [agent set_sttService]. exact Hcl3. }
  split; [rewrite Hstt5, Hx4; cbn [sttService set_sttService]; exact Hidle5|].
  split; [exact Hstops5|].
  exists (cs1 ++ cs3). rewrite Hcalls5, Hx4. cbn [calls set_sttService].
  rewrite Hcalls3, Hx2. cbn [calls set_sttService]. rewrite Hcalls1, <- !app_assoc.
  reflexivity.
Qed.











(** The microphone opened during the greeting. The agent is being
    enabled and the greeting is still awaited when the user presses the
    button of the microphone: the recording starts. If the promise of the
    greeting then rejects (as it does when the speech is interrupted, and
    [_startRecording] stops the speech), the [catch] block of the toggle
    leaves the agent disabled, with the microphone still open and the
    recognizer started; releasing the button then stops nothing, for the
    agent is not enabled. *)
Theorem microphone_opened_during_the_greeting
    (s : Orch) (c : ascii) (apiKey : string) (startChat : option Thrown)
    (aborted : Completion) (touchstart : bool) (error : Thrown) :
  orderly s ->
  slot "isAgentEnabled" s = boolean false ->
  slot "isMicOpen" s = boolean false ->
  Agent.agentApiKey (agent s) = Some (String c apiKey) ->
  stops s = [] ->
  let enabling := step tools s (click_agentButton Normal startChat aborted) in
  let talking := step tools enabling (press_micButton touchstart Normal) in
  let failed := step tools talking (greeting (Rejected error)) in
  (slot "isAgentEnabled" enabling = boolean true /\ greetings enabling = S (greetings s))
  /\ slot "isMicOpen" talking = boolean true
  /\ (slot "isAgentEnabled" failed = boolean false
      /\ slot "geminiClient" failed = null
      /\ slot "lastError" failed = str ("Gemini init failed: " +:+ to_String error)
      /\ slot "isMicOpen" failed = boolean true
      /\ sttService failed = (Stt.start Normal (sttService s)).1)
  /\ (forall stopped,
        let released := step tools failed (release_micButton stopped) in
        slot "isMicOpen" released = boolean true
        /\ sttService released = sttService failed).
Proof.
  intros Hs Hoff Hmic Hkey Hstops enabling talking failed.
  set (env := {| Agent.construction := Normal;
                 Agent.startChat := startChat;
                 Agent.spoken := fun _ : string => Resolved ();
                 Agent.listening := Stt.getIsListening (sttService s) |}).
  set (s1 := lift (Agent._handleAgentToggleClick tools env) s).
  assert (Hoff' : isAgentEnabled s = false) by (unfold isAgentEnabled; rewrite Hoff; reflexivity).
  assert (Henabling : enabling = set_greetings (S (greetings s)) s1).
  { subst enabling. unfold step. cbn [handler]. unfold _handleAgentToggleClick.
    fold env. fold s1. rewrite Hoff', Hkey.
    apply reactions_none. cbn [stops set_greetings]. subst s1. cbn [stops lift log set_agent].
    rewrite Hstops. constructor. }
  assert (Htruthy : Agent.truthy (Agent.isAgentEnabled (agent s)) = false) by exact Hoff'.
  destruct (enable_disregards_startChat tools env (agent s) c apiKey Htruthy Hkey eq_refl eq_refl)
    as [Hen1 _].
  assert (Hmic1 : slot "isMicOpen" enabling = boolean false).
  { rewrite Henabling. unfold slot. cbn [agent set_greetings]. subst s1.
    cbn [agent lift log set_agent forget Agent.store].
    rewrite enabling_keeps_slot by (exact Htruthy || discriminate). exact Hmic. }
  assert (Hen1' : slot "isAgentEnabled" enabling = boolean true)
    by (rewrite Henabling; exact Hen1).
  assert (Hstops1 : stops enabling = []) by (rewrite Henabling; exact Hstops).
  split; [split; [exact Hen1'|rewrite Henabling; reflexivity]|].
  destruct (press_opens_the_microphone touchstart enabling Hen1' Hmic1 Hstops1)
    as (Hen2 & Hcl2 & Hmic2 & Hstt2 & Hstops2 & Hg2 & _).
  fold talking in Hen2, Hcl2, Hmic2, Hstt2, Hstops2, Hg2.
  split; [exact Hmic2|].
  assert (Hg : greetings talking = S (greetings s)) by (rewrite Hg2, Henabling; reflexivity).
  set (x := lift (Agent.enable_failed error) (set_greetings (greetings s) talking)).
  assert (Hfailed : failed = x).
  { subst failed. unfold step. cbn [handler]. unfold greeting_settled. rewrite Hg.
    apply reactions_none. change (stops _) with (stops talking). rewrite Hstops2.
    constructor. }
  destruct (enable_failed_slots error (agent talking)) as (F1 & F2 & F3 & _ & F5).
  assert (Hfields : slot "isAgentEnabled" failed = boolean false
                    /\ slot "geminiClient" failed = null
                    /\ slot "lastError" failed = str ("Gemini init failed: " +:+ to_String error)
                    /\ slot "isMicOpen" failed = boolean true
                    /\ sttService failed = (Stt.start Normal (sttService s)).1
                    /\ stops failed = []).
  { rewrite Hfailed. subst x. unfold slot.
    cbn [agent sttService stops lift log set_agent set_greetings forget Agent.store].
    split; [exact F1|]. split; [exact F2|]. split; [exact F3|].
    split; [rewrite F5 by discriminate; exact Hmic2|].
    split; [rewrite Hstt2, Henabling; reflexivity|exact Hstops2]. }
  destruct Hfields as (G1 & G2 & G3 & G4 & G5 & G6).
  split; [repeat split; assumption|].
  intros stopped released.
  assert (Hreleased : released
                      = match micStopTimeoutId failed with
                        | Some id => set_micStopTimeoutId None (clear id failed)
                        | None => failed
                        end).
  { assert (Hoff2 : isAgentEnabled failed = false)
      by (unfold isAgentEnabled; rewrite G1; reflexivity).
    subst released. unfold step. cbn [handler]. unfold _handleMicRelease.
    rewrite Hoff2. cbn [andb].
    apply reactions_none. destruct (cleared_fields failed) as (_ & _ & -> & _).
    rewrite G6. constructor. }
  destruct (cleared_fields failed) as (Ha & Hstt & _).
  rewrite Hreleased. unfold slot. rewrite Ha, Hstt. split; [exact G4|reflexivity].
Qed.






Lemma throws_inj (a b : Thrown) : @throws App a = throws b -> a = b.
Proof. intros H. injection H as ->. reflexivity. Qed.

(** The store a refused initialization leaves. *)
Lemma refused_store (message : string) :
  let store :=
    (updateState (list_to_map [("isSupported", boolean false); ("lastError", str message)])
       initial).1 in
  prop (getState store) "lastError" = str message
  /\ prop (getState store) "isSupported" = boolean false
  /\ prop (getState store) "isAgentEnabled" = boolean false
  /\ prop (getState store) "agentButtonElement" = null
  /\ prop (getState store) "micButtonElement" = null
  /\ stateEmitter store = [].
Proof.
  intros store. subst store. unfold getState, prop.
  rewrite !spread_empty, state_updateState, !lookup_spread. repeat split.
Qed.

(** Initialization. [initializeAgent] makes its checks in this order, and
    the first that fails decides the outcome: without a selector or
    without a key it returns [false] with [lastError] "Initialization
    options missing.", whatever the page and the browser are; with both,
    a selector that finds no element gives "Target element not found.",
    whatever the browser supports, and a selector that is not valid makes
    it throw; with an element found, a browser without speech recognition
    or without speech synthesis gives "Browser does not support required
    Speech APIs.". Every refusal leaves [isSupported] false, and no
    button, no subscription and no enabled agent behind. It returns
    [true] exactly when all checks pass, and then leaves the orchestrator
    from which the runs above start. *)
Theorem initializeAgent_outcomes (options : AgentInitOptions) (browser : Browser) (app : App) :
  let outcome := @initializeAgent App options browser app initial in
  let given := targetElementSelector options <> "" /\ apiKey options <> "" in
  let selected := querySelector browser (targetElementSelector options) in
  let speech :=
    recognition_available browser = true
    /\ recognition_construction browser = Normal
    /\ speechSynthesis browser = true in
  let unsupported :=
    recognition_available browser = false
    \/ (exists e, recognition_construction browser = Throw e)
    \/ speechSynthesis browser = false in
  let refused (message : string) :=
    exists store,
      outcome = returns_false store
      /\ prop (getState store) "lastError" = str message
      /\ prop (getState store) "isSupported" = boolean false
      /\ prop (getState store) "isAgentEnabled" = boolean false
      /\ prop (getState store) "agentButtonElement" = null
      /\ prop (getState store) "micButtonElement" = null
      /\ stateEmitter store = [] in
  (targetElementSelector options = "" \/ apiKey options = "" ->
   refused "Initialization options missing.")
  /\ (given -> selected = no_element -> refused "Target element not found.")
  /\ (forall e, given -> selected = invalid_selector e -> outcome = throws e)
  /\ (given -> selected = element -> unsupported ->
      refused "Browser does not support required Speech APIs.")
  /\ (given -> selected = element -> speech ->
      outcome
      = returns_true
          (initialized (apiKey options) (modelName options)
             (or_else (language options) "en-US")
             (default default_shortcuts.1 (shortcuts_given options ≫= fst),
              default default_shortcuts.2 (shortcuts_given options ≫= snd)) app))
  /\ (forall o, outcome = returns_true o -> given /\ selected = element /\ speech)
  /\ (forall e, outcome = throws e -> given /\ selected = invalid_selector e)
  /\ (forall store, outcome = returns_false store ->
        (targetElementSelector options = "" \/ apiKey options = "")
        \/ (given /\ selected = no_element)
        \/ (given /\ selected = element /\ unsupported)).
Proof.
  intros outcome given selected speech unsupported refused.
  assert (Hrefused : forall message,
    outcome
    = returns_false
        (updateState (list_to_map [("isSupported", boolean false); ("lastError", str message)])
           initial).1 ->
    refused message).
  { intros message H. eexists. split; [exact H|]. apply refused_store. }
  assert (Hmissing : targetElementSelector options = "" \/ apiKey options = "" ->
    outcome
    = returns_false
        (updateState (list_to_map [("isSupported", boolean false);
                                   ("lastError", str "Initialization options missing.")])
           initial).1).
  { intros H. subst outcome. unfold initializeAgent.
    destruct H as [H|H]; rewrite H; cbn [bool_decide decide_rel orb];
      [repeat f_equal|].
    destruct (bool_decide (targetElementSelector options = "")); repeat f_equal. }
  assert (Hgiven : given ->
    outcome
    = match selected with
      | invalid_selector e => throws e
      | no_element =>
          returns_false
            (updateState (list_to_map [("isSupported", boolean false);
                                       ("lastError", str "Target element not found.")])
               initial).1
      | element =>
          if negb (Stt.isSupported
                     (Stt.constructor (recognition_available browser)
                        (recognition_construction browser)
                        (or_else (language options) "en-US")))
             || negb (speechSynthesis browser)
          then returns_false
                 (updateState
                    (list_to_map [("isSupported", boolean false);
                                  ("lastError",
                                   str "Browser does not support required Speech APIs.")])
                    initial).1
          else returns_true
                 (initialized (apiKey options) (modelName options)
                    (or_else (language options) "en-US")
                    (default default_shortcuts.1 (shortcuts_given options ≫= fst),
                     default default_shortcuts.2 (shortcuts_given options ≫= snd)) app)
      end).
  { intros [Hs Hk]. subst outcome selected. unfold initializeAgent.
    rewrite (bool_decide_eq_false_2 _ Hs), (bool_decide_eq_false_2 _ Hk). cbn [orb].
    destruct (querySelector browser (targetElementSelector options));
      try (repeat f_equal; fail).
    cbv zeta.
    destruct (negb (Stt.isSupported _) || negb (speechSynthesis browser)) eqn:E;
      [repeat f_equal|].
    destruct (recognition_available browser), (recognition_construction browser),
      (speechSynthesis browser); try discriminate E. reflexivity. }
  assert (Hunsupported : unsupported ->
    negb (Stt.isSupported
            (Stt.constructor (recognition_available browser)
               (recognition_construction browser) (or_else (language options) "en-US")))
    || negb (speechSynthesis browser) = true).
  { intros [H|[[e H]|H]]; rewrite H.
    - reflexivity.
    - destruct (recognition_available browser); reflexivity.
    - apply orb_true_r. }
  assert (Hspeech : speech ->
    negb (Stt.isSupported
            (Stt.constructor (recognition_available browser)
               (recognition_construction browser) (or_else (language options) "en-US")))
    || negb (speechSynthesis browser) = false).
  { intros (H1 & H2 & H3). rewrite H1, H2, H3. reflexivity. }
  assert (Hdecide : speech \/ unsupported).
  { subst speech unsupported.
    destruct (recognition_available browser); [|right; left; reflexivity].
    destruct (recognition_construction browser) as [|e]; [|right; right; left; eauto].
    destruct (speechSynthesis browser); [left; repeat split|right; right; right; reflexivity]. }
  assert (Hoptions : (targetElementSelector options = "" \/ apiKey options = "") \/ given).
  { subst given.
    destruct (decide (targetElementSelector options = "")) as [H|H]; [left; left; exact H|].
    destruct (decide (apiKey options = "")) as [H'|H']; [left; right; exact H'|].
    right. split; assumption. }
  split; [intros H; apply Hrefused, Hmissing, H|].
  split; [intros Hg Hsel; apply Hrefused; rewrite (Hgiven Hg), Hsel; reflexivity|].
  split; [intros e Hg Hsel; rewrite (Hgiven Hg), Hsel; reflexivity|].
  split; [intros Hg Hsel Hun; apply Hrefused;
          rewrite (Hgiven Hg), Hsel, (Hunsupported Hun); reflexivity|].
  split; [intros Hg Hsel Hsp; rewrite (Hgiven Hg), Hsel, (Hspeech Hsp); reflexivity|].
  split; [|split].
  - intros o Ho. destruct Hoptions as [Hm|Hg]; [rewrite (Hmissing Hm) in Ho; discriminate|].
    rewrite (Hgiven Hg) in Ho. split; [exact Hg|].
    destruct selected; try discriminate. split; [reflexivity|].
    destruct Hdecide as [Hsp|Hun]; [exact Hsp|].
    rewrite (Hunsupported Hun) in Ho. discriminate.
  - intros e He. destruct Hoptions as [Hm|Hg]; [rewrite (Hmissing Hm) in He; discriminate|].
    rewrite (Hgiven Hg) in He. split; [exact Hg|].
    destruct selected as [| |e']; try discriminate.
    + destruct (negb _ || negb _); discriminate.
    + apply throws_inj in He. subst e'. reflexivity.
  - intros store Hstore. destruct Hoptions as [Hm|Hg]; [left; exact Hm|].
    right. rewrite (Hgiven Hg) in Hstore.
    destruct selected as [| |e'].
    + right. split; [exact Hg|]. split; [reflexivity|].
      destruct Hdecide as [Hsp|Hun]; [|exact Hun].
      rewrite (Hspeech Hsp) in Hstore. discriminate.
    + left. split; [exact Hg|reflexivity].
    + discriminate.
Qed.

End MicrophoneAndKeyboard.

Section AudioCues.
Import Js Earcon.

Lemma filter_nothing {A} (P : A -> Prop) `{forall x, Decision (P x)} (l : list A) :
  (forall x, x ∈ l -> ~ P x) -> filter P l = [].
Proof.
  induction l as [|x l IH]; intros Hnone; [reflexivity|].
  rewrite filter_cons. destruct (decide (P x)) as [HP|_].
  - exfalso. apply (Hnone x); [left|exact HP].
  - apply IH. intros y Hy. apply Hnone. right. exact Hy.
Qed.

(** On a service all of whose sounds are tracked, [stopAllSounds] leaves
    silence. *)
Lemma stopAllSounds_silence (s : EarconService) :
  tracked s ->
  sounding (stopAllSounds s) = [] /\ currentSources (stopAllSounds s) = []
  /\ thinkingOscillator (stopAllSounds s) = None
  /\ oscillators (stopAllSounds s) = oscillators s
  /\ waiting (stopAllSounds s) = waiting s
  /\ audioContext (stopAllSounds s) = audioContext s
  /\ sourcesInSequence (stopAllSounds s) = sourcesInSequence s.
Proof.
  intros Ht. unfold stopAllSounds, stopThinkingLoop, lower_flag.
  cbn [thinkingOscillator].
  destruct (thinkingOscillator s) as [osc|] eqn:E; cbn; (split; [|repeat split]).
  - apply filter_nothing. intros o Ho Hne.
    apply list_elem_of_filter in Ho. destruct Ho as [Hnot Ho].
    destruct (Ht o Ho) as [Hin|Heq]; [contradiction|]. congruence.
  - apply filter_nothing. intros o Ho Hnot.
    destruct (Ht o Ho) as [Hin|Heq]; [contradiction|]. congruence.
Qed.

Lemma play_tones_fields (sequence tones : nat) : forall s : EarconService,
  let s' := play_tones sequence tones s in
  sounding s' = sounding s ++ seq (oscillators s) tones
  /\ currentSources s' = currentSources s ++ seq (oscillators s) tones
  /\ oscillators s' = oscillators s + tones
  /\ thinkingOscillator s' = thinkingOscillator s
  /\ waiting s' = waiting s
  /\ audioContext s' = audioContext s
  /\ isPlayingFlag s' = isPlayingFlag s
  /\ length (sourcesInSequence s') = length (sourcesInSequence s).
Proof.
  induction tones as [|tones IH]; intros s; cbn [play_tones].
  - cbn. rewrite !app_nil_r, Nat.add_0_r. repeat split.
  - cbn [start].
    match goal with
    | |- context [play_tones sequence tones ?x] =>
        set (y := x); specialize (IH y); cbv zeta in IH;
        destruct IH as (H1 & H2 & H3 & H4 & H5 & H6 & H7 & H8)
    end.
    rewrite H1, H2, H3, H4, H5, H6, H7, H8. subst y.
    cbn [sounding currentSources oscillators thinkingOscillator waiting
           audioContext isPlayingFlag sourcesInSequence].
    rewrite length_alter, <- !app_assoc. cbn [seq app].
    repeat split. lia.
Qed.

Lemma resume_fields (c : Continuation) (x : EarconService) :
  context c = true -> kind c <> thinkingLoop ->
  sounding (resume c x) = sounding x ++ seq (oscillators x) (started (kind c))
  /\ currentSources (resume c x) = currentSources x ++ seq (oscillators x) (started (kind c))
  /\ oscillators (resume c x) = oscillators x + started (kind c)
  /\ thinkingOscillator (resume c x) = thinkingOscillator x
  /\ waiting (resume c x) = waiting x
  /\ isPlayingFlag (resume c x) = true.
Proof.
  intros Hc Hk. unfold resume. rewrite Hc. destruct (kind c) as [|tones|]; [| |contradiction].
  - cbn. rewrite Nat.add_1_r. repeat split.
  - match goal with
    | |- context [play_tones ?sequence tones ?y] =>
        destruct (play_tones_fields sequence tones y) as (H1 & H2 & H3 & H4 & H5 & _ & H7 & _)
    end.
    rewrite H1, H2, H3, H4, H5, H7. repeat split.
Qed.

Lemma begin_fields (i : Input) (n : nat) (s : EarconService) :
  earcon i = Some n -> tracked s ->
  sounding (step s i) = [] /\ currentSources (step s i) = []
  /\ thinkingOscillator (step s i) = None
  /\ oscillators (step s i) = oscillators s
  /\ exists c, waiting (step s i) = waiting s ++ [c]
               /\ context c = true /\ kind c <> thinkingLoop /\ started (kind c) = n.
Proof.
  intros Hi Ht.
  destruct (stopAllSounds_silence s Ht) as (H1 & H2 & H3 & H4 & H5 & _ & _).
  destruct i as [[|]|tones [|]| | | | |]; try discriminate; inversion Hi; subst;
    cbn [step]; unfold _playTone, _playToneSequence, await, _getAudioContext;
    destruct (audioContext (stopAllSounds s));
    cbn [sounding currentSources thinkingOscillator oscillators waiting];
    rewrite H5; (repeat (split; [assumption|]));
    eexists; (split; [reflexivity|]); cbn; repeat split; discriminate.
Qed.

Lemma tracked_silent (x : EarconService) : sounding x = [] -> tracked x.
Proof. intros H osc Hin. rewrite H in Hin. inversion Hin. Qed.

Lemma resumes_first (c : Continuation) (rest : list Continuation) (x : EarconService) :
  waiting x = c :: rest ->
  exists y, step x resumes = resume c y
            /\ sounding y = sounding x /\ currentSources y = currentSources x
            /\ oscillators y = oscillators x /\ thinkingOscillator y = thinkingOscillator x
            /\ waiting y = rest.
Proof. intros H. cbn [step]. rewrite H. eexists. split; [reflexivity|]. repeat split. Qed.

(** One earcon at a time, when the calls do not overlap. An earcon that
    is requested after the previous one has resumed silences it: only the
    oscillators of the second sound. Two earcons requested one right
    after the other, before either has resumed after waiting for the
    audio context, both sound: [stopAllSounds] ran twice before any
    oscillator existed, and each method then starts its own. *)
Theorem earcons_requested_together_sound_together
    (s : EarconService) (first second : Input) (n1 n2 : nat) :
  earcon first = Some n1 ->
  earcon second = Some n2 ->
  tracked s ->
  waiting s = [] ->
  let apart := run [first; resumes; second; resumes] s in
  let together := run [first; second; resumes; resumes] s in
  sounding apart = seq (oscillators s + n1) n2
  /\ sounding together = seq (oscillators s) (n1 + n2)
  /\ currentSources together = sounding together
  /\ isPlaying together = true.
Proof.
  intros H1 H2 Ht Hw apart together.
  destruct (begin_fields first n1 s H1 Ht) as (A1 & A2 & A3 & A4 & [c1 (A5 & A6 & A7 & A8)]).
  rewrite Hw in A5. cbn [app] in A5.
  set (x1 := step s first) in *.
  split.
  - destruct (resumes_first c1 [] x1 A5) as [y1 (B0 & B1 & B2 & B3 & B4 & B5)].
    destruct (resume_fields c1 y1 A6 A7) as (C1 & C2 & C3 & C4 & C5 & _).
    set (x2 := step x1 resumes) in *. rewrite <- B0 in C1, C2, C3, C4, C5.
    rewrite B1, A1, B3, A4, A8 in C1. rewrite B2, A2, B3, A4, A8 in C2.
    rewrite B3, A4, A8 in C3. rewrite B5 in C5. cbn [app] in C1, C2.
    assert (Ht2 : tracked x2).
    { intros osc Hin. left. rewrite C2, <- C1. exact Hin. }
    destruct (begin_fields second n2 x2 H2 Ht2)
      as (D1 & D2 & D3 & D4 & [c2 (D5 & D6 & D7 & D8)]).
    rewrite C5 in D5. cbn [app] in D5.
    set (x3 := step x2 second) in *.
    destruct (resumes_first c2 [] x3 D5) as [y3 (E0 & E1 & E2 & E3 & E4 & E5)].
    destruct (resume_fields c2 y3 D6 D7) as (F1 & _).
    subst apart. unfold run. cbn [foldl]. fold x1. fold x2. fold x3.
    rewrite E0, F1, E1, D1, E3, D4, C3, D8. reflexivity.
  - assert (Ht1 : tracked x1) by (apply tracked_silent, A1).
    destruct (begin_fields second n2 x1 H2 Ht1)
      as (D1 & D2 & D3 & D4 & [c2 (D5 & D6 & D7 & D8)]).
    rewrite A5 in D5. cbn [app] in D5.
    set (y2 := step x1 second) in *.
    destruct (resumes_first c1 [c2] y2 D5) as [z2 (E0 & E1 & E2 & E3 & E4 & E5)].
    destruct (resume_fields c1 z2 A6 A7) as (F1 & F2 & F3 & F4 & F5 & _).
    set (y3 := step y2 resumes) in *. rewrite <- E0 in F1, F2, F3, F4, F5.
    rewrite E1, D1, E3, D4, A4, A8 in F1. rewrite E2, D2, E3, D4, A4, A8 in F2.
    rewrite E3, D4, A4, A8 in F3. rewrite E5 in F5. cbn [app] in F1, F2.
    destruct (resumes_first c2 [] y3 F5) as [z3 (G0 & G1 & G2 & G3 & G4 & G5)].
    destruct (resume_fields c2 z3 D6 D7) as (I1 & I2 & _ & _ & _ & I6).
    assert (Hrun : together = step y3 resumes) by reflexivity.
    rewrite Hrun, G0. unfold isPlaying. rewrite I1, I2, I6, G1, G2, G3, F1, F2, F3, D8.
    rewrite <- seq_app. repeat split.
Qed.

End AudioCues.

(** * The theorems at work on concrete runs *)

Section Witnesses.
Import Js Examples.

Lemma handleToolCall_unknown_tool_witness :
  Tools.handleToolCall recording "order_pizza" JNull []
  = (Resolved (JStr "Error: Tool order_pizza is not available."), []).
Proof.
  apply (handleToolCall_unknown_tool recording "order_pizza" JNull []).
  vm_compute. intros H. repeat (inversion H as [|? ? ? H']; clear H; rename H' into H).
Defined.

Lemma sendMessage_without_tool_calls_witness :
  Gemini.emitted (Gemini.sendMessage config (@rev Gemini.Settlement) [replies final_reply] "hello" ready)
  = [Gemini.thinking; Gemini.responseComplete (Some "Here are some pasta recipes.") None].
Proof.
  destruct (sendMessage_without_tool_calls config (@rev Gemini.Settlement) ready {| Gemini.sent := [] |}
              "hello" final_reply [] eq_refl (or_introl eq_refl))
    as [new [Hemitted [Hnew _]]].
  subst new. exact Hemitted.
Defined.

Lemma sendMessage_two_tool_rounds_witness :
  let c' := Gemini.sendMessage config (@rev Gemini.Settlement)
              [replies first_reply; replies second_reply; replies final_reply]
              "find pasta" ready in
  length (filter (fun e => Gemini.is_functionCallRequested e = true) (Gemini.emitted c')) = 2
  /\ last (Gemini.emitted c')
     = Some (Gemini.responseComplete (Some "Here are some pasta recipes.") None)
  /\ Gemini.world c' = ["search_recipes"; "list_favorites"]
  /\ Gemini.requests c'
     = [Gemini.UserText "find pasta";
        Gemini.FunctionResponses
          [ {| Gemini.fr_name := "view_recipe";
               Gemini.response :=
                 JObj [("error", JStr "Failed to execute tool: recipe not found")] |};
            {| Gemini.fr_name := "search_recipes";
               Gemini.response := JObj [("result", JStr "search_recipes done")] |} ];
        Gemini.FunctionResponses
          [ {| Gemini.fr_name := "list_favorites";
               Gemini.response := JObj [("result", JStr "list_favorites done")] |} ]].
Proof.
  intros c'.
  destruct (sendMessage_two_tool_rounds config (@rev Gemini.Settlement) ready {| Gemini.sent := [] |} flaky
              "find pasta" first_reply second_reply final_reply [search; view] [favorites] []
              eq_refl eq_refl
              (fun l => Permutation_sym (Permutation_rev l))
              eq_refl ltac:(discriminate) eq_refl ltac:(discriminate) (or_introl eq_refl))
    as (new & events1 & events2 & parts1 & parts2 & Hemitted & _ & Hbatches & _ & Hlast
        & Hrequests & Hworld & _ & _ & _ & Hslots1 & _ & Hslots2 & _).
  assert (Hsame : Gemini.emitted c' = new) by exact Hemitted.
  rewrite Hsame. split; [exact Hbatches|]. split; [exact Hlast|]. split; [exact Hworld|].
  assert (Hsent : Gemini.requests c'
                  = [Gemini.UserText "find pasta"; Gemini.FunctionResponses parts1;
                     Gemini.FunctionResponses parts2]) by exact Hrequests.
  rewrite Hsent, (slots_determine _ _ Hslots1), (slots_determine _ _ Hslots2).
  vm_compute. reflexivity.
Defined.

Lemma function_responses_are_enveloped_witness :
  Gemini.requests
    (Gemini.sendMessage varied_config (fun l : list Gemini.Settlement => l)
       [replies varied_reply; replies final_reply] "go" ready)
  = [Gemini.UserText "go";
     Gemini.FunctionResponses
       [ {| Gemini.fr_name := "text";
            Gemini.response := JObj [("result", JStr "done")] |};
         {| Gemini.fr_name := "array";
            Gemini.response := JObj [("result", JArr [JNum 1; JNum 2])] |};
         {| Gemini.fr_name := "object";
            Gemini.response := JObj [("result", JObj [("id", JNum 7)])] |};
         {| Gemini.fr_name := "nothing";
            Gemini.response := JObj [("result", JNull)] |};
         {| Gemini.fr_name := "broken";
            Gemini.response :=
              JObj [("error", JStr "Failed to execute tool: no such recipe")] |} ]].
Proof.
  destruct (function_responses_are_enveloped varied_config
              (fun l : list Gemini.Settlement => l)) as (_ & _ & Hturn).
  destruct (Hturn [replies varied_reply; replies final_reply] "go" ready
              {| Gemini.sent := [] |} varied eq_refl eq_refl)
    as (answers & Hrequests & Hslots & _).
  assert (Hsent : Gemini.requests
                    (Gemini.sendMessage varied_config (fun l : list Gemini.Settlement => l)
                       [replies varied_reply; replies final_reply] "go" ready)
                  = Gemini.UserText "go" :: (Gemini.FunctionResponses <$> answers))
    by exact Hrequests.
  rewrite Hsent, (rounds_determine _ _ _ Hslots).
  vm_compute. reflexivity.
Defined.

Lemma speak_chunks_then_remainder_witness :
  Tts.utterances (Tts.speak fluent "Boil water. Add pasta! Stir?" silent).1
  = ["Boil water."; " Add pasta!"; " Stir?"]
  /\ Tts.utterances (Tts.speak fluent "Stir well and serve" silent).1
     = ["Stir well and"; " serve"].
Proof.
  destruct (speak_chunks_then_remainder fluent silent eq_refl eq_refl (fun _ _ => eq_refl))
    as [[_ [Hthree _]] Hall].
  split; [exact Hthree|].
  destruct (Hall "Stir well and serve") as [_ [_ [Hlast _]]].
  assert (Hsplit : Tts.splitByPunctuation "Stir well and serve" = (["Stir well and"], " serve"))
    by (vm_compute; reflexivity).
  rewrite Hsplit in Hlast. apply Hlast. discriminate.
Defined.

End Witnesses.

Section WitnessesMore.
Import Js Examples.

Lemma turn_ends_when_the_model_stops_asking_witness :
  let ended :=
    Gemini.sendMessage config (@rev Gemini.Settlement)
      [replies first_reply; replies final_reply] "find pasta" ready in
  let waiting :=
    Gemini.sendMessage config (@rev Gemini.Settlement)
      [replies first_reply; replies second_reply] "find pasta" ready in
  length (filter (fun e => Gemini.is_responseComplete e = true) (Gemini.emitted ended)) = 1
  /\ filter (fun e => Gemini.is_responseComplete e = true) (Gemini.emitted waiting) = []
  /\ filter (fun e => Gemini.is_functionCallRequested e = true) (Gemini.emitted waiting)
     = [Gemini.functionCallRequested [search; view];
        Gemini.functionCallRequested [favorites]].
Proof.
  intros ended waiting. split.
  - destruct (turn_ends_when_the_model_stops_asking config (@rev Gemini.Settlement) ready
                {| Gemini.sent := [] |} [replies first_reply; replies final_reply]
                "find pasta" eq_refl)
      as (_ & Hends & _).
    apply Hends. right. left. reflexivity.
  - destruct (turn_ends_when_the_model_stops_asking config (@rev Gemini.Settlement) ready
                {| Gemini.sent := [] |} [replies first_reply; replies second_reply]
                "find pasta" eq_refl)
      as (_ & _ & Hwaits & _).
    destruct Hwaits as (middle & Hnews & Hnone & Hbatches & _).
    + repeat constructor; eexists; reflexivity.
    + eexists; reflexivity.
    + assert (Hemitted : Gemini.emitted waiting = Gemini.thinking :: middle) by exact Hnews.
      split; [exact Hnone|]. rewrite Hemitted.
      rewrite filter_cons_False by (cbn; discriminate). exact Hbatches.
Defined.

Lemma every_batch_is_answered_once_witness :
  exists events batches answers,
    Gemini.emitted (Gemini.sendMessage config (@rev Gemini.Settlement)
                      [replies first_reply; replies final_reply] "find pasta" ready)
    = Gemini.emitted ready ++ events
    /\ filter (fun e => Gemini.is_functionCallRequested e = true) events
       = Gemini.functionCallRequested <$> batches
    /\ Forall2 Gemini.answers_batch batches answers.
Proof.
  destruct (every_batch_is_answered_once config (@rev Gemini.Settlement)
              (fun l => Permutation_sym (Permutation_rev l)) ready
              {| Gemini.sent := [] |} [replies first_reply; replies final_reply]
              "find pasta" eq_refl)
    as [events [batches [answers [H1 [H2 [_ H4]]]]]].
  exists events, batches, answers. auto.
Defined.

Lemma listening_is_consistent : Stt.consistent Stt.listening.
Proof.
  change Stt.listening
    with (Stt.step (Stt.step (Stt.constructor true Normal "en-US") (Stt.call_start Normal))
            Stt.fire_start).
  apply consistent_step, consistent_step, consistent_cleared;
    [apply tidy_constructor|reflexivity].
Qed.

Lemma stop_resolves_at_end_witness :
  Stt.settlement 0
    (Stt.step (Stt.run [Stt.fire_result Stt.hello_event] (Stt.stop Normal Stt.listening).1)
       Stt.fire_end)
  = Some (Resolved "hello").
Proof.
  destruct (stop_resolves_at_end Stt.listening [Stt.hello_event]
              listening_is_consistent eq_refl eq_refl) as (_ & _ & H & _).
  exact H.
Defined.

Lemma second_stop_orphans_first_witness :
  Stt.settlement 0
    (Stt.run [Stt.fire_end; Stt.call_start Normal; Stt.fire_start]
       (Stt.stop Normal (Stt.stop Normal Stt.listening).1).1)
  = None.
Proof.
  destruct (second_stop_orphans_first Stt.listening Normal
              [Stt.fire_end; Stt.call_start Normal; Stt.fire_start]
              listening_is_consistent eq_refl eq_refl) as (_ & _ & H).
  exact H.
Defined.

Lemma abort_rejects_pending_stop_witness :
  Stt.settlement 0 (Stt.abort Normal (Stt.stop Normal Stt.listening).1)
  = Some (Rejected (NonError "Recognition aborted by user.")).
Proof.
  destruct (abort_rejects_pending_stop Stt.listening Normal
              listening_is_consistent eq_refl eq_refl) as (H & _).
  exact H.
Defined.

Lemma speak_stops_at_first_failure_witness :
  Tts.utterances (Tts.speak stumbling "One. Two. Three." silent).1 = ["One."; " Two."]
  /\ (Tts.speak stumbling "One. Two. Three." silent).2 = Rejected (NonError "network").
Proof.
  apply (speak_stops_at_first_failure stumbling "One. Two. Three." silent 1 " Two.").
  - reflexivity.
  - reflexivity.
  - intros j earlier Hj _. destruct j as [|j]; [reflexivity|lia].
  - reflexivity.
  - discriminate.
Defined.

Lemma text_without_marks_is_one_utterance_witness :
  Tts.utterances (Tts.speak fluent "Hello there" silent).1 = ["Hello there"]
  /\ (Tts.speak fluent "Hello there" silent).2 = Resolved ().
Proof.
  destruct (text_without_marks_is_one_utterance fluent "Hello there" silent) as (_ & H1 & H2).
  - vm_compute. repeat constructor.
  - reflexivity.
  - reflexivity.
  - reflexivity.
  - split; [exact H1|exact H2].
Defined.

Lemma list_favorites_after_mark_witness :
  (2%Z, list_ascii_of_string "Shoyu Ramen")
  ∈ App.list_favorites table
      (App.favorites (App.markAsFavorite 2 true {| App.favorites := [1%Z]; App.recipeFavorites := None |})).
Proof.
  destruct (list_favorites_after_mark table ramen
              {| App.favorites := [1%Z]; App.recipeFavorites := None |}) as (H & _).
  - right. left.
  - exact H.
Defined.

Lemma failed_enable_leaves_the_agent_disabled_witness :
  let refused := {| Agent.construction := Throw (ErrorObject "Error" "API key not valid");
                    Agent.startChat := None;
                    Agent.spoken := fun _ => Resolved ();
                    Agent.listening := false |} in
  Agent.lastError
    (Agent._handleAgentToggleClick recording refused (Agent.initialized "key" None []))
  = State.str "Gemini init failed: Error: API key not valid".
Proof.
  intros refused.
  destruct (failed_enable_leaves_the_agent_disabled recording refused
              (Agent.initialized "key" None [])) as (_ & H & _).
  - vm_compute. reflexivity.
  - destruct (H "k"%char "ey" (ErrorObject "Error" "API key not valid") eq_refl eq_refl)
      as (_ & _ & Hlast & _).
    exact Hlast.
Defined.

Lemma sound_greeting : Captions.sound greeting.
Proof. apply sound_showCaption, sound_constructor. Qed.

Lemma caption_stays_until_its_time_witness :
  let shown := Captions.showCaption "Agent: Done." (Some 2000%N) greeting in
  let later :=
    Captions.run Z.add Z.sub pretty
      [Captions.timeout 0;
       Captions.mousedown 1 {| Captions.clientX := 10%Z; Captions.clientY := 10%Z |}
         (300%Z, 40%Z);
       Captions.mouseup] shown in
  Captions.onScreen later = ["Agent: Done."]
  /\ Captions.onScreen (Captions.step Z.add Z.sub pretty later (Captions.timeout 1)) = [].
Proof.
  intros shown later.
  destruct (caption_stays_until_its_time Z.add Z.sub pretty "Agent: Done." (Some 2000%N)
              [Captions.timeout 0;
               Captions.mousedown 1 {| Captions.clientX := 10%Z; Captions.clientY := 10%Z |}
                 (300%Z, 40%Z);
               Captions.mouseup] greeting) as (H1 & _ & H3).
  - exact sound_greeting.
  - reflexivity.
  - intros _ Hin. cbn in Hin.
    repeat (apply elem_of_cons in Hin; destruct Hin as [Hin|Hin]; [discriminate|]).
    inversion Hin.
  - split; [exact H1|exact (H3 eq_refl)].
Defined.

Lemma next_caption_appears_where_the_last_was_dropped_witness :
  let dropped :=
    Captions.run Z.add Z.sub pretty
      [Captions.mousedown 0 {| Captions.clientX := 10%Z; Captions.clientY := 10%Z |}
         (300%Z, 40%Z);
       Captions.mousemove {| Captions.clientX := 15%Z; Captions.clientY := 110%Z |};
       Captions.mouseup] greeting in
  (Captions.persistedLeft dropped, Captions.persistedTop dropped)
  = (Some "305px", Some "140px").
Proof.
  intros dropped.
  destruct (next_caption_appears_where_the_last_was_dropped Z.add Z.sub pretty greeting 0
              {| Captions.clientX := 10%Z; Captions.clientY := 10%Z |} (300%Z, 40%Z)
              [{| Captions.clientX := 15%Z; Captions.clientY := 110%Z |}]
              "Agent: Done." None) as (H & _).
  - exact sound_greeting.
  - reflexivity.
  - exact H.
Defined.

Lemma orderly_attentive : Controls.orderly attentive.
Proof. apply orderly_run, orderly_initialized. Qed.



Lemma thinking_ends_with_the_turn_witness :
  Agent.quiet_since enabled
    (Agent.deliver (fun _ => Resolved ())
       [Agent.on_thinking; Agent.on_responseComplete; Agent.on_error]
       (Agent.events_since 0
          (Gemini.sendMessage config (@rev Gemini.Settlement)
             [replies first_reply; Gemini.Fails (Falsy "undefined")] "find pasta" ready))
       enabled).
Proof.
  destruct (thinking_ends_with_the_turn config (@rev Gemini.Settlement) ready
              [replies first_reply; Gemini.Fails (Falsy "undefined")] "find pasta"
              (fun _ => Resolved ()) enabled) as (Hquiet & _).
  apply Hquiet. right. right. left. reflexivity.
Defined.

Lemma default_voice_policy_witness :
  Tts._selectDefaultVoice voices
  = Some {| Tts.name := "Google UK English Female"; Tts.lang := "en-GB" |}.
Proof.
  destruct (default_voice_policy voices) as (_ & _ & Hnamed & _).
  apply Hnamed.
  exists [ {| Tts.name := "Alex"; Tts.lang := "en-US" |} ],
    [ {| Tts.name := "Google UK English Female"; Tts.lang := "en-AU" |} ].
  split; [reflexivity|]. split; [reflexivity|].
  intros x Hx. apply list_elem_of_singleton in Hx. subst x. reflexivity.
Defined.

Lemma getRecipe_finds_witness :
  App.getRecipe [carbonara; ramen; ramen_again] 2 = Some ramen.
Proof.
  destruct (getRecipe_finds [carbonara; ramen; ramen_again] 2) as (_ & Hfirst & _).
  apply Hfirst. exists [carbonara], [ramen_again].
  split; [reflexivity|]. split; [reflexivity|].
  intros x Hx. apply list_elem_of_singleton in Hx. subst x. discriminate.
Defined.

Lemma push_to_talk_sends_what_was_heard_witness :
  let final :=
    Controls.run recording
      ([Controls.press_micButton false Normal; Controls.recognizer Controls.onstart]
       ++ (Controls.recognizer ∘ Controls.onresult <$> [Stt.hello_event])
       ++ [Controls.release_micButton Normal]
       ++ (Controls.recognizer ∘ Controls.onresult <$> [])
       ++ [Controls.recognizer Controls.onend]) attentive in
  exists before,
    Controls.calls final
    = Controls.calls attentive ++ before
      ++ [Controls.effect (Agent.showCaption "You said: hello" (Some 15000%N));
          Controls.geminiClient_sendMessage 3 "hello"].
Proof.
  intros final.
  destruct (push_to_talk_sends_what_was_heard recording attentive 3 false [Stt.hello_event] [])
    as (_ & _ & _ & _ & H).
  - exact orderly_attentive.
  - vm_compute. reflexivity.
  - vm_compute. reflexivity.
  - vm_compute. reflexivity.
  - reflexivity.
  - reflexivity.
  - reflexivity.
  - exact H.
Defined.


Lemma microphone_opened_during_the_greeting_witness :
  let failed :=
    Controls.run recording
      [Controls.click_agentButton Normal None Normal;
       Controls.press_micButton false Normal;
       Controls.greeting (Rejected (NonError "Speech interrupted by stop() call."))] idle in
  Controls.slot "isAgentEnabled" failed = State.boolean false
  /\ Controls.slot "isMicOpen" failed = State.boolean true
  /\ Controls.slot "lastError" failed
     = State.str "Gemini init failed: Speech interrupted by stop() call.".
Proof.
  intros failed.
  destruct (microphone_opened_during_the_greeting recording idle "k"%char "ey" None Normal
              false (NonError "Speech interrupted by stop() call."))
    as (_ & _ & (H1 & _ & H3 & H4 & _) & _).
  - apply orderly_initialized.
  - vm_compute. reflexivity.
  - vm_compute. reflexivity.
  - reflexivity.
  - reflexivity.
  - split; [exact H1|]. split; [exact H4|exact H3].
Defined.

Lemma earcons_requested_together_sound_together_witness :
  Earcon.sounding
    (Earcon.run [Earcon.call_playTone true; Earcon.call_playTone true;
                 Earcon.resumes; Earcon.resumes] Earcon.constructor)
  = [0; 1].
Proof.
  destruct (earcons_requested_together_sound_together Earcon.constructor
              (Earcon.call_playTone true) (Earcon.call_playTone true) 1 1) as (_ & H & _).
  - reflexivity.
  - reflexivity.
  - apply tracked_silent. reflexivity.
  - reflexivity.
  - exact H.
Defined.

End WitnessesMore.

